(** * Structural repair pipeline: a shallow embedding

    This development embeds the text-repair core of the diagram generator:

    - [FixUnclosed]   : lib/fixUnclosed.js, the JSON and XML/HTML repair
                        automata ([fixJSON], [fixXMLorHTML], [fixUnclosed]);
    - [CodeProcessor] : the pipeline engine ([process]) and its steps
                        ([cleanBOM], [extractCodeFence], ...);
    - [ConfigRoute]   : the route [POST /api/llm/config];
    - [EngineShared]  : hooks/useEngineShared.js, the messages sent
                        ([buildFullMessages]) and the streamed answer
                        ([processSSEStream]);
    - [ConfigManager] : lib/config-manager.js, the list of configurations
                        and its storage;
    - [StreamRoute]   : the route [POST /api/llm/stream], the stream it
                        answers with.

    JavaScript strings are sequences of UTF-16 code units; they are modelled
    as lists of [N].  Regular expressions are modelled by backtracking
    matchers in continuation-passing style, written construct by construct
    after the source pattern.  [JSON.parse] and [JSON.stringify] are the
    platform's; they are modelled after ECMA-404 / ECMA-262. *)

From Stdlib Require Import String Ascii DecimalString.
From Stdlib Require Import List NArith ZArith Lia Bool Arith.
Import ListNotations.

Set Implicit Arguments.
Set Warnings "-register-all".

(* ================================================================== *)
(** * JavaScript strings *)
(* ================================================================== *)

Module JS.

Local Open Scope N_scope.

(** A UTF-16 code unit, and a string of them. *)
Abbreviation char := N.
Abbreviation jsstring := (list N).

Abbreviation QUOTE     := 34%N (only parsing).   (* double quote *)
Abbreviation AMP       := 38%N (only parsing).
Abbreviation APOS      := 39%N (only parsing).
Abbreviation PLUS      := 43%N (only parsing).
Abbreviation COMMA     := 44%N (only parsing).
Abbreviation SLASH     := 47%N (only parsing).
Abbreviation COLON     := 58%N (only parsing).
Abbreviation LT        := 60%N (only parsing).
Abbreviation GT        := 62%N (only parsing).
Abbreviation QMARK     := 63%N (only parsing).
Abbreviation BANG      := 33%N (only parsing).
Abbreviation LBRACKET  := 91%N (only parsing).
Abbreviation BACKSLASH := 92%N (only parsing).
Abbreviation RBRACKET  := 93%N (only parsing).
Abbreviation UNDERSCORE := 95%N (only parsing).
Abbreviation BACKTICK  := 96%N (only parsing).
Abbreviation LBRACE    := 123%N (only parsing).
Abbreviation RBRACE    := 125%N (only parsing).
Abbreviation BOM       := 65279%N (only parsing). (* U+FEFF *)

(** The code units of an ASCII literal. *)
Definition js (s : string) : jsstring :=
  map N_of_ascii (list_ascii_of_string s).

(** As [js], with every apostrophe of the literal read as a double quote,
    so that JSON text can be written down as a literal. *)
Definition jq (s : string) : jsstring :=
  map (fun c => if c =? APOS then QUOTE else c) (js s).

Definition char_eqb (a b : char) : bool := a =? b.

Fixpoint str_eqb (a b : jsstring) : bool :=
  match a, b with
  | [], [] => true
  | x :: a', y :: b' => (x =? y) && str_eqb a' b'
  | _, _ => false
  end.

(** WhiteSpace and LineTerminator of ECMA-262: what [String.prototype.trim]
    strips and what [\s] matches. *)
Definition is_ws (c : char) : bool :=
  ((9 <=? c) && (c <=? 13)) || (c =? 32) || (c =? 160) || (c =? 5760)
  || ((8192 <=? c) && (c <=? 8202)) || (c =? 8232) || (c =? 8233)
  || (c =? 8239) || (c =? 8287) || (c =? 12288) || (c =? BOM).

Fixpoint trimStart (s : jsstring) : jsstring :=
  match s with
  | c :: s' => if is_ws c then trimStart s' else s
  | [] => []
  end.

Definition trimEnd (s : jsstring) : jsstring := rev (trimStart (rev s)).

Definition trim (s : jsstring) : jsstring := trimEnd (trimStart s).

Fixpoint startsWith (s prefix : jsstring) {struct prefix} : bool :=
  match prefix, s with
  | [], _ => true
  | p :: prefix', c :: s' => (c =? p) && startsWith s' prefix'
  | _ :: _, [] => false
  end.

Definition endsWith (s suffix : jsstring) : bool :=
  startsWith (rev s) (rev suffix).

(** [s.includes(sub)] *)
Fixpoint includes (s sub : jsstring) : bool :=
  startsWith s sub ||
  match s with
  | [] => false
  | _ :: s' => includes s' sub
  end.

(** [s.indexOf(c)] for a one-character needle; [None] stands for [-1]. *)
Fixpoint indexOf (s : jsstring) (c : char) : option nat :=
  match s with
  | [] => None
  | x :: s' => if x =? c then Some O else option_map S (indexOf s' c)
  end.

(** [s.lastIndexOf(c)] for a one-character needle. *)
Fixpoint lastIndexOf (s : jsstring) (c : char) : option nat :=
  match s with
  | [] => None
  | x :: s' =>
      match lastIndexOf s' c with
      | Some i => Some (S i)
      | None => if x =? c then Some O else None
      end
  end.

(** [s.slice(from, to)] for non-negative indices: empty when [to <= from]. *)
Definition slice (s : jsstring) (from to : nat) : jsstring :=
  firstn (to - from) (skipn from s).

(** [s.slice(0, -1)] *)
Definition dropLast (s : jsstring) : jsstring := removelast s.

(** ASCII letters, digits; [\w] of a non-unicode pattern. *)
Definition is_upper (c : char) : bool := (65 <=? c) && (c <=? 90).
Definition is_lower (c : char) : bool := (97 <=? c) && (c <=? 122).
Definition is_alpha (c : char) : bool := is_upper c || is_lower c.
Definition is_digit (c : char) : bool := (48 <=? c) && (c <=? 57).
Definition is_word (c : char) : bool :=
  is_alpha c || is_digit c || (c =? UNDERSCORE).

(** [String.prototype.toLowerCase] on a text of ASCII characters.  The
    method follows the Unicode case mapping, whose tables are not part of
    this model: here a code unit outside ASCII is left as it is, which is
    not what the method does with a capital such as U+00C9.  What is
    stated of a text that the code lower-cases is stated of ASCII
    texts. *)
Definition lower_char (c : char) : char := if is_upper c then c + 32 else c.
Definition toLowerCase (s : jsstring) : jsstring := map lower_char s.

(** Canonicalisation of a case-insensitive, non-unicode pattern: a code
    unit outside ASCII never folds onto an ASCII one, so against an ASCII
    pattern character the comparison is the ASCII one. *)
Definition char_eqb_ci (a b : char) : bool := lower_char a =? lower_char b.

(** ** Values and completions *)

(** The values a pipeline step can be handed.  Numbers are represented by
    integers; only their type tag and truthiness are ever inspected. *)
Inductive value :=
| VUndefined
| VNull
| VBool (b : bool)
| VNumber (z : Z)
| VString (s : jsstring).

Definition truthy (v : value) : bool :=
  match v with
  | VUndefined | VNull => false
  | VBool b => b
  | VNumber z => negb (Z.eqb z 0)
  | VString s => negb (str_eqb s [])
  end.

Definition is_string (v : value) : bool :=
  match v with VString _ => true | _ => false end.

Inductive exn :=
| SyntaxError
| TypeError
| Error (msg : jsstring).

(** The completion of a call: a returned value or a thrown exception. *)
Inductive outcome (A : Type) :=
| Returned (a : A)
| Thrown (e : exn).

Arguments Returned {A} a.
Arguments Thrown {A} e.

Definition bind {A B} (m : outcome A) (f : A -> outcome B) : outcome B :=
  match m with
  | Returned a => f a
  | Thrown e => Thrown e
  end.

(** [try { body } catch (error) { handler }] *)
Definition try_catch {A} (body : outcome A) (handler : exn -> outcome A)
  : outcome A :=
  match body with
  | Returned a => Returned a
  | Thrown e => handler e
  end.

(** [arr.reduce(f, init)]: an exception of the callback propagates. *)
Fixpoint reduce {A B} (f : A -> B -> outcome A) (arr : list B) (init : A)
  : outcome A :=
  match arr with
  | [] => Returned init
  | x :: arr' => bind (f init x) (reduce f arr')
  end.

End JS.

(* ================================================================== *)
(** * Regular expressions as backtracking matchers *)
(* ================================================================== *)

(** A pattern is written as a matcher anchored at the head of its input, in
    continuation-passing style: each construct takes the matcher of what
    follows it in the pattern and tries its own alternatives in the order
    the ECMA-262 backtracking semantics prescribes (greedy: longest first;
    lazy: shortest first).  Captures are handed to the continuation. *)
Module Regex.

Import JS.
Local Open Scope N_scope.

Section Matchers.

Variable R : Type.

(** What follows in the pattern: it receives the rest of the input. *)
Definition cont := jsstring -> option R.

(** A literal. *)
Definition lit (w : jsstring) (k : cont) : cont :=
  fun s => if startsWith s w then k (skipn (length w) s) else None.

(** A literal under the [i] flag. *)
Fixpoint lit_ci (w : jsstring) (k : cont) (s : jsstring) : option R :=
  match w with
  | [] => k s
  | p :: w' =>
      match s with
      | c :: s' => if char_eqb_ci c p then lit_ci w' k s' else None
      | [] => None
      end
  end.

(** One character of a class. *)
Definition one (p : char -> bool) (k : char -> cont) : cont :=
  fun s =>
    match s with
    | c :: s' => if p c then k c s' else None
    | [] => None
    end.

(** [p*], greedy: [acc] is what the star has matched so far. *)
Fixpoint star (p : char -> bool) (k : jsstring -> cont) (acc : jsstring)
  (s : jsstring) : option R :=
  match s with
  | c :: s' =>
      if p c then
        match star p k (acc ++ [c]) s' with
        | Some r => Some r
        | None => k acc s
        end
      else k acc s
  | [] => k acc []
  end.

(** [p+], greedy. *)
Definition plus (p : char -> bool) (k : jsstring -> cont) : cont :=
  fun s =>
    match s with
    | c :: s' => if p c then star p k [c] s' else None
    | [] => None
    end.

(** [p*?], lazy. *)
Fixpoint star_lazy (p : char -> bool) (k : jsstring -> cont)
  (acc : jsstring) (s : jsstring) : option R :=
  match k acc s with
  | Some r => Some r
  | None =>
      match s with
      | c :: s' => if p c then star_lazy p k (acc ++ [c]) s' else None
      | [] => None
      end
  end.

(** [c?], greedy, for a single character [c]; the continuation is told
    what was matched. *)
Definition opt (c : char) (k : jsstring -> cont) : cont :=
  fun s =>
    match s with
    | x :: s' =>
        if x =? c then
          match k [x] s' with
          | Some r => Some r
          | None => k [] s
          end
        else k [] s
    | [] => k [] []
    end.

(** [(w1|w2|...)] under the [i] flag: the alternatives in order; the
    continuation is told the text that was matched. *)
Fixpoint alt_ci (ws : list jsstring) (k : jsstring -> cont) (s : jsstring)
  : option R :=
  match ws with
  | [] => None
  | w :: ws' =>
      match lit_ci w (k (firstn (length w) s)) s with
      | Some r => Some r
      | None => alt_ci ws' k s
      end
  end.

(** [\b] after a word character: the next character is not one. *)
Definition word_end (k : cont) : cont :=
  fun s =>
    match s with
    | c :: _ => if is_word c then None else k s
    | [] => k []
    end.

(** The leftmost match of an anchored matcher: [str.search] / [exec]
    without the [g] flag.  The index of the match start is returned. *)
Fixpoint search (m : cont) (s : jsstring) : option (nat * R) :=
  match m s with
  | Some r => Some (O, r)
  | None =>
      match s with
      | [] => None
      | _ :: s' =>
          match search m s' with
          | Some (i, r) => Some (S i, r)
          | None => None
          end
      end
  end.

End Matchers.

(** [\s\S]: any character. *)
Definition any (_ : char) : bool := true.

(** [re.test(s)] *)
Definition test (m : cont unit) (s : jsstring) : bool :=
  match search m s with Some _ => true | None => false end.

(** The end of a successful match used for replacing: the replacement text
    and the input that remains after the match. *)
Definition done (replacement : jsstring) : cont (jsstring * jsstring) :=
  fun rest => Some (replacement, rest).

(** [s.replace(re, ...)] with the [g] flag, for a pattern that matches no
    empty string.  After a match the scan resumes where the match ended:
    [skip] counts the characters of the current match still to be passed
    over. *)
Fixpoint replace_from (m : cont (jsstring * jsstring)) (skip : nat)
  (s : jsstring) : jsstring :=
  match s with
  | [] => []
  | c :: s' =>
      match skip with
      | S n => replace_from m n s'
      | O =>
          match m s with
          | Some (replacement, rest) =>
              replacement ++ replace_from m (length s' - length rest) s'
          | None => c :: replace_from m O s'
          end
      end
  end.

Definition replace_all (m : cont (jsstring * jsstring)) (s : jsstring)
  : jsstring := replace_from m O s.

(** [s.replace(/[class]/g, '')] *)
Definition remove_all (p : char -> bool) (s : jsstring) : jsstring :=
  replace_all (one p (fun _ => done [])) s.

(** All the matches of a [g]-flagged pattern, as the loop
    [while ((m = re.exec(text)) !== null)] meets them: for each match the
    text between the previous match and this one, and the match's result;
    then the text after the last match.  [before] collects, reversed, the
    text since the previous match. *)
Fixpoint exec_from {R} (m : cont (R * jsstring)) (skip : nat)
  (before : jsstring) (s : jsstring) : list (jsstring * R) * jsstring :=
  match s with
  | [] => ([], rev before)
  | c :: s' =>
      match skip with
      | S n => exec_from m n before s'
      | O =>
          match m s with
          | Some (r, rest) =>
              let '(ms, tail) :=
                exec_from m (length s' - length rest) [] s' in
              ((rev before, r) :: ms, tail)
          | None => exec_from m O (c :: before) s'
          end
      end
  end.

Definition exec_all {R} (m : cont (R * jsstring)) (s : jsstring)
  : list (jsstring * R) * jsstring := exec_from m O [] s.

End Regex.

(* ================================================================== *)
(** * JSON.parse and JSON.stringify *)
(* ================================================================== *)

(** The platform's JSON object, after the grammar of ECMA-404 and the
    algorithms of ECMA-262 (sec. 25.5).  A number literal that is an integer
    of magnitude at most 2^53 is read as that integer, which is the double
    it denotes, and is printed in decimal, as [JSON.stringify] prints it.
    Any other number literal is kept by its lexeme, [Dec]: of the double
    that it is rounded to, this model only says whether it is zero
    ([rounds_to_zero]).  How such a double is printed is outside this
    model: [print_number] stands for [JSON.stringify] on the integers
    only, and what is stated of a printed value is stated of values whose
    numbers are integers. *)
Module JSON.

Import JS.
Local Open Scope N_scope.

Inductive number :=
| Int (z : Z)
| Dec (lexeme : jsstring).

(** A parsed value.  The fields of an object are its own properties in the
    order [JSON.stringify] enumerates them. *)
Inductive json :=
| JNull
| JBool (b : bool)
| JNumber (n : number)
| JString (s : jsstring)
| JArray (items : list json)
| JObject (fields : list (jsstring * json)).

Inductive token :=
| TLBrace | TRBrace | TLBracket | TRBracket | TColon | TComma
| TString (s : jsstring)
| TNumber (n : number)
| TTrue | TFalse | TNull.

(** JSON whitespace: tab, line feed, carriage return, space. *)
Definition json_ws (c : char) : bool :=
  (c =? 9) || (c =? 10) || (c =? 13) || (c =? 32).

Definition hex_val (c : char) : option N :=
  if is_digit c then Some (c - 48)
  else if (97 <=? c) && (c <=? 102) then Some (c - 87)
  else if (65 <=? c) && (c <=? 70) then Some (c - 55)
  else None.

Definition hex4 (a b c d : char) : option char :=
  match hex_val a, hex_val b, hex_val c, hex_val d with
  | Some x, Some y, Some z, Some w => Some (((x * 16 + y) * 16 + z) * 16 + w)
  | _, _, _, _ => None
  end.

(** The character an escape [\e] stands for ([u] apart). *)
Definition escape_char (e : char) : option char :=
  if e =? QUOTE then Some QUOTE
  else if e =? BACKSLASH then Some BACKSLASH
  else if e =? SLASH then Some SLASH
  else if e =? 98 then Some 8
  else if e =? 102 then Some 12
  else if e =? 110 then Some 10
  else if e =? 114 then Some 13
  else if e =? 116 then Some 9
  else None.

(** The rest of a string literal, after its opening quote: the string's
    value and the input after the closing quote. *)
Fixpoint lex_string (s : jsstring) (acc : jsstring)
  : option (jsstring * jsstring) :=
  match s with
  | [] => None
  | c :: r =>
      if c =? QUOTE then Some (acc, r)
      else if c =? BACKSLASH then
        match r with
        | [] => None
        | e :: r1 =>
            if e =? 117 then
              match r1 with
              | h1 :: h2 :: h3 :: h4 :: r2 =>
                  match hex4 h1 h2 h3 h4 with
                  | Some u => lex_string r2 (acc ++ [u])
                  | None => None
                  end
              | _ => None
              end
            else
              match escape_char e with
              | Some x => lex_string r1 (acc ++ [x])
              | None => None
              end
        end
      else if c <? 32 then None
      else lex_string r (acc ++ [c])
  end.

Fixpoint span (p : char -> bool) (s : jsstring) : jsstring * jsstring :=
  match s with
  | c :: r => if p c then let '(a, b) := span p r in (c :: a, b) else ([], s)
  | [] => ([], [])
  end.

Definition digits_value (ds : jsstring) : Z :=
  fold_left (fun z d => (10 * z + (Z.of_N d - 48))%Z) ds 0%Z.

(** A number literal: an optional minus sign; the integer part, a lone
    zero or a non-zero digit followed by digits; an optional fraction, a dot
    and one digit at least; an optional exponent, [e] or [E], an optional
    sign and one digit at least.  Each part returns what it consumed and
    the rest of the input. *)
Definition opt_sign (allowed : char -> bool) (s : jsstring)
  : jsstring * jsstring :=
  match s with
  | c :: r => if allowed c then ([c], r) else ([], s)
  | [] => ([], [])
  end.

Definition int_part (s : jsstring) : option (jsstring * jsstring) :=
  match s with
  | d :: r =>
      if d =? 48 then Some ([d], r)
      else if is_digit d then
        let '(ds, r') := span is_digit r in Some (d :: ds, r')
      else None
  | [] => None
  end.

Definition frac_part (s : jsstring) : option (jsstring * jsstring) :=
  match s with
  | c :: r =>
      if c =? 46 then
        match span is_digit r with
        | (d :: ds, r') => Some (c :: d :: ds, r')
        | ([], _) => None
        end
      else Some ([], s)
  | [] => Some ([], [])
  end.

Definition exp_part (s : jsstring) : option (jsstring * jsstring) :=
  match s with
  | c :: r =>
      if (c =? 101) || (c =? 69) then
        let '(sg, r1) := opt_sign (fun x => (x =? 43) || (x =? 45)) r in
        match span is_digit r1 with
        | (d :: ds, r') => Some (c :: sg ++ d :: ds, r')
        | ([], _) => None
        end
      else Some ([], s)
  | [] => Some ([], [])
  end.

Definition number_of (sign int fr ex : jsstring) : number :=
  let z := digits_value int in
  match fr, ex with
  | [], [] =>
      if (z <=? 9007199254740992)%Z
      then Int (match sign with [] => z | _ => - z end)%Z
      else Dec (sign ++ int)
  | _, _ => Dec (sign ++ int ++ fr ++ ex)
  end.

Definition lex_number (s : jsstring) : option (number * jsstring) :=
  let '(sign, s1) := opt_sign (fun c => c =? 45) s in
  match int_part s1 with
  | None => None
  | Some (int, s2) =>
      match frac_part s2 with
      | None => None
      | Some (fr, s3) =>
          match exp_part s3 with
          | None => None
          | Some (ex, s4) => Some (number_of sign int fr ex, s4)
          end
      end
  end.

(** The tokens of a text.  Each call works on a shorter text than the one
    before, so [S (length s)] units of fuel are enough. *)
Fixpoint lex (fuel : nat) (s : jsstring) : option (list token) :=
  match fuel with
  | O => None
  | S fuel' =>
      match s with
      | [] => Some []
      | c :: r =>
          if json_ws c then lex fuel' r
          else if c =? LBRACE then option_map (cons TLBrace) (lex fuel' r)
          else if c =? RBRACE then option_map (cons TRBrace) (lex fuel' r)
          else if c =? LBRACKET then option_map (cons TLBracket) (lex fuel' r)
          else if c =? RBRACKET then option_map (cons TRBracket) (lex fuel' r)
          else if c =? COLON then option_map (cons TColon) (lex fuel' r)
          else if c =? COMMA then option_map (cons TComma) (lex fuel' r)
          else if c =? QUOTE then
            match lex_string r [] with
            | Some (str, r') => option_map (cons (TString str)) (lex fuel' r')
            | None => None
            end
          else if (c =? 45) || is_digit c then
            match lex_number s with
            | Some (n, r') => option_map (cons (TNumber n)) (lex fuel' r')
            | None => None
            end
          else if startsWith s (js "true") then
            option_map (cons TTrue) (lex fuel' (skipn 4 s))
          else if startsWith s (js "false") then
            option_map (cons TFalse) (lex fuel' (skipn 5 s))
          else if startsWith s (js "null") then
            option_map (cons TNull) (lex fuel' (skipn 4 s))
          else None
      end
  end.

(** An array index: the canonical decimal form of an integer below
    2^32 - 1.  Such property keys are enumerated first, in numeric order. *)
Definition array_index (k : jsstring) : option Z :=
  match k with
  | [] => None
  | d :: ds =>
      if forallb is_digit k && (negb (d =? 48) || str_eqb ds [])
         && (length k <=? 10)%nat && (digits_value k <? 4294967295)%Z
      then Some (digits_value k)
      else None
  end.

(** [CreateDataProperty(obj, k, v)] on the properties in enumeration order:
    an existing key keeps its place and takes the new value; a new array
    index goes to its numeric place among the indices; any other new key
    goes last. *)
Fixpoint replace_field (k : jsstring) (v : json)
  (fields : list (jsstring * json)) : option (list (jsstring * json)) :=
  match fields with
  | [] => None
  | (k', v') :: fs =>
      if str_eqb k' k then Some ((k', v) :: fs)
      else option_map (cons (k', v')) (replace_field k v fs)
  end.

Fixpoint insert_index (i : Z) (k : jsstring) (v : json)
  (fields : list (jsstring * json)) : list (jsstring * json) :=
  match fields with
  | [] => [(k, v)]
  | (k', v') :: fs =>
      match array_index k' with
      | Some i' =>
          if (i' <? i)%Z then (k', v') :: insert_index i k v fs
          else (k, v) :: fields
      | None => (k, v) :: fields
      end
  end.

Definition define_property (fields : list (jsstring * json))
  (kv : jsstring * json) : list (jsstring * json) :=
  let '(k, v) := kv in
  match replace_field k v fields with
  | Some fields' => fields'
  | None =>
      match array_index k with
      | Some i => insert_index i k v fields
      | None => fields ++ [(k, v)]
      end
  end.

(** The grammar over tokens.  Every call of [parse_elements] and
    [parse_members] follows the consumption of a token, so twice the number
    of tokens (and two) is enough fuel. *)
Fixpoint parse_value (fuel : nat) (ts : list token)
  : option (json * list token) :=
  match fuel with
  | O => None
  | S fuel' =>
      match ts with
      | TNull :: r => Some (JNull, r)
      | TTrue :: r => Some (JBool true, r)
      | TFalse :: r => Some (JBool false, r)
      | TNumber n :: r => Some (JNumber n, r)
      | TString s :: r => Some (JString s, r)
      | TLBracket :: r =>
          match r with
          | TRBracket :: r' => Some (JArray [], r')
          | _ =>
              match parse_elements fuel' r with
              | Some (items, r') => Some (JArray items, r')
              | None => None
              end
          end
      | TLBrace :: r =>
          match r with
          | TRBrace :: r' => Some (JObject [], r')
          | _ =>
              match parse_members fuel' r with
              | Some (members, r') =>
                  Some (JObject (fold_left define_property members []), r')
              | None => None
              end
          end
      | _ => None
      end
  end
with parse_elements (fuel : nat) (ts : list token)
  : option (list json * list token) :=
  match fuel with
  | O => None
  | S fuel' =>
      match parse_value fuel' ts with
      | Some (v, TComma :: r) =>
          match parse_elements fuel' r with
          | Some (vs, r') => Some (v :: vs, r')
          | None => None
          end
      | Some (v, TRBracket :: r) => Some ([v], r)
      | _ => None
      end
  end
with parse_members (fuel : nat) (ts : list token)
  : option (list (jsstring * json) * list token) :=
  match fuel with
  | O => None
  | S fuel' =>
      match ts with
      | TString k :: TColon :: r =>
          match parse_value fuel' r with
          | Some (v, TComma :: r') =>
              match parse_members fuel' r' with
              | Some (ms, r'') => Some ((k, v) :: ms, r'')
              | None => None
              end
          | Some (v, TRBrace :: r') => Some ([(k, v)], r')
          | _ => None
          end
      | _ => None
      end
  end.

(** [JSON.parse(text)]: the value, or a [SyntaxError]. *)
Definition parse (text : jsstring) : outcome json :=
  match lex (S (length text)) text with
  | Some ts =>
      match parse_value (2 * length ts + 2) ts with
      | Some (v, []) => Returned v
      | _ => Thrown SyntaxError
      end
  | None => Thrown SyntaxError
  end.

Definition parses (text : jsstring) : bool :=
  match parse text with Returned _ => true | Thrown _ => false end.

Definition isArray (j : json) : bool :=
  match j with JArray _ => true | _ => false end.

(** [obj.name] for a parsed value: an own property of an object; none of
    the names looked up by this program is on a prototype. *)
Fixpoint lookup (k : jsstring) (fields : list (jsstring * json))
  : option json :=
  match fields with
  | [] => None
  | (k', v) :: fs => if str_eqb k' k then Some v else lookup k fs
  end.

Definition get (j : json) (name : jsstring) : option json :=
  match j with
  | JObject fields => lookup name fields
  | _ => None
  end.

(** The exponent that an exponent part denotes, 0 when there is none. *)
Definition exponent_of (ex : jsstring) : Z :=
  match ex with
  | [] => 0%Z
  | _ :: r =>
      let '(sg, ds) := opt_sign (fun x => (x =? 43) || (x =? 45)) r in
      match sg with
      | c :: _ => if c =? 45 then (- digits_value ds)%Z else digits_value ds
      | [] => digits_value ds
      end
  end.

(** Whether the double that a number literal is rounded to is zero.  With
    [m] the integer that the digits of the literal make and [e] its
    exponent less the number of digits of its fraction, the literal
    denotes [m * 10^e]: it is rounded to zero when [m] is zero, and when
    [m * 10^e] is at most [2^-1075], half of the least double above zero
    (a tie goes to zero, whose last bit is even).  Rounding is to the
    nearest double, as engines do for a literal of any length. *)
Definition rounds_to_zero (lexeme : jsstring) : bool :=
  let '(_, s1) := opt_sign (fun c => c =? 45) lexeme in
  match int_part s1 with
  | Some (int, s2) =>
      match frac_part s2 with
      | Some (fr, s3) =>
          match exp_part s3 with
          | Some (ex, _) =>
              let digits := skipn 1 fr in
              let m := digits_value (int ++ digits) in
              let e := (exponent_of ex - Z.of_nat (length digits))%Z in
              (m =? 0)%Z || ((e <? 0)%Z && (m * 2 ^ 1075 <=? 10 ^ (- e))%Z)
          | None => false
          end
      | None => false
      end
  | None => false
  end.

(** The truthiness of a parsed value: a number is falsy when it is zero,
    [0] and [-0] among the integers, and the literals that are rounded to
    zero among the others ([0.0], [-0.0], [0e0], [1e-400]). *)
Definition truthy (j : json) : bool :=
  match j with
  | JNull => false
  | JBool b => b
  | JNumber (Int z) => negb (Z.eqb z 0)
  | JNumber (Dec lexeme) => negb (rounds_to_zero lexeme)
  | JString s => negb (str_eqb s [])
  | JArray _ | JObject _ => true
  end.

(** ** Printing *)

Definition hex_digit (n : N) : char := if n <? 10 then 48 + n else 87 + n.

Definition unicode_escape (c : char) : jsstring :=
  [BACKSLASH; 117; hex_digit (c / 4096 mod 16); hex_digit (c / 256 mod 16);
   hex_digit (c / 16 mod 16); hex_digit (c mod 16)].

Definition is_high_surrogate (c : char) : bool :=
  (55296 <=? c) && (c <=? 56319).
Definition is_low_surrogate (c : char) : bool :=
  (56320 <=? c) && (c <=? 57343).

(** The body of [QuoteJSONString]; [after_high] tells that the previous
    code unit was a high surrogate that this one may complete. *)
Fixpoint quote_chars (after_high : bool) (s : jsstring) : jsstring :=
  match s with
  | [] => []
  | c :: r =>
      if c =? 8 then [BACKSLASH; 98] ++ quote_chars false r
      else if c =? 9 then [BACKSLASH; 116] ++ quote_chars false r
      else if c =? 10 then [BACKSLASH; 110] ++ quote_chars false r
      else if c =? 12 then [BACKSLASH; 102] ++ quote_chars false r
      else if c =? 13 then [BACKSLASH; 114] ++ quote_chars false r
      else if c =? QUOTE then [BACKSLASH; QUOTE] ++ quote_chars false r
      else if c =? BACKSLASH then
        [BACKSLASH; BACKSLASH] ++ quote_chars false r
      else if c <? 32 then unicode_escape c ++ quote_chars false r
      else if is_high_surrogate c then
        match r with
        | d :: _ =>
            if is_low_surrogate d then c :: quote_chars true r
            else unicode_escape c ++ quote_chars false r
        | [] => unicode_escape c
        end
      else if is_low_surrogate c then
        if after_high then c :: quote_chars false r
        else unicode_escape c ++ quote_chars false r
      else c :: quote_chars false r
  end.

Definition quote (s : jsstring) : jsstring :=
  [QUOTE] ++ quote_chars false s ++ [QUOTE].

(** The printed form of a number: an integer in decimal.  For a number
    kept by its lexeme the lexeme stands in the place of the printed
    form, which this model does not compute ([1.50] is printed [1.5] by
    [JSON.stringify]); the statements about printed values leave such
    numbers out ([Spans.only_integers]). *)
Definition print_number (n : number) : jsstring :=
  match n with
  | Int z => js (DecimalString.NilZero.string_of_int (Z.to_int z))
  | Dec lexeme => lexeme
  end.

Fixpoint join (sep : jsstring) (parts : list jsstring) : jsstring :=
  match parts with
  | [] => []
  | [p] => p
  | p :: ps => p ++ sep ++ join sep ps
  end.

Definition gap : jsstring := [32; 32].
Definition newline : jsstring := [10].

(** [SerializeJSONProperty] with a gap of two spaces, at the indentation
    [indent]. *)
Fixpoint serialize (indent : jsstring) (j : json) {struct j} : jsstring :=
  match j with
  | JNull => js "null"
  | JBool true => js "true"
  | JBool false => js "false"
  | JNumber n => print_number n
  | JString s => quote s
  | JArray [] => js "[]"
  | JArray items =>
      let inner := indent ++ gap in
      js "[" ++ newline ++ inner
      ++ join (js "," ++ newline ++ inner) (map (serialize inner) items)
      ++ newline ++ indent ++ js "]"
  | JObject [] => js "{}"
  | JObject fields =>
      let inner := indent ++ gap in
      js "{" ++ newline ++ inner
      ++ join (js "," ++ newline ++ inner)
           (map (fun kv => quote (fst kv) ++ js ": "
                           ++ serialize inner (snd kv)) fields)
      ++ newline ++ indent ++ js "}"
  end.

(** [JSON.stringify(value, null, 2)] *)
Definition stringify2 (j : json) : jsstring := serialize [] j.

End JSON.

(* ================================================================== *)
(** * lib/fixUnclosed.js *)
(* ================================================================== *)

Module FixUnclosed.

Import JS Regex.
Local Open Scope N_scope.

(** The zero-width class: U+200B to U+200D, and U+2060. *)
Definition is_zero_width (c : char) : bool :=
  ((8203 <=? c) && (c <=? 8205)) || (c =? 8288).

Definition is_bom (c : char) : bool := c =? BOM.

(** The two [replace] calls that delete every byte-order mark and every
    zero-width character. *)
Definition strip_invisible (s : jsstring) : jsstring :=
  remove_all is_zero_width (remove_all is_bom s).

Definition is_opener (c : char) : bool := (c =? LBRACE) || (c =? LBRACKET).
Definition is_closer (c : char) : bool := (c =? RBRACE) || (c =? RBRACKET).

(** [isLikelyJSON] *)
Definition isLikelyJSON (input : jsstring) : bool :=
  let s := trimStart input in
  match s with
  | [] => false
  | _ =>
      if startsWith s (js "{") || startsWith s (js "[") then true
      else if includes s (js ":{") || includes s (jq "':[")
              || includes s (jq "'type'") then true
      else false
  end.

(** [/,(\s*[}\]])/g], replaced by [$1]. *)
Definition trailing_comma_re : cont (jsstring * jsstring) :=
  lit [COMMA] (star is_ws (fun ws => one is_closer (fun c => done (ws ++ [c]))) []).

(** [stripTrailingCommas] *)
Definition stripTrailingCommas (text : jsstring) : jsstring :=
  replace_all trailing_comma_re text.

(** [/}\s*({|\[)/g] and [/]\s*({|\[)/g], replaced by ['},$1'] and
    ['],$1']. *)
Definition missing_comma_re (closer : char) : cont (jsstring * jsstring) :=
  lit [closer]
    (star is_ws (fun _ => one is_opener (fun c => done [closer; COMMA; c])) []).

(** [addMissingCommas] *)
Definition addMissingCommas (text : jsstring) : jsstring :=
  replace_all (missing_comma_re RBRACKET)
    (replace_all (missing_comma_re RBRACE) text).

(** The closer of an opener, as [unclosed === '{' ? '}' : ']'] computes
    it. *)
Definition closer_of (unclosed : char) : char :=
  if unclosed =? LBRACE then RBRACE else RBRACKET.

(** The variables of the repair scan.  The head of [stack] is the top of
    the source's array-as-stack; [lastNonWhitespaceChar] is [None] for the
    initial empty string. *)
Record scan_state := {
  stack : list char;
  inString : bool;
  escaped : bool;
  result : jsstring;
  lastNonWhitespaceChar : option char
}.

Definition scan_init : scan_state :=
  {| stack := []; inString := false; escaped := false; result := [];
     lastNonWhitespaceChar := None |}.

(** [while (stack.length > 0 && stack[stack.length - 1] !== need)]: every
    opener above the needed one is popped and its closer emitted. *)
Fixpoint close_mismatched (need : char) (stack : list char)
  (result : jsstring) (last : option char)
  : list char * jsstring * option char :=
  match stack with
  | [] => ([], result, last)
  | top :: below =>
      if negb (top =? need) then
        let closing := closer_of top in
        close_mismatched need below (result ++ [closing]) (Some closing)
      else (stack, result, last)
  end.

(** One turn of the scanning loop, on the character [ch]. *)
Definition scan_step (st : scan_state) (ch : char) : scan_state :=
  if inString st then
    {| stack := stack st;
       inString := if escaped st then true
                   else if ch =? BACKSLASH then true
                   else if ch =? QUOTE then false else true;
       escaped := if escaped st then false
                  else if ch =? BACKSLASH then true else false;
       result := result st ++ [ch];
       lastNonWhitespaceChar := lastNonWhitespaceChar st |}
  else if ch =? QUOTE then
    {| stack := stack st; inString := true; escaped := false;
       result := result st ++ [ch];
       lastNonWhitespaceChar := lastNonWhitespaceChar st |}
  else if is_opener ch then
    {| stack := ch :: stack st; inString := false; escaped := escaped st;
       result := result st ++ [ch];
       lastNonWhitespaceChar := Some ch |}
  else if is_closer ch then
    let need := if ch =? RBRACE then LBRACE else LBRACKET in
    let '(stack1, result1, _) :=
      close_mismatched need (stack st) (result st)
        (lastNonWhitespaceChar st) in
    let stack2 :=
      match stack1 with
      | top :: below => if top =? need then below else stack1
      | [] => []
      end in
    {| stack := stack2; inString := false; escaped := escaped st;
       result := result1 ++ [ch];
       lastNonWhitespaceChar := Some ch |}
  else
    {| stack := stack st; inString := false; escaped := escaped st;
       result := result st ++ [ch];
       lastNonWhitespaceChar :=
         if negb (is_ws ch) then Some ch else lastNonWhitespaceChar st |}.

Definition scan (text : jsstring) : scan_state :=
  fold_left scan_step text scan_init.

(** The text the scan reads: the input without byte-order marks and
    zero-width characters, after the comma pre-pass. *)
Definition scan_text (input : jsstring) : jsstring :=
  addMissingCommas (strip_invisible input).

(** What follows the scanning loop: the unclosed string is closed, a
    dangling comma removed, the openers left on the stack closed, and the
    trailing commas stripped. *)
Definition finish (st : scan_state) : jsstring :=
  let '(result1, last1) :=
    if inString st then (result st ++ [QUOTE], Some QUOTE)
    else (result st, lastNonWhitespaceChar st) in
  let result2 :=
    match last1 with
    | Some c =>
        if c =? COMMA then
          let r := trimEnd result1 in
          if endsWith r [COMMA] then dropLast r else r
        else result1
    | None => result1
    end in
  let result3 := result2 ++ map closer_of (stack st) in
  stripTrailingCommas result3.

(** [fixJSONStructure] *)
Definition fixJSONStructure (input : jsstring) : jsstring :=
  finish (scan (scan_text input)).

(** [fixJSON]: the text as it is when it parses, else the repaired text,
    after a second comma clean-up when the repair does not parse either. *)
Definition fixJSON (input : jsstring) : jsstring :=
  let raw := trim input in
  match raw with
  | [] => raw
  | _ =>
      match JSON.parse raw with
      | Returned _ => raw
      | Thrown _ =>
          let fixed := fixJSONStructure raw in
          match JSON.parse fixed with
          | Returned _ => fixed
          | Thrown _ => stripTrailingCommas fixed
          end
      end
  end.

(** ** XML / HTML *)

(** [DEFAULT_VOID_TAGS] *)
Definition DEFAULT_VOID_TAGS : list jsstring :=
  map js ["area"; "base"; "br"; "col"; "embed"; "hr"; "img"; "input";
          "link"; "meta"; "param"; "source"; "track"; "wbr";
          "mxgeometry"; "mxpoint"]%string.

(** What the inner [for] loop of [autoCloseAngleBrackets] finds after a
    ['<']: a ['>'] first, another ['<'] first, or neither.  [inside] is the
    text passed over; [rest] starts after the ['>'], or at the ['<']. *)
Inductive angle :=
| FoundGt (inside rest : jsstring)
| FoundNextLt (inside rest : jsstring)
| FoundNone.

Fixpoint scan_angle (s : jsstring) (inside : jsstring) : angle :=
  match s with
  | [] => FoundNone
  | ch :: r =>
      if ch =? GT then FoundGt inside r
      else if ch =? LT then FoundNextLt inside s
      else scan_angle r (inside ++ [ch])
  end.

Definition close_segment (segment : jsstring) : jsstring :=
  if endsWith segment [GT] then segment else segment ++ [GT].

(** The [while (i < len)] loop of [autoCloseAngleBrackets], on the text
    from [i] on.  Every turn that continues has passed a ['<'] at least:
    [None] is returned only when the fuel runs out. *)
Fixpoint autoClose_loop (fuel : nat) (s : jsstring) (out : jsstring)
  : option jsstring :=
  match fuel with
  | O => None
  | S fuel' =>
      match s with
      | [] => Some out
      | _ =>
          match indexOf s LT with
          | None => Some (out ++ s)
          | Some lt =>
              let out1 := out ++ firstn lt s in
              match scan_angle (skipn (S lt) s) [] with
              | FoundGt inside rest =>
                  autoClose_loop fuel' rest (out1 ++ [LT] ++ inside ++ [GT])
              | FoundNone => Some (out1 ++ close_segment (skipn lt s))
              | FoundNextLt inside rest =>
                  autoClose_loop fuel' rest
                    (out1 ++ close_segment (LT :: inside))
              end
          end
      end
  end.

(** [autoCloseAngleBrackets] *)
Definition autoCloseAngleBrackets (input : jsstring) : jsstring :=
  match autoClose_loop (S (length input)) input [] with
  | Some out => out
  | None => input
  end.

Inductive mode_t := Auto | Json | Xml.

(** The options object [{ mode, html, voidTags }]; [None] is an absent
    property. *)
Record options := {
  mode : option mode_t;
  html : option bool;
  voidTags : option (list jsstring)
}.

Definition no_options : options :=
  {| mode := None; html := None; voidTags := None |}.

(** [/<([^>]+)>/g]; the result is the capture. *)
Definition tagRe : cont (jsstring * jsstring) :=
  lit [LT] (plus (fun c => negb (c =? GT))
              (fun inner => lit [GT] (fun rest => Some (inner, rest)))).

(** [s.split(/\s+/)[0]]: the text before the first whitespace. *)
Fixpoint first_word (s : jsstring) : jsstring :=
  match s with
  | c :: r => if is_ws c then [] else c :: first_word r
  | [] => []
  end.

Definition has (set : list jsstring) (name : jsstring) : bool :=
  existsb (fun t => str_eqb t name) set.

(** The variables of the tag loop; the head of [tags] is the top of the
    stack. *)
Record tag_state := {
  tags : list jsstring;
  out : jsstring
}.

(** One turn of the [exec] loop of [fixXMLorHTML]: [before] is the text
    since the previous tag, [inner] the capture of the match.  [normalize]
    lower-cases a name with [toLowerCase], which is the method of the code
    on ASCII names ([Notions.ascii_names]). *)
Definition tag_step (treatAsHTML : bool) (voids : list jsstring)
  (st : tag_state) (m : jsstring * jsstring) : tag_state :=
  let normalize := fun name => if treatAsHTML then toLowerCase name else name in
  let '(before, inner) := m in
  let out0 := out st ++ before in
  let rawTag := trim inner in
  let copied := out0 ++ [LT] ++ rawTag ++ [GT] in
  if startsWith rawTag (js "!--") || startsWith rawTag (js "!DOCTYPE")
     || startsWith rawTag (js "![CDATA[") || startsWith rawTag (js "?")
  then {| tags := tags st; out := copied |}
  else if startsWith rawTag (js "/") then
    let name := normalize (first_word (skipn 1 rawTag)) in
    match tags st with
    | top :: below =>
        if str_eqb (normalize top) name
        then {| tags := below; out := copied |}
        else {| tags := tags st; out := copied |}
    | [] => {| tags := []; out := copied |}
    end
  else
    let selfClosing := endsWith rawTag (js "/") in
    let name := normalize (first_word rawTag) in
    if negb selfClosing && negb (has voids name)
    then {| tags := name :: tags st; out := copied |}
    else {| tags := tags st; out := copied |}.

(** [fixXMLorHTML] *)
Definition fixXMLorHTML (input : jsstring) (opts : options) : jsstring :=
  let voids :=
    match voidTags opts with Some v => v | None => DEFAULT_VOID_TAGS end in
  let treatAsHTML :=
    match html opts with Some false => false | _ => true end in
  let src := strip_invisible input in
  let text := autoCloseAngleBrackets src in
  let '(matches, tail) := exec_all tagRe text in
  let st :=
    fold_left (tag_step treatAsHTML voids) matches
      {| tags := []; out := [] |} in
  out st ++ tail
  ++ concat (map (fun name => js "</" ++ name ++ js ">") (tags st)).

(** [fixUnclosed] *)
Definition fixUnclosed (input : jsstring) (opts : options) : jsstring :=
  let m := match mode opts with Some m => m | None => Auto end in
  match m with
  | Json => fixJSON input
  | Auto =>
      if isLikelyJSON input then fixJSON input else fixXMLorHTML input opts
  | Xml => fixXMLorHTML input opts
  end.

End FixUnclosed.

(* ================================================================== *)
(** * The code-processing pipeline *)
(* ================================================================== *)

Module CodeProcessor.

Import JS Regex.
Local Open Scope N_scope.

(** A processing step: a function of one value that returns or throws. *)
Definition step := value -> outcome value.

(** [class CodeProcessor] *)
Record processor := { steps : list step }.

(** [process]: the [reduce] over the steps, each called inside
    [try]/[catch]; the handler logs to the console and returns
    [result]. *)
Definition process (p : processor) (code : value) : outcome value :=
  reduce
    (fun result (st : step) =>
       try_catch (st result) (fun error => Returned result))
    (steps p) code.

(** [addStep] *)
Definition addStep (p : processor) (st : step) : processor :=
  {| steps := steps p ++ [st] |}.

(** The guard [if (!code || typeof code !== 'string') return code;] that
    opens every step, followed by the step's body on the string. *)
Definition guarded (code : value) (body : jsstring -> outcome value)
  : outcome value :=
  if negb (truthy code) || negb (is_string code) then Returned code
  else
    match code with
    | VString s => body s
    | _ => Returned code
    end.

(** [cleanBOM] *)
Definition cleanBOM : step := fun code =>
  guarded code (fun s =>
    Returned (VString (trim (FixUnclosed.strip_invisible s)))).

Definition fence : jsstring := js "```".

(** The end of both fence patterns: the closing fence after the capture,
    and before it the lazy capture [([\s\S]*?)] that the [\s*] before it
    hands over to. *)
Definition closing_fence : jsstring -> cont jsstring :=
  fun payload => lit fence (fun _ => Some payload).

Definition lazy_payload : jsstring -> cont jsstring :=
  fun _ => star_lazy any closing_fence [].

(** The pattern built from [lang], under the [i] flag: the fence, [\s*],
    the tag, [\s*], the lazy capture and the closing fence.  The code
    splices the tag into the source of the pattern and hands it to
    [new RegExp]; here the tag is read as a literal.  That is what the
    pattern means for a tag of letters, digits and underscores (['xml'],
    ['json']), and for such a tag only: any other tag is pattern source,
    which [new RegExp] may reject with a [SyntaxError] (['c++'], ['('])
    or read as something else than itself (['a|b']).  Of the tags that
    are rejected this model knows those of [nothing_to_repeat]; what the
    code does with any other tag that is not of word characters is
    outside this model, and what is stated of a result of
    [extractCodeFence] with a tag is stated of tags of word characters
    ([Spans.literal_tag]). *)
Definition tagged_fence_re (lang : jsstring) : cont jsstring :=
  lit fence
    (star is_ws (fun _ => lit_ci lang (star is_ws lazy_payload [])) []).

(** The pattern of the fallback: the fence, [\s*], the lazy capture and the
    closing fence. *)
Definition any_fence_re : cont jsstring :=
  lit fence (star is_ws lazy_payload []).

(** [code.match(re)] followed by [if (match && match[1])]: the first
    capture of the first match, when there is a match and the capture is
    not empty. *)
Definition captured (re : cont jsstring) (code : jsstring)
  : option jsstring :=
  match search re code with
  | Some (_, c :: payload) => Some (c :: payload)
  | _ => None
  end.

(** The body of [extractCodeFence] on a string. *)
Definition fenced (code : jsstring) (lang : option jsstring) : jsstring :=
  let fallback :=
    match captured any_fence_re code with
    | Some payload => trim payload
    | None => trim code
    end in
  match lang with
  | Some (c :: l) =>
      match captured (tagged_fence_re (c :: l)) code with
      | Some payload => trim payload
      | None => fallback
      end
  | _ => fallback
  end.

(** Tags that [new RegExp] rejects: in the source
    [```\s*${lang}\s*([\s\S]*?)```] a tag of word characters and
    plus signs in which a plus sign has nothing to repeat, because it
    opens the tag, where it follows the quantifier of [\s*], or because
    it follows another plus sign (['c++']).  The constructor throws a
    [SyntaxError] on it. *)
Definition nothing_to_repeat (lang : jsstring) : bool :=
  forallb (fun c => is_word c || (c =? PLUS)) lang
  && (startsWith lang [PLUS] || includes lang [PLUS; PLUS]).

(** [extractCodeFence].  The pattern of the tag is built, outside any
    [try], when [lang] is truthy: what [new RegExp] throws reaches the
    caller. *)
Definition extractCodeFence (code : value) (lang : option jsstring)
  : outcome value :=
  guarded code (fun s =>
    match lang with
    | Some (c :: l) =>
        if nothing_to_repeat (c :: l) then Thrown SyntaxError
        else Returned (VString (fenced s lang))
    | _ => Returned (VString (fenced s lang))
    end).

(** [a-z!?] under the [i] flag. *)
Definition markup_start (c : char) : bool :=
  is_alpha c || (c =? BANG) || (c =? QMARK).

Definition replace_lit (w by_ : jsstring) (s : jsstring) : jsstring :=
  replace_all (lit w (done by_)) s.

(** The body of [unescapeHTML] on a string. *)
Definition unescaped (code : jsstring) : jsstring :=
  if negb (test (lit [LT] (one markup_start (fun _ _ => Some tt))) code)
     && test (lit (js "&lt;")
                (star is_ws (fun _ => one markup_start (fun _ _ => Some tt))
                   [])) code
  then
    replace_lit (js "&#39;") [APOS]
      (replace_lit (js "&quot;") [QUOTE]
         (replace_lit (js "&amp;") [AMP]
            (replace_lit (js "&gt;") [GT]
               (replace_lit (js "&lt;") [LT] code))))
  else code.

(** [unescapeHTML] *)
Definition unescapeHTML : step := fun code =>
  guarded code (fun s => Returned (VString (unescaped s))).

(** [/<(mxfile|mxGraphModel|diagram)([\s>])/i] *)
Definition root_tag_re : cont unit :=
  lit [LT]
    (alt_ci (map js ["mxfile"; "mxGraphModel"; "diagram"]%string)
       (fun _ => one (fun c => is_ws c || (c =? GT)) (fun _ _ => Some tt))).

(** The body of [extractXML] on a string. *)
Definition xml_block (code : jsstring) : jsstring :=
  match search root_tag_re code, lastIndexOf code GT with
  | Some (start, _), Some e =>
      if (start <? e)%nat then slice code start (e + 1) else code
  | _, _ => code
  end.

(** [extractXML] *)
Definition extractXML : step := fun code =>
  guarded code (fun s => Returned (VString (xml_block s))).

(** [mxTagMap] *)
Definition mxTagMap : list (jsstring * jsstring) :=
  [(js "mxgraphmodel", js "mxGraphModel"); (js "mxcell", js "mxCell");
   (js "mxgeometry", js "mxGeometry"); (js "mxpoint", js "mxPoint")].

Fixpoint table_get (k : jsstring) (t : list (jsstring * jsstring))
  : option jsstring :=
  match t with
  | [] => None
  | (k', v) :: t' => if str_eqb k' k then Some v else table_get k t'
  end.

(** [/(<\s*\/?)(mxgraphmodel|mxcell|mxgeometry|mxpoint)\b/gi] with its
    replacement function. *)
Definition mx_tag_re : cont (jsstring * jsstring) :=
  lit [LT]
    (star is_ws (fun ws =>
       opt SLASH (fun slash =>
         alt_ci (map fst mxTagMap) (fun tagName =>
           word_end
             (done
                (([LT] ++ ws ++ slash)
                 ++ match table_get (toLowerCase tagName) mxTagMap with
                    | Some canonical => canonical
                    | None => tagName
                    end))))) []).

(** [normalizeMxTags] *)
Definition normalizeMxTags : step := fun code =>
  guarded code (fun s => Returned (VString (replace_all mx_tag_re s))).

(** [fixXML] *)
Definition fixXML : step := fun code =>
  guarded code (fun s =>
    Returned (VString
      (FixUnclosed.fixUnclosed s
         {| FixUnclosed.mode := Some FixUnclosed.Xml;
            FixUnclosed.html := None; FixUnclosed.voidTags := None |}))).

(** [repairJSON] *)
Definition repairJSON : step := fun code =>
  guarded code (fun s => Returned (VString (FixUnclosed.fixJSON s))).

(** The body of [extractJSON] on a string. *)
Definition json_block (code : jsstring) : jsstring :=
  let objStart := indexOf code LBRACE in
  let objEnd := lastIndexOf code RBRACE in
  let arrStart := indexOf code LBRACKET in
  let arrEnd := lastIndexOf code RBRACKET in
  let object_block :=
    match objStart, objEnd with
    | Some os, Some oe => slice code os (oe + 1)
    | _, _ => code
    end in
  match arrStart, arrEnd with
  | Some a, Some e =>
      if match objStart with None => true | Some o => (a <? o)%nat end
      then slice code a (e + 1)
      else object_block
  | _, _ => object_block
  end.

(** [extractJSON] *)
Definition extractJSON : step := fun code =>
  guarded code (fun s => Returned (VString (json_block s))).

(** The [for] loop of [extractJSONArrayStrict] from index [i] on, [s] being
    the text from [i]: the slice returned from inside the loop, or [None]
    when the loop runs to its end. *)
Fixpoint strict_scan (text s : jsstring) (i : nat) (start : option nat)
  (depth : nat) (inString escaped : bool) : option jsstring :=
  match s with
  | [] => None
  | ch :: s' =>
      if inString then
        if escaped then strict_scan text s' (S i) start depth true false
        else if ch =? BACKSLASH then
          strict_scan text s' (S i) start depth true true
        else if ch =? QUOTE then
          strict_scan text s' (S i) start depth false escaped
        else strict_scan text s' (S i) start depth true escaped
      else if ch =? QUOTE then
        strict_scan text s' (S i) start depth true false
      else if ch =? LBRACKET then
        let start' := match start with None => Some i | Some _ => start end in
        strict_scan text s' (S i) start' (S depth) false escaped
      else if ch =? RBRACKET then
        match depth with
        | S d =>
            match d, start with
            | O, Some b => Some (slice text b (i + 1))
            | _, _ => strict_scan text s' (S i) start d false escaped
            end
        | O => strict_scan text s' (S i) start depth false escaped
        end
      else strict_scan text s' (S i) start depth false escaped
  end.

(** The body of [extractJSONArrayStrict] on a string. *)
Definition array_block (code : jsstring) : jsstring :=
  match strict_scan code code O None O false false with
  | Some block => block
  | None => json_block code
  end.

(** [extractJSONArrayStrict] *)
Definition extractJSONArrayStrict : step := fun code =>
  guarded code (fun s => Returned (VString (array_block s))).

(** Modelled from the spec: [optimizeExcalidrawCode] of optimizeArrows.js,
    which is not among the sources.  The spec gives it as "a single
    external function accepting already-valid array-of-elements JSON text
    and returning text of the same shape", and says nothing of what it
    does with another text: it is taken as any function that, called on a
    text, returns a value or throws.  [None] stands for an import that is
    not available. *)
Definition arrow_hook := option (jsstring -> outcome value).

(** [optimizeArrows]: the call of the optimizer is in no [try]. *)
Definition optimizeArrows (optimizeExcalidrawCode : arrow_hook) : step :=
  fun code =>
    guarded code (fun s =>
      match optimizeExcalidrawCode with
      | Some f => f s
      | None => Returned (VString s)
      end).

(** [/\[[\s\S]*\]/]; the result is the whole match. *)
Definition inner_array_re : cont jsstring :=
  lit [LBRACKET]
    (star any (fun body =>
       lit [RBRACKET] (fun _ => Some ([LBRACKET] ++ body ++ [RBRACKET])))
       []).

(** [JSON.parse(text)] followed by [if (Array.isArray(arr)) return
    JSON.stringify(arr, null, 2)], inside [try]/[catch] with an empty
    handler: the text returned, if any. *)
Definition parsed_array (text : jsstring) : option jsstring :=
  match JSON.parse text with
  | Returned arr =>
      if JSON.isArray arr then Some (JSON.stringify2 arr) else None
  | Thrown _ => None
  end.

(** The body of [ensureExcalidrawArray] on a string. *)
Definition excalidraw_array (code : jsstring) : jsstring :=
  let trimmed := trim code in
  match trimmed with
  | [] => trimmed
  | first :: _ =>
      if (first =? LBRACKET) && (last trimmed 0 =? RBRACKET) then
        match JSON.parse trimmed with
        | Returned data =>
            if JSON.isArray data then JSON.stringify2 data else trimmed
        | Thrown _ => trimmed
        end
      else
        match JSON.parse trimmed with
        | Returned data =>
            if JSON.isArray data then JSON.stringify2 data
            else
              match JSON.truthy data, JSON.get data (js "elements") with
              | true, Some (JSON.JArray els) =>
                  JSON.stringify2 (JSON.JArray els)
              | _, _ =>
                  match JSON.truthy data, JSON.get data (js "items") with
                  | true, Some (JSON.JArray items) =>
                      JSON.stringify2 (JSON.JArray items)
                  | _, _ => JSON.stringify2 (JSON.JArray [data])
                  end
              end
        | Thrown _ =>
            let withBrackets := [LBRACKET] ++ trimmed ++ [RBRACKET] in
            match parsed_array withBrackets with
            | Some text => text
            | None =>
                match
                  match search inner_array_re trimmed with
                  | Some (_, inner) => parsed_array inner
                  | None => None
                  end
                with
                | Some text => text
                | None => trimmed
                end
            end
        end
  end.

(** [ensureExcalidrawArray] *)
Definition ensureExcalidrawArray : step := fun code =>
  guarded code (fun s => Returned (VString (excalidraw_array s))).

(** [drawioProcessor] *)
Definition drawioProcessor : processor :=
  {| steps :=
       [cleanBOM; (fun code => extractCodeFence code (Some (js "xml")));
        unescapeHTML; extractXML; normalizeMxTags; fixXML] |}.

(** [excalidrawProcessor] *)
Definition excalidrawProcessor (hook : arrow_hook) : processor :=
  {| steps :=
       [cleanBOM; (fun code => extractCodeFence code (Some (js "json")));
        extractJSONArrayStrict; repairJSON; optimizeArrows hook;
        ensureExcalidrawArray] |}.

(** [createProcessor] *)
Definition createProcessor (sts : list step) : processor :=
  {| steps := sts |}.

(** [createXMLProcessor] *)
Definition createXMLProcessor (customSteps : list step) : processor :=
  {| steps :=
       [cleanBOM; (fun code => extractCodeFence code (Some (js "xml")));
        unescapeHTML; extractXML; normalizeMxTags]
       ++ customSteps ++ [fixXML] |}.

(** [createJSONProcessor] *)
Definition createJSONProcessor (customSteps : list step) : processor :=
  {| steps :=
       [cleanBOM; (fun code => extractCodeFence code (Some (js "json")));
        extractJSON] ++ customSteps ++ [repairJSON] |}.

End CodeProcessor.

(* ================================================================== *)
(** * String-literal spans *)
(* ================================================================== *)

(** The vocabulary of the properties: where a left-to-right reading of a
    text stands with respect to its string literals, with the quote and
    backslash conventions of the scans above. *)
Module Spans.

Import JS.
Local Open Scope N_scope.

Inductive lit_state := Outside | Inside | Escaping.

Definition lit_step (p : lit_state) (c : char) : lit_state :=
  match p with
  | Outside => if c =? QUOTE then Inside else Outside
  | Inside =>
      if c =? BACKSLASH then Escaping
      else if c =? QUOTE then Outside else Inside
  | Escaping => Inside
  end.

Definition lit_run (p : lit_state) (s : jsstring) : lit_state :=
  fold_left lit_step s p.

Definition is_outside (p : lit_state) : bool :=
  match p with Outside => true | _ => false end.

(** The occurrences of [c] in [s] that lie outside string literals, the
    reading of [s] starting in state [p]. *)
Fixpoint count_from (p : lit_state) (c : char) (s : jsstring) : nat :=
  match s with
  | [] => O
  | x :: s' =>
      ((if is_outside p && N.eqb x c then 1 else 0)
       + count_from (lit_step p x) c s')%nat
  end.

Definition count_outside (c : char) (s : jsstring) : nat :=
  count_from Outside c s.

(** The contents of the string literals of [s], in order; a literal that
    the text leaves open is given up to the end of the text.  [cur] is the
    content read so far of the literal the reading is in. *)
Fixpoint literals_from (p : lit_state) (cur : jsstring) (s : jsstring)
  : list jsstring :=
  match s with
  | [] => match p with Outside => [] | _ => [cur] end
  | x :: s' =>
      match p, lit_step p x with
      | Outside, _ => literals_from (lit_step p x) [] s'
      | _, Outside => cur :: literals_from Outside [] s'
      | _, q => literals_from q (cur ++ [x]) s'
      end
  end.

Definition literals (s : jsstring) : list jsstring :=
  literals_from Outside [] s.

(** All the prefixes of a text, the empty one and the text itself
    included. *)
Fixpoint prefixes (s : jsstring) : list jsstring :=
  [] :: match s with
        | [] => []
        | c :: s' => map (cons c) (prefixes s')
        end.

(** A complete top-level array: an opening bracket, a body that ends
    outside any string literal and in which the brackets outside string
    literals are balanced with no prefix closing more than it opens, and
    the closing bracket. *)
Definition complete_array (arr : jsstring) : bool :=
  match arr with
  | first :: rest =>
      match rev rest with
      | final :: rbody =>
          let body := rev rbody in
          (first =? LBRACKET) && (final =? RBRACKET)
          && is_outside (lit_run Outside body)
          && forallb (fun p => (count_outside RBRACKET p
                                <=? count_outside LBRACKET p)%nat)
               (prefixes body)
          && (count_outside LBRACKET body =? count_outside RBRACKET body)%nat
      | [] => false
      end
  | [] => false
  end.

Fixpoint takeWhile {A} (f : A -> bool) (l : list A) : list A :=
  match l with
  | x :: l' => if f x then x :: takeWhile f l' else []
  | [] => []
  end.

Fixpoint dropWhile {A} (f : A -> bool) (l : list A) : list A :=
  match l with
  | x :: l' => if f x then dropWhile f l' else l
  | [] => []
  end.

(** A value that is not a non-empty string: what the guard of every step
    returns as it is. *)
Definition no_text (v : value) : Prop :=
  match v with
  | VString (_ :: _) => False
  | _ => True
  end.

(** The case in which [extractJSON] takes the array: an opening bracket
    first met at [a], a closing bracket last met at [e], and no opening
    brace before [a]. *)
Definition array_first (code : jsstring) (a e : nat) : Prop :=
  indexOf code LBRACKET = Some a
  /\ lastIndexOf code RBRACKET = Some e
  /\ match indexOf code LBRACE with
     | None => True
     | Some o => (a < o)%nat
     end.

(** The strings that differ by the case of their ASCII letters only. *)
Definition ci_equal (a b : jsstring) : Prop :=
  Forall2 (fun x y => char_eqb_ci x y = true) a b.

(** The flags of the scans in a reading state, and the state of given
    flags. *)
Definition in_of (p : lit_state) : bool :=
  match p with Outside => false | _ => true end.
Definition esc_of (p : lit_state) : bool :=
  match p with Escaping => true | _ => false end.
Definition pos_of (inString escaped : bool) : lit_state :=
  if inString then if escaped then Escaping else Inside else Outside.

(** The openers of a delimiter stack whose closer is [k]. *)
Definition closers (k : char) (stk : list char) : nat :=
  length (filter (fun o => FixUnclosed.closer_of o =? k) stk).

(** A stray closer: a closer that the repair scan meets outside any string
    literal when no opener of its kind is left on the stack; the scan
    copies it.  [strays k text] counts the stray closers [k] of a scan of
    [text]. *)
Definition stray (st : FixUnclosed.scan_state) (ch : char) : bool :=
  negb (FixUnclosed.inString st) && FixUnclosed.is_closer ch
  && match
       dropWhile
         (fun o => negb (o =? (if ch =? RBRACE then LBRACE else LBRACKET)))
         (FixUnclosed.stack st)
     with
     | [] => true
     | _ :: _ => false
     end.

Definition stray_count (k : char) (st : FixUnclosed.scan_state) (ch : char)
  : nat :=
  if stray st ch && (ch =? k) then 1%nat else 0%nat.

Fixpoint strays_from (k : char) (st : FixUnclosed.scan_state)
  (text : jsstring) : nat :=
  match text with
  | [] => O
  | ch :: text' =>
      (stray_count k st ch
       + strays_from k (FixUnclosed.scan_step st ch) text')%nat
  end.

Definition strays (k : char) (text : jsstring) : nat :=
  strays_from k FixUnclosed.scan_init text.

(** What the repair scan maintains: the text built so far leaves its
    reader where the scan's flags say, and its closers outside string
    literals, with those that the stack still owes, are its openers and
    the stray closers met so far ([sb] braces, [sk] brackets). *)
Record scan_inv (st : FixUnclosed.scan_state) (sb sk : nat) : Prop := {
  inv_pos :
    lit_run Outside (FixUnclosed.result st)
    = pos_of (FixUnclosed.inString st) (FixUnclosed.escaped st);
  inv_brace :
    (count_outside LBRACE (FixUnclosed.result st) + sb
     = count_outside RBRACE (FixUnclosed.result st)
       + closers RBRACE (FixUnclosed.stack st))%nat;
  inv_bracket :
    (count_outside LBRACKET (FixUnclosed.result st) + sk
     = count_outside RBRACKET (FixUnclosed.result st)
       + closers RBRACKET (FixUnclosed.stack st))%nat
}.

(** [comma_free s t]: [t] is [s] without some of its commas, each of them
    followed in [s] by a character that is neither a quote nor a
    backslash. *)
Inductive comma_free : jsstring -> jsstring -> Prop :=
| cf_nil : comma_free [] []
| cf_keep c s t : comma_free s t -> comma_free (c :: s) (c :: t)
| cf_drop c s t :
    (c =? QUOTE) = false -> (c =? BACKSLASH) = false ->
    comma_free (c :: s) t -> comma_free (COMMA :: c :: s) t.

(** A character that neither opens nor closes anything, and the four
    delimiters. *)
Definition plain (x : char) : Prop :=
  (x =? QUOTE) = false /\ (x =? BACKSLASH) = false
  /\ FixUnclosed.is_opener x = false /\ FixUnclosed.is_closer x = false.

Definition bracket (c : char) : Prop :=
  c = LBRACE \/ c = RBRACE \/ c = LBRACKET \/ c = RBRACKET.

(** The characters of a number literal. *)
Definition num_char (c : char) : bool :=
  is_digit c || (c =? 43) || (c =? 45) || (c =? 46) || (c =? 69) || (c =? 101).

(** The counts of a token among tokens. *)
Definition is_tok (c : char) (t : JSON.token) : bool :=
  match t with
  | JSON.TLBrace => c =? LBRACE
  | JSON.TRBrace => c =? RBRACE
  | JSON.TLBracket => c =? LBRACKET
  | JSON.TRBracket => c =? RBRACKET
  | _ => false
  end.

Definition tok_count (c : char) (ts : list JSON.token) : nat :=
  length (filter (is_tok c) ts).

(** [consumed ts r b k]: the tokens read from [ts] down to [r] close [b]
    braces and [k] brackets more than they open. *)
Definition consumed (ts r : list JSON.token) (b k : nat) : Prop :=
  (tok_count RBRACE ts + tok_count LBRACE r
   = tok_count LBRACE ts + tok_count RBRACE r + b)%nat
  /\ (tok_count RBRACKET ts + tok_count LBRACKET r
      = tok_count LBRACKET ts + tok_count RBRACKET r + k)%nat.

(** A step that maps text to text: called on a string, it throws or
    returns a string. *)
Definition text_step (st : CodeProcessor.step) : Prop :=
  forall s,
    match st (VString s) with
    | Returned (VString _) | Thrown _ => True
    | Returned _ => False
    end.

(** The boundary contract of a step: a value that is not a non-empty
    string is returned as it is, and on every string the step returns a
    string. *)
Definition boundary_contract (st : CodeProcessor.step) : Prop :=
  (forall v, no_text v -> st v = Returned v)
  /\ (forall s, exists s', st (VString s) = Returned (VString s')).

(** The language arguments of [extractCodeFence] that this model reads as
    the code does: none, or a tag of letters, digits and underscores,
    which as a pattern matches itself and nothing else, up to the case of
    its letters. *)
Definition literal_tag (lang : option jsstring) : Prop :=
  match lang with
  | Some tag => forallb is_word tag = true
  | None => True
  end.

(** An optimizer that keeps the contract of a step where [optimizeArrows]
    calls it: on every string that is not empty it returns a string. *)
Definition returns_text (hook : CodeProcessor.arrow_hook) : Prop :=
  match hook with
  | Some optimize =>
      forall c s, exists s', optimize (c :: s) = Returned (VString s')
  | None => True
  end.

(** A parsed value whose numbers are all integers of magnitude at most
    2^53: the values that this model prints as [JSON.stringify] does. *)
Fixpoint only_integers (j : JSON.json) : bool :=
  match j with
  | JSON.JNumber (JSON.Dec _) => false
  | JSON.JArray items => forallb only_integers items
  | JSON.JObject fields => forallb (fun kv => only_integers (snd kv)) fields
  | _ => true
  end.

End Spans.

(* ================================================================== *)
(** * The configuration route *)
(* ================================================================== *)

(** [POST /api/llm/config]: the route that hands the server-side model
    configuration to a caller that knows the access password.  Nothing in
    the body of its [try] throws, so its [catch] is never entered. *)
Module ConfigRoute.

Import JS.
Local Open Scope N_scope.

(** The variables of [process.env] that the route reads; a variable that
    is not set is [None]. *)
Record env := {
  ACCESS_PASSWORD : option jsstring;
  SERVER_LLM_TYPE : option jsstring;
  SERVER_LLM_BASE_URL : option jsstring;
  SERVER_LLM_API_KEY : option jsstring;
  SERVER_LLM_MODEL : option jsstring
}.

(** The object [{ type, baseUrl, apiKey, model }]; [None] is
    [undefined]. *)
Record llm_config := {
  type : option jsstring;
  baseUrl : option jsstring;
  apiKey : option jsstring;
  model : option jsstring
}.

(** The body given to [NextResponse.json]: [{ success: false, error }] or
    [{ success: true, config }]. *)
Inductive body :=
| Failure (error : jsstring)
| Success (config : llm_config).

Record response := {
  json : body;
  status : nat
}.

(** The truthiness of a string or [undefined] / [null]. *)
Definition set (v : option jsstring) : bool :=
  match v with
  | Some (_ :: _) => true
  | _ => false
  end.

(** [a !== b] on values that are strings, [undefined] or [null]. *)
Definition differs (a b : option jsstring) : bool :=
  match a, b with
  | Some x, Some y => negb (str_eqb x y)
  | None, None => false
  | _, _ => true
  end.

(** The error messages, as UTF-16 code units: "the server has no access
    password configured", "wrong access password", "incomplete LLM
    configuration". *)
Definition no_password_configured : jsstring :=
  [26381; 21153; 22120; 26410; 37197; 32622; 35775; 38382; 23494; 30721].
Definition wrong_password : jsstring :=
  [35775; 38382; 23494; 30721; 38169; 35823].
Definition incomplete_config : jsstring :=
  [76; 76; 77; 37197; 32622; 19981; 23436; 25972].

(** [POST]: [accessPassword] is what
    [request.headers.get('x-access-password')] returns, [None] for
    [null]. *)
Definition POST (e : env) (accessPassword : option jsstring) : response :=
  let envPassword := ACCESS_PASSWORD e in
  if negb (set envPassword) then
    {| json := Failure no_password_configured; status := 400 |}
  else if negb (set accessPassword) || differs accessPassword envPassword then
    {| json := Failure wrong_password; status := 401 |}
  else
    let config :=
      {| type := SERVER_LLM_TYPE e;
         baseUrl := SERVER_LLM_BASE_URL e;
         apiKey := SERVER_LLM_API_KEY e;
         model := SERVER_LLM_MODEL e |} in
    if negb (set (type config)) || negb (set (apiKey config)) then
      {| json := Failure incomplete_config; status := 500 |}
    else {| json := Success config; status := 200 |}.

End ConfigRoute.

(* ================================================================== *)
(** * The shared engine logic *)
(* ================================================================== *)

(** hooks/useEngineShared.js: the messages sent to the model, and the
    reading of the streamed answer. *)
Module EngineShared.

Import JS.
Local Open Scope N_scope.

(** A part of a multimodal content: [{ type: 'text', text }] or
    [{ type: 'image_url', image_url: { url } }]. *)
Inductive part :=
| TextPart (text : jsstring)
| ImageUrlPart (url : jsstring).

(** The [content] of a message: a primitive value (a string for a plain
    message) or an array of parts. *)
Inductive content :=
| Plain (v : value)
| Parts (ps : list part).

Record message := {
  role : value;
  content_of : content
}.

(** [typeof m.content === 'string'] *)
Definition is_text (c : content) : bool :=
  match c with
  | Plain (VString _) => true
  | _ => false
  end.

(** [['user', 'assistant'].includes(m.role)] *)
Definition is_dialogue_role (r : value) : bool :=
  match r with
  | VString s => str_eqb s (js "user") || str_eqb s (js "assistant")
  | _ => false
  end.

(** [arr.slice(start)] for an integer [start]: a negative [start] counts
    from the end. *)
Definition slice_from {A} (start : Z) (arr : list A) : list A :=
  let len := Z.of_nat (length arr) in
  let k := if (start <? 0)%Z then Z.max (len + start) 0 else Z.min start len in
  skipn (Z.to_nat k) arr.

(** [buildFullMessages]: [historyLimit] is [None] when the argument is
    left out, and then 3. *)
Definition buildFullMessages (systemMessage userMessage : message)
  (currentMessages : list message) (historyLimit : option Z)
  : list message :=
  let limit := match historyLimit with Some n => n | None => 3%Z end in
  let history :=
    slice_from (- limit)
      (filter (fun m => is_dialogue_role (role m) && is_text (content_of m))
         currentMessages) in
  [systemMessage] ++ history ++ [userMessage].

(** ** The streamed answer *)

(** [s.split(sep)] for a separator string that is not empty: the text
    between the occurrences of the separator, found from left to right
    without overlap.  [skip] counts the characters of the separator still
    to be passed over, [cur] holds, reversed, the piece being read. *)
Fixpoint split_from (sep : jsstring) (skip : nat) (cur : jsstring)
  (s : jsstring) : list jsstring :=
  match s with
  | [] => [rev cur]
  | c :: s' =>
      match skip with
      | S n => split_from sep n cur s'
      | O =>
          if startsWith s sep
          then rev cur :: split_from sep (length sep - 1) [] s'
          else split_from sep O (c :: cur) s'
      end
  end.

Definition split (s sep : jsstring) : list jsstring := split_from sep O [] s.

(** The variables of [processSSEStream], and the texts that [onChunk] has
    been called with, in order. *)
Record sse_state := {
  accumulatedCode : jsstring;
  calls : list jsstring
}.

(** The error thrown from the [catch] of the event loop,
    [new Error(prefix + e.message)]: it is represented by its cause, the
    text that [JSON.parse] rejected or the [error] of the event. *)
Inductive sse_failure :=
| NotJSON (jsonStr : jsstring)
| ServerError (error : JSON.json).

Inductive sse_result :=
| Streaming (st : sse_state)
| Failed (cause : sse_failure) (st : sse_state).

(** The body of the loop [for (const evt of events)]. *)
Definition on_event (onChunk : bool) (st : sse_state) (evt : jsstring)
  : sse_result :=
  if negb (startsWith evt (js "data: ")) then Streaming st
  else
    let jsonStr := skipn 6 evt in
    if str_eqb jsonStr (js "[DONE]") then Streaming st
    else
      match JSON.parse jsonStr with
      | Thrown _ => Failed (NotJSON jsonStr) st
      | Returned data =>
          match
            match JSON.get data (js "error") with
            | Some err => if JSON.truthy err then Some err else None
            | None => None
            end
          with
          | Some err => Failed (ServerError err) st
          | None =>
              match JSON.get data (js "content") with
              | Some (JSON.JString text) =>
                  let acc := accumulatedCode st ++ text in
                  Streaming
                    {| accumulatedCode := acc;
                       calls := if onChunk then calls st ++ [acc]
                                else calls st |}
              | _ => Streaming st
              end
          end
      end.

Fixpoint on_events (onChunk : bool) (st : sse_state) (events : list jsstring)
  : sse_result :=
  match events with
  | [] => Streaming st
  | evt :: events' =>
      match on_event onChunk st evt with
      | Streaming st' => on_events onChunk st' events'
      | Failed cause st' => Failed cause st'
      end
  end.

(** The [while (true)] loop over the chunks that the reader yields, each
    already decoded; [buffer] is the text not yet cut into events. *)
Fixpoint read_loop (onChunk : bool) (st : sse_state) (buffer : jsstring)
  (chunks : list jsstring) : sse_result :=
  match chunks with
  | [] => Streaming st
  | chunk :: chunks' =>
      let pieces := split (buffer ++ chunk) [10; 10] in
      let events := removelast pieces in
      match on_events onChunk st events with
      | Streaming st' => read_loop onChunk st' (last pieces []) chunks'
      | Failed cause st' => Failed cause st'
      end
  end.

(** [processSSEStream]: [chunks] are the decoded texts of the successive
    reads, [onChunk] tells whether a callback was given. *)
Definition processSSEStream (chunks : list jsstring) (onChunk : bool)
  : sse_result :=
  read_loop onChunk {| accumulatedCode := []; calls := [] |} [] chunks.

(** The pieces with [p] put before the first of them. *)
Definition prepend (p : jsstring) (pieces : list jsstring) : list jsstring :=
  match pieces with
  | h :: t => (p ++ h) :: t
  | [] => []
  end.

(** The events handled after a result; a failure stays as it is. *)
Definition then_events (onChunk : bool) (r : sse_result)
  (events : list jsstring) : sse_result :=
  match r with
  | Streaming st => on_events onChunk st events
  | Failed cause st => Failed cause st
  end.

End EngineShared.

(* ================================================================== *)
(** * The configuration manager *)
(* ================================================================== *)

(** lib/config-manager.js, [class ConfigManager]: the methods that read
    and change the list of configurations once it has been loaded
    ([isLoaded] is true, so [ensureLoaded] does nothing), in a browser
    ([window] is defined).  A configuration is an object whose properties
    hold primitive values.  The identifier and the time that
    [generateId()] and [new Date().toISOString()] return are given to the
    methods that ask for them.  [localStorage] is taken to accept what is
    written to it. *)
Module ConfigManager.

Import JS.
Local Open Scope N_scope.

(** An object: its own enumerable properties in the order they are
    enumerated. *)
Definition obj := list (jsstring * value).

Fixpoint lookup (k : jsstring) (o : obj) : option value :=
  match o with
  | [] => None
  | (k', v) :: o' => if str_eqb k' k then Some v else lookup k o'
  end.

(** [o.k], for a name that no prototype defines. *)
Definition get (o : obj) (k : jsstring) : value :=
  match lookup k o with
  | Some v => v
  | None => VUndefined
  end.

(** [CreateDataProperty(o, k, v)] on the properties in enumeration order:
    an existing key keeps its place; a new array index goes to its numeric
    place among the indices; any other new key goes last. *)
Fixpoint replace_prop (k : jsstring) (v : value) (o : obj) : option obj :=
  match o with
  | [] => None
  | (k', v') :: o' =>
      if str_eqb k' k then Some ((k', v) :: o')
      else option_map (cons (k', v')) (replace_prop k v o')
  end.

Fixpoint insert_index (i : Z) (k : jsstring) (v : value) (o : obj) : obj :=
  match o with
  | [] => [(k, v)]
  | (k', v') :: o' =>
      match JSON.array_index k' with
      | Some i' =>
          if (i' <? i)%Z then (k', v') :: insert_index i k v o'
          else (k, v) :: o
      | None => (k, v) :: o
      end
  end.

Definition define (o : obj) (kv : jsstring * value) : obj :=
  let '(k, v) := kv in
  match replace_prop k v o with
  | Some o' => o'
  | None =>
      match JSON.array_index k with
      | Some i => insert_index i k v o
      | None => o ++ [(k, v)]
      end
  end.

(** An object literal: its properties and spreads, from left to right. *)
Definition literal (props : list (jsstring * value)) : obj :=
  fold_left define props [].

(** [a || b] *)
Definition or_else (a b : value) : value := if truthy a then a else b.

(** [a === b] on primitive values. *)
Definition strict_eq (a b : value) : bool :=
  match a, b with
  | VUndefined, VUndefined => true
  | VNull, VNull => true
  | VBool x, VBool y => Bool.eqb x y
  | VNumber x, VNumber y => Z.eqb x y
  | VString x, VString y => str_eqb x y
  | _, _ => false
  end.

(** [String(v)]; a number is printed in decimal, as integers of magnitude
    below 10^21 are. *)
Definition to_string (v : value) : jsstring :=
  match v with
  | VUndefined => js "undefined"
  | VNull => js "null"
  | VBool true => js "true"
  | VBool false => js "false"
  | VNumber z => js (DecimalString.NilZero.string_of_int (Z.to_int z))
  | VString s => s
  end.

(** ** Storage *)

(** [JSON.stringify(value)] without indentation. *)
Fixpoint compact (j : JSON.json) : jsstring :=
  match j with
  | JSON.JNull => js "null"
  | JSON.JBool true => js "true"
  | JSON.JBool false => js "false"
  | JSON.JNumber n => JSON.print_number n
  | JSON.JString s => JSON.quote s
  | JSON.JArray items => js "[" ++ JSON.join (js ",") (map compact items) ++ js "]"
  | JSON.JObject fields =>
      js "{"
      ++ JSON.join (js ",")
           (map (fun kv => JSON.quote (fst kv) ++ js ":" ++ compact (snd kv))
              fields)
      ++ js "}"
  end.

(** What [JSON.stringify] makes of a primitive property value; an
    [undefined] property is left out. *)
Definition json_of_value (v : value) : option JSON.json :=
  match v with
  | VUndefined => None
  | VNull => Some JSON.JNull
  | VBool b => Some (JSON.JBool b)
  | VNumber z => Some (JSON.JNumber (JSON.Int z))
  | VString s => Some (JSON.JString s)
  end.

Fixpoint json_fields (o : obj) : list (jsstring * JSON.json) :=
  match o with
  | [] => []
  | (k, v) :: o' =>
      match json_of_value v with
      | Some j => (k, j) :: json_fields o'
      | None => json_fields o'
      end
  end.

Definition json_of_configs (cs : list obj) : JSON.json :=
  JSON.JArray (map (fun o => JSON.JObject (json_fields o)) cs).

(** [localStorage]: the items, each key once. *)
Definition storage := list (jsstring * jsstring).

Fixpoint removeItem (k : jsstring) (s : storage) : storage :=
  match s with
  | [] => []
  | (k', v) :: s' =>
      if str_eqb k' k then removeItem k s' else (k', v) :: removeItem k s'
  end.

Definition setItem (k v : jsstring) (s : storage) : storage :=
  (k, v) :: removeItem k s.


Definition LOCAL_CONFIGS_KEY : jsstring := js "smart-diagram-local-configs".
Definition ACTIVE_LOCAL_CONFIG_KEY : jsstring :=
  js "smart-diagram-active-local-config".

(** ** The manager *)

Record manager := {
  configs : list obj;
  activeConfigId : value;
  localStorage : storage
}.

(** The messages of the errors thrown: "the configuration does not
    exist", "the original configuration does not exist". *)
Definition not_found : jsstring := [37197; 32622; 19981; 23384; 22312].
Definition original_not_found : jsstring :=
  [21407; 37197; 32622; 19981; 23384; 22312].
(** "unnamed configuration", and " (copy)" with its leading space. *)
Definition unnamed : jsstring := [26410; 21629; 21517; 37197; 32622].
Definition copy_suffix : jsstring := [32; 40; 21103; 26412; 41].

(** [saveConfigs] *)
Definition saveConfigs (m : manager) : manager :=
  {| configs := configs m;
     activeConfigId := activeConfigId m;
     localStorage :=
       setItem LOCAL_CONFIGS_KEY (compact (json_of_configs (configs m)))
         (localStorage m) |}.

(** [saveActiveConfigId] *)
Definition saveActiveConfigId (m : manager) : manager :=
  {| configs := configs m;
     activeConfigId := activeConfigId m;
     localStorage :=
       if truthy (activeConfigId m)
       then setItem ACTIVE_LOCAL_CONFIG_KEY (to_string (activeConfigId m))
              (localStorage m)
       else removeItem ACTIVE_LOCAL_CONFIG_KEY (localStorage m) |}.

(** [getActiveConfigId] *)
Definition getActiveConfigId (m : manager) : value := activeConfigId m.

(** [getAllConfigs] *)
Definition getAllConfigs (m : manager) : list obj := configs m.

(** [arr.find(cfg => cfg.id === id)]; [this.getConfig(id)] is this, with
    [None] for [null]. *)
Definition getConfig (m : manager) (id : value) : option obj :=
  find (fun cfg => strict_eq (get cfg (js "id")) id) (configs m).

(** [arr.findIndex(cfg => cfg.id === id)]; [None] stands for [-1]. *)
Fixpoint findIndex (id : value) (cs : list obj) : option nat :=
  match cs with
  | [] => None
  | cfg :: cs' =>
      if strict_eq (get cfg (js "id")) id then Some O
      else option_map S (findIndex id cs')
  end.

(** [getActiveConfig] *)
Definition getActiveConfig (m : manager) : option obj :=
  if negb (truthy (activeConfigId m)) then None
  else getConfig m (activeConfigId m).

(** [setActiveConfig] *)
Definition setActiveConfig (m : manager) (id : value)
  : outcome (manager * obj) :=
  match getConfig m id with
  | None => Thrown (Error not_found)
  | Some cfg =>
      Returned
        (saveActiveConfigId
           {| configs := configs m; activeConfigId := id;
              localStorage := localStorage m |},
         cfg)
  end.

(** [createConfig]: [id] is what [this.generateId()] returns, [now] what
    [new Date().toISOString()] returns. *)
Definition createConfig (m : manager) (id now : jsstring) (configData : obj)
  : manager * obj :=
  let newConfig :=
    literal
      ([(js "id", VString id);
        (js "name", or_else (get configData (js "name")) (VString unnamed));
        (js "type",
         or_else (get configData (js "type")) (VString (js "openai")));
        (js "baseUrl", or_else (get configData (js "baseUrl")) (VString []));
        (js "apiKey", or_else (get configData (js "apiKey")) (VString []));
        (js "model", or_else (get configData (js "model")) (VString []));
        (js "description",
         or_else (get configData (js "description")) (VString []));
        (js "createdAt", VString now);
        (js "updatedAt", VString now)]
       ++ configData) in
  let m1 :=
    {| configs := configs m ++ [newConfig];
       activeConfigId := activeConfigId m;
       localStorage := localStorage m |} in
  let m2 :=
    if negb (truthy (activeConfigId m1)) then
      saveActiveConfigId
        {| configs := configs m1;
           activeConfigId := get newConfig (js "id");
           localStorage := localStorage m1 |}
    else m1 in
  (saveConfigs m2, newConfig).

(** [arr[index] = v] for an index within bounds. *)
Fixpoint set_nth {A} (index : nat) (v : A) (arr : list A) : list A :=
  match arr, index with
  | [], _ => []
  | _ :: arr', O => v :: arr'
  | x :: arr', S i => x :: set_nth i v arr'
  end.

(** [arr.splice(index, 1)] for an index within bounds. *)
Fixpoint remove_nth {A} (index : nat) (arr : list A) : list A :=
  match arr, index with
  | [], _ => []
  | _ :: arr', O => arr'
  | x :: arr', S i => x :: remove_nth i arr'
  end.

(** [updateConfig] *)
Definition updateConfig (m : manager) (now : jsstring) (id : value)
  (updateData : obj) : outcome (manager * obj) :=
  match findIndex id (configs m) with
  | None => Thrown (Error not_found)
  | Some index =>
      let updated :=
        literal
          (nth index (configs m) [] ++ updateData
           ++ [(js "id", id); (js "updatedAt", VString now)]) in
      Returned
        (saveConfigs
           {| configs := set_nth index updated (configs m);
              activeConfigId := activeConfigId m;
              localStorage := localStorage m |},
         updated)
  end.

(** [deleteConfig] *)
Definition deleteConfig (m : manager) (id : value) : outcome manager :=
  match findIndex id (configs m) with
  | None => Thrown (Error not_found)
  | Some index =>
      let deletingActive := strict_eq (activeConfigId m) id in
      let m1 :=
        {| configs := remove_nth index (configs m);
           activeConfigId := activeConfigId m;
           localStorage := localStorage m |} in
      let m2 :=
        if deletingActive then
          saveActiveConfigId
            {| configs := configs m1;
               activeConfigId :=
                 or_else
                   (match configs m1 with
                    | first :: _ => get first (js "id")
                    | [] => VUndefined
                    end)
                   VNull;
               localStorage := localStorage m1 |}
        else m1 in
      Returned (saveConfigs m2)
  end.

(** [cloneConfig]: [newName] is [VUndefined] when the argument is left
    out. *)
Definition cloneConfig (m : manager) (fresh now : jsstring) (id : value)
  (newName : value) : outcome (manager * obj) :=
  match getConfig m id with
  | None => Thrown (Error original_not_found)
  | Some original =>
      let configData :=
        filter
          (fun kv =>
             negb (str_eqb (fst kv) (js "id")
                   || str_eqb (fst kv) (js "createdAt")
                   || str_eqb (fst kv) (js "updatedAt")))
          original in
      let cloned :=
        literal
          (configData
           ++ [(js "name",
                or_else newName
                  (VString
                     (to_string (get original (js "name")) ++ copy_suffix)))])
        in
      Returned (createConfig m fresh now cloned)
  end.

(** [exportConfigs] *)
Definition exportConfigs (m : manager) : jsstring :=
  JSON.stringify2 (json_of_configs (configs m)).

(** The last definition of a property among definitions made in order. *)
Fixpoint last_def (x : jsstring) (props : list (jsstring * value))
  : option value :=
  match props with
  | [] => None
  | (k, v) :: props' =>
      match last_def x props' with
      | Some v' => Some v'
      | None => if str_eqb k x then Some v else None
      end
  end.

(** The test of [find] and [findIndex]: [cfg.id === id]. *)
Definition has_id (id : value) (cfg : obj) : bool :=
  strict_eq (get cfg (js "id")) id.

(** The active identifier, when there is one, is the identifier of a
    configuration of the list: [getActiveConfig] finds it. *)
Definition resolves (m : manager) : Prop :=
  truthy (activeConfigId m) = true -> getActiveConfig m <> None.



End ConfigManager.

(* ================================================================== *)
(** * The streaming route *)
(* ================================================================== *)

(** [POST /api/llm/stream]: the stream that the route answers with, once
    the request has been accepted. *)
Module StreamRoute.

Import JS.
Local Open Scope N_scope.

(** How the call [callLLM(config, messages, onChunk)] went.  [callLLM] is
    not among the sources: a call is given by the chunks that it handed
    to the callback, strings, in order, and by its end, a return or an
    [Error] thrown, given by its [message]. *)
Record llm_run := {
  chunks : list jsstring;
  thrown : option jsstring
}.

(** The template [`data: ${JSON.stringify(payload)}\n\n`]. *)
Definition event (payload : JSON.json) : jsstring :=
  js "data: " ++ ConfigManager.compact payload ++ [10; 10].

(** [start(controller)]: the texts enqueued, in order, before the stream
    is closed.  A text stands for the bytes that [encoder.encode] makes of
    it. *)
Definition start (run : llm_run) : list jsstring :=
  map (fun chunk =>
         event (JSON.JObject [(js "content", JSON.JString chunk)]))
    (chunks run)
  ++ [match thrown run with
      | None => js "data: [DONE]" ++ [10; 10]
      | Some message =>
          event (JSON.JObject [(js "error", JSON.JString message)])
      end].

(** The texts accumulated while the chunks come in, [acc] being the text
    accumulated before. *)
Fixpoint accumulations (acc : jsstring) (chunks : list jsstring)
  : list jsstring :=
  match chunks with
  | [] => []
  | chunk :: chunks' => (acc ++ chunk) :: accumulations (acc ++ chunk) chunks'
  end.

(** The text of an event before its blank line: [data: ] and an object of
    one property that holds a string. *)
Definition event_text (k v : jsstring) : jsstring :=
  js "data: "
  ++ LBRACE :: QUOTE :: JSON.quote_chars false k
  ++ QUOTE :: COLON :: QUOTE :: JSON.quote_chars false v ++ [QUOTE; RBRACE].

(** The last text of the stream, before its blank line. *)
Definition closing_text (run : llm_run) : jsstring :=
  match thrown run with
  | None => js "data: [DONE]"
  | Some message => event_text (js "error") message
  end.

End StreamRoute.

(* ================================================================== *)
(** * Notions used to state the properties *)
(* ================================================================== *)

Module Notions.

Import JS Regex FixUnclosed CodeProcessor Spans.
Local Open Scope N_scope.

(** A text that does not begin with whitespace. *)
Definition starts_clean (s : jsstring) : Prop :=
  match s with [] => True | c :: _ => is_ws c = false end.

(** A character that is neither the byte-order mark nor a zero-width
    character. *)
Definition visible (c : char) : Prop :=
  is_bom c = false /\ is_zero_width c = false.

(** The characters that are neither commas nor whitespace. *)
Definition not_comma_ws (c : char) : bool := negb (c =? COMMA) && negb (is_ws c).

(** The characters that the repair neither adds nor deletes: all but
    whitespace, commas, quotes, closers and zero-width characters. *)
Definition content (c : char) : bool :=
  negb (is_ws c) && negb (c =? COMMA) && negb (c =? QUOTE)
  && negb (is_closer c) && negb (is_zero_width c).

(** The reading of a text with respect to its angle brackets: [in_tag]
    says that a ['<'] is open.  [angles_closed] holds of a text in which
    every ['<'] is followed by a ['>'] before the next ['<'] and before
    the end of the text. *)
Fixpoint closed_from (in_tag : bool) (s : jsstring) : bool :=
  match s with
  | [] => negb in_tag
  | c :: r =>
      if in_tag then
        if c =? GT then closed_from false r
        else if c =? LT then false
        else closed_from true r
      else if c =? LT then closed_from true r
      else closed_from false r
  end.

Definition angles_closed (s : jsstring) : bool := closed_from false s.

(** The text with a ['>'] put before every ['<'] that comes while another
    is open, and at the end if one is open. *)
Fixpoint angles (in_tag : bool) (s : jsstring) : jsstring :=
  match s with
  | [] => if in_tag then [GT] else []
  | c :: r =>
      if in_tag then
        if c =? GT then GT :: angles false r
        else if c =? LT then GT :: LT :: angles true r
        else c :: angles true r
      else if c =? LT then LT :: angles true r
      else c :: angles false r
  end.

(** A character that is not an angle bracket. *)
Definition no_angle (c : char) : Prop := (c =? LT) = false /\ (c =? GT) = false.

(** The names of the root tags that [extractXML] looks for. *)
Definition root_names : list jsstring :=
  map js ["mxfile"; "mxGraphModel"; "diagram"]%string.

(** A text in which every ['<'] is closed, cut into its characters outside
    tags and its tags, each tag given by the text between its brackets. *)
Inductive seg :=
| Plain (c : char)
| Tag (inner : jsstring).

(** The text of a segment. *)
Definition render_seg (g : seg) : jsstring :=
  match g with
  | Plain c => [c]
  | Tag inner => LT :: inner ++ [GT]
  end.

(** The text of a list of segments. *)
Definition render (l : list seg) : jsstring := concat (map render_seg l).

(** The characters of a segment, its brackets apart, satisfy [P]. *)
Definition seg_chars (P : char -> Prop) (g : seg) : Prop :=
  match g with
  | Plain c => P c
  | Tag inner => Forall P inner
  end.

(** A segment that is read back from its text: no ['<'] outside a tag, no
    angle bracket inside one. *)
Definition good_seg (g : seg) : Prop :=
  match g with
  | Plain c => (c =? LT) = false
  | Tag inner => Forall no_angle inner
  end.

(** The segment as the loop writes it: the text of a tag is trimmed. *)
Definition trimseg (g : seg) : seg :=
  match g with
  | Plain c => Plain c
  | Tag inner => Tag (trim inner)
  end.

(** The captures of the tag pattern in a rendered text: the tags that are
    not empty. *)
Definition inners (l : list seg) : list jsstring :=
  flat_map (fun g => match g with
                     | Tag (x :: inner) => [x :: inner]
                     | _ => []
                     end) l.

(** The matches of the tag pattern in a rendered text, [b] being the text
    since the previous match. *)
Fixpoint toks (b : jsstring) (l : list seg)
  : list (jsstring * jsstring) * jsstring :=
  match l with
  | [] => ([], b)
  | Plain c :: l' => toks (b ++ [c]) l'
  | Tag [] :: l' => toks (b ++ [LT; GT]) l'
  | Tag inner :: l' =>
      let '(ms, tail) := toks [] l' in ((b, inner) :: ms, tail)
  end.

(** The effect of one tag on the stack. *)
Definition stack_step (treatAsHTML : bool) (voids : list jsstring)
  (stk : list jsstring) (inner : jsstring) : list jsstring :=
  tags (tag_step treatAsHTML voids {| tags := stk; out := [] |} ([], inner)).

(** The closing tags appended for the names left on the stack. *)
Definition closing_tags (names : list jsstring) : jsstring :=
  concat (map (fun name => js "</" ++ name ++ js ">") names).

(** The loop of [fixXMLorHTML] and what follows it, on the text with its
    angle brackets closed. *)
Definition tag_loop (treatAsHTML : bool) (voids : list jsstring)
  (text : jsstring) : jsstring :=
  let '(matches, tail) := exec_all tagRe text in
  let st :=
    fold_left (tag_step treatAsHTML voids) matches
      {| tags := []; out := [] |} in
  out st ++ tail ++ closing_tags (tags st).

(** The void tags in force: [opts.voidTags], or the default ones. *)
Definition opts_voids (opts : options) : list jsstring :=
  match voidTags opts with Some v => v | None => DEFAULT_VOID_TAGS end.

(** [opts.html !== false] *)
Definition opts_html (opts : options) : bool :=
  match html opts with Some false => false | _ => true end.

(** What the loop writes for a match: the text before the tag, then the
    tag with its text trimmed. *)
Definition emit (m : jsstring * jsstring) : jsstring :=
  fst m ++ LT :: trim (snd m) ++ [GT].

(** [sub a b]: [a] is [b] with some of its elements left out. *)
Inductive sub {A} : list A -> list A -> Prop :=
| sub_nil l : sub [] l
| sub_take x a b : sub a b -> sub (x :: a) (x :: b)
| sub_skip x a b : sub a b -> sub a (x :: b).

(** The stack after a closing tag of name [name]. *)
Definition pop_if (norm : jsstring -> jsstring) (name : jsstring)
  (stk : list jsstring) : list jsstring :=
  match stk with
  | top :: below => if str_eqb (norm top) name then below else stk
  | [] => []
  end.

(** The name as it is compared: in lower case when the text is treated
    as HTML. *)
Definition normalize (t : bool) (name : jsstring) : jsstring :=
  if t then toLowerCase name else name.

(** The tags that begin like a comment, a doctype, a CDATA section or a
    processing instruction. *)
Definition special (raw : jsstring) : bool :=
  startsWith raw (js "!--") || startsWith raw (js "!DOCTYPE")
  || startsWith raw (js "![CDATA[") || startsWith raw (js "?").

(** A character that is neither whitespace, nor an angle bracket, nor
    invisible. *)
Definition nice (c : char) : Prop :=
  is_ws c = false /\ no_angle c /\ visible c.

(** A character that is neither an angle bracket nor invisible. *)
Definition tag_char (c : char) : Prop := no_angle c /\ visible c.

(** The closing tag of a name, as a segment. *)
Definition closer_seg (name : jsstring) : seg := Tag (SLASH :: name).

(** The characters that are not whitespace. *)
Definition not_ws (c : char) : bool := negb (is_ws c).

Definition is_ascii (c : char) : bool := c <? 128.

(** The name that the loop of [fixXMLorHTML] reads in a tag, [inner]
    being the text between its brackets: its first word, after the slash
    of a closing tag. *)
Definition name_of (inner : jsstring) : jsstring :=
  let raw := trim inner in
  first_word (if startsWith raw (js "/") then skipn 1 raw else raw).

(** The names that the loop normalises: those of the tags that are not
    comments, doctypes, CDATA sections or processing instructions. *)
Definition named (ins : list jsstring) : list jsstring :=
  map name_of (filter (fun inner => negb (special (trim inner))) ins).

Definition tag_names (input : jsstring) : list jsstring :=
  named (map snd (fst (exec_all tagRe
                         (autoCloseAngleBrackets (strip_invisible input))))).

(** The texts whose names this model normalises as the code does.  The
    code lower-cases a name with [String.prototype.toLowerCase], which
    follows the Unicode case mapping; [toLowerCase] of this model is that
    mapping on ASCII names.  So either the names are not lower-cased at
    all ([opts.html] is [false]), or the names of the text are ASCII;
    nothing is asked of the rest of the text. *)
Definition ascii_names (opts : options) (input : jsstring) : Prop :=
  html opts = Some false
  \/ forallb (forallb is_ascii) (tag_names input) = true.

End Notions.

(* ================================================================== *)
(** * Properties *)
(* ================================================================== *)

Unset Implicit Arguments.

Import JS Regex FixUnclosed CodeProcessor Spans.
Local Open Scope N_scope.

(* ------------------------------------------------------------------ *)
(** ** Reading a text with respect to its string literals *)
(* ------------------------------------------------------------------ *)

Lemma lit_run_cons p c s : lit_run p (c :: s) = lit_run (lit_step p c) s.
Proof. reflexivity. Qed.

Lemma lit_run_app p a b : lit_run p (a ++ b) = lit_run (lit_run p a) b.
Proof. unfold lit_run. apply fold_left_app. Qed.

Lemma lit_run_snoc p r x : lit_run p (r ++ [x]) = lit_step (lit_run p r) x.
Proof. rewrite lit_run_app. reflexivity. Qed.

Lemma count_from_app p c a : forall b,
  count_from p c (a ++ b) = (count_from p c a + count_from (lit_run p a) c b)%nat.
Proof.
  revert p. induction a as [|x a IH]; intros p b; [reflexivity|].
  change ((x :: a) ++ b) with (x :: (a ++ b)). cbn [count_from].
  rewrite IH, lit_run_cons. lia.
Qed.

Lemma count_snoc c r x :
  count_outside c (r ++ [x])
  = (count_outside c r
     + if is_outside (lit_run Outside r) && N.eqb x c then 1 else 0)%nat.
Proof.
  unfold count_outside. rewrite count_from_app. cbn [count_from]. lia.
Qed.

Lemma prefixes_nil s : In [] (prefixes s).
Proof. destruct s; left; reflexivity. Qed.

Lemma prefixes_cons c q s : In q (prefixes s) -> In (c :: q) (prefixes (c :: s)).
Proof. intros H. simpl. right. apply in_map, H. Qed.

Lemma prefixes_self s : In s (prefixes s).
Proof.
  induction s as [|c s IH]; [left; reflexivity|]. apply prefixes_cons, IH.
Qed.

(* ------------------------------------------------------------------ *)
(** ** Strings, trimming and matchers *)
(* ------------------------------------------------------------------ *)

Lemma startsWith_app s w : startsWith s w = true -> s = w ++ skipn (length w) s.
Proof.
  revert s. induction w as [|p w IH]; intros s H; [reflexivity|].
  destruct s as [|c s]; [discriminate|]. simpl in H.
  apply andb_true_iff in H. destruct H as [Hc Hw]. apply N.eqb_eq in Hc. subst.
  simpl. f_equal. apply IH, Hw.
Qed.

Lemma lit_found {R} w (k : cont R) s r :
  lit w k s = Some r -> startsWith s w = true.
Proof. unfold lit. destruct (startsWith s w); [reflexivity|discriminate]. Qed.

Lemma search_found {R} (m : cont R) : forall s i r,
  search m s = Some (i, r) ->
  exists pre t, s = pre ++ t /\ length pre = i /\ m t = Some r.
Proof.
  induction s as [|c s IH]; intros i r H; simpl in H.
  - destruct (m []) eqn:E; [|discriminate].
    inversion H; subst. exists [], []. auto.
  - destruct (m (c :: s)) eqn:E.
    + inversion H; subst. exists [], (c :: s). auto.
    + destruct (search m s) as [[j r']|] eqn:Es; [|discriminate].
      inversion H; subst. destruct (IH j r eq_refl) as (pre & t & -> & <- & Ht).
      exists (c :: pre), t. auto.
Qed.



Lemma trimStart_spec s :
  exists w, s = w ++ trimStart s /\ Forall (fun c => is_ws c = true) w.
Proof.
  induction s as [|c s (w & Hs & Hw)]; [exists []; auto|].
  simpl. destruct (is_ws c) eqn:E.
  - exists (c :: w). split; [simpl; f_equal; exact Hs|constructor; assumption].
  - exists []. auto.
Qed.

Lemma trimEnd_spec s :
  exists w, s = trimEnd s ++ w /\ Forall (fun c => is_ws c = true) w.
Proof.
  unfold trimEnd. destruct (trimStart_spec (rev s)) as (w & Hs & Hw).
  exists (rev w). split.
  - rewrite <- rev_app_distr, <- Hs, rev_involutive. reflexivity.
  - apply Forall_rev, Hw.
Qed.

Lemma endsWith_last r c :
  endsWith r [c] = true -> r = dropLast r ++ [c].
Proof.
  unfold endsWith, dropLast. simpl.
  destruct (rev r) as [|x t] eqn:E; [discriminate|].
  intros H. apply andb_true_iff in H. destruct H as [H _].
  apply N.eqb_eq in H. subst x.
  assert (Hr : r = rev t ++ [c]) by (rewrite <- (rev_involutive r), E; reflexivity).
  rewrite Hr at 1 2. rewrite removelast_last. reflexivity.
Qed.

Lemma star_result {R} p (k : jsstring -> cont R) : forall s acc r,
  star p k acc s = Some r ->
  exists ws rest,
    s = ws ++ rest /\ Forall (fun c => p c = true) ws
    /\ k (acc ++ ws) rest = Some r.
Proof.
  induction s as [|x s IH]; intros acc r H.
  - exists [], []. rewrite (app_nil_r acc).
    split; [reflexivity|split; [apply Forall_nil|exact H]].
  - cbn [star] in H. destruct (p x) eqn:Ex.
    + destruct (star p k (acc ++ [x]) s) as [r'|] eqn:Es.
      * inversion H; subst. destruct (IH _ _ Es) as (ws & rest & -> & Hws & Hk).
        exists (x :: ws), rest. rewrite <- app_assoc in Hk.
        split; [reflexivity|split; [apply Forall_cons; assumption|exact Hk]].
      * exists [], (x :: s). rewrite (app_nil_r acc).
        split; [reflexivity|split; [apply Forall_nil|exact H]].
    + exists [], (x :: s). rewrite (app_nil_r acc).
      split; [reflexivity|split; [apply Forall_nil|exact H]].
Qed.


Lemma star_stops {R} p (k : jsstring -> cont R) : forall ws acc rest r,
  Forall (fun c => p c = true) ws ->
  match rest with [] => True | x :: _ => p x = false end ->
  k (acc ++ ws) rest = Some r ->
  star p k acc (ws ++ rest) = Some r.
Proof.
  induction ws as [|w ws IH]; intros acc rest r Hws Hrest Hk.
  - rewrite app_nil_r in Hk. simpl. destruct rest as [|x rest]; [exact Hk|].
    simpl. rewrite Hrest. exact Hk.
  - inversion Hws; subst. simpl. rewrite H1.
    rewrite (IH (acc ++ [w]) rest r); auto.
    rewrite <- app_assoc. exact Hk.
Qed.

Lemma lit_ci_equal {R} (k : cont R) : forall tag lang rest,
  ci_equal tag lang -> lit_ci lang k (tag ++ rest) = k rest.
Proof.
  intros tag lang rest H. induction H as [|t l tag lang Htl _ IH]; [reflexivity|].
  simpl. rewrite Htl. exact IH.
Qed.

Lemma replace_from_skip m : forall pre rest,
  replace_from m (length pre) (pre ++ rest) = replace_from m O rest.
Proof. induction pre as [|c pre IH]; intros rest; [reflexivity|apply IH]. Qed.

Lemma slice_middle (pre arr post : jsstring) :
  slice (pre ++ arr ++ post) (length pre) (length pre + length arr) = arr.
Proof.
  unfold slice. rewrite skipn_app, skipn_all, Nat.sub_diag. simpl.
  replace (length pre + length arr - length pre)%nat with (length arr + 0)%nat by lia.
  rewrite firstn_app_2. simpl. apply app_nil_r.
Qed.

Lemma takeWhile_dropWhile {A} (f : A -> bool) l :
  l = takeWhile f l ++ dropWhile f l.
Proof.
  induction l as [|x l IH]; simpl; [reflexivity|].
  destruct (f x); simpl; [f_equal; exact IH|reflexivity].
Qed.

Lemma dropWhile_head {A} (f : A -> bool) (l : list A) :
  match dropWhile f l with x :: _ => f x = false | [] => True end.
Proof.
  induction l as [|x l IH]; simpl; [exact I|].
  destruct (f x) eqn:E; [exact IH | exact E].
Qed.

(* ------------------------------------------------------------------ *)
(** ** The pipeline engine *)
(* ------------------------------------------------------------------ *)

Lemma process_cons (st : step) (sts : list step) (code : value) :
  process {| steps := st :: sts |} code
  = process {| steps := sts |}
      (match st code with Returned r => r | Thrown _ => code end).
Proof.
  unfold process; simpl. destruct (st code); reflexivity.
Qed.

Lemma process_returns (sts : list step) :
  forall code, exists r, process {| steps := sts |} code = Returned r.
Proof.
  induction sts as [|st sts IH]; intros code.
  - exists code. reflexivity.
  - rewrite process_cons. apply IH.
Qed.

Lemma process_text (sts : list step) :
  Forall text_step sts ->
  forall s, exists s', process {| steps := sts |} (VString s) = Returned (VString s').
Proof.
  induction 1 as [|st sts Hst _ IH]; intros s.
  - exists s. reflexivity.
  - rewrite process_cons. specialize (Hst s).
    destruct (st (VString s)) as [[| | | |s1]|e]; try contradiction; apply IH.
Qed.

Lemma guarded_no_text (v : value) body : no_text v -> guarded v body = Returned v.
Proof.
  destruct v as [| |b|z|[|c s]]; simpl; intros H; try reflexivity; try contradiction.
  - unfold guarded; simpl. destruct b; reflexivity.
  - unfold guarded; simpl. destruct (Z.eqb z 0); reflexivity.
Qed.

Lemma guarded_text (g : jsstring -> jsstring) :
  boundary_contract (fun code => guarded code (fun s => Returned (VString (g s)))).
Proof.
  split.
  - intros v Hv. apply guarded_no_text, Hv.
  - intros [|c s].
    + exists []. reflexivity.
    + exists (g (c :: s)). reflexivity.
Qed.

(** A tag of word characters holds no plus sign: [new RegExp] accepts
    it, and [extractCodeFence] is its guard and its body. *)
Lemma word_tag_accepted (lang : jsstring) :
  forallb is_word lang = true -> nothing_to_repeat lang = false.
Proof.
  intros H. unfold nothing_to_repeat.
  assert (Hplus : forall c, is_word c = true -> (c =? PLUS) = false).
  { intros c Hc. destruct (N.eqb_spec c PLUS) as [->|]; [discriminate Hc|reflexivity]. }
  assert (E : startsWith lang [PLUS] = false /\ includes lang [PLUS; PLUS] = false).
  { induction lang as [|c l IH]; [split; reflexivity|].
    cbn [forallb] in H. apply andb_prop in H as [Hc Hl].
    destruct (IH Hl) as [_ IHi]. cbn [startsWith includes].
    rewrite (Hplus c Hc), IHi. split; reflexivity. }
  destruct E as [-> ->]. apply andb_false_r.
Qed.

Lemma extractCodeFence_fenced (code : value) (lang : option jsstring) :
  literal_tag lang ->
  extractCodeFence code lang
  = guarded code (fun s => Returned (VString (fenced s lang))).
Proof.
  intros H. unfold extractCodeFence.
  destruct lang as [[|c l]|]; [reflexivity| |reflexivity].
  cbn [literal_tag] in H. rewrite (word_tag_accepted (c :: l) H). reflexivity.
Qed.


Lemma boundary_text_step st : boundary_contract st -> text_step st.
Proof.
  intros [_ H] s. destruct (H s) as [s' ->]. exact I.
Qed.

(** C1.  [process] applies the steps in order, each fed the result of the
    one before; a step that throws is replaced by the value it was given,
    and the run goes on with the remaining steps.  So [process] never
    throws, and on a string it returns a string when every step maps text
    to text. *)
Theorem process_isolates_step_failures :
  forall (st : step) (sts : list step) (code : value),
    process {| steps := [] |} code = Returned code
    /\ process {| steps := st :: sts |} code
       = process {| steps := sts |}
           (match st code with Returned r => r | Thrown _ => code end)
    /\ (exists r, process {| steps := sts |} code = Returned r)
    /\ (Forall text_step sts ->
        forall s, exists s',
          process {| steps := sts |} (VString s) = Returned (VString s')).
Proof.
  intros st sts code. split; [reflexivity|].
  split; [apply process_cons|].
  split; [apply process_returns|].
  apply process_text.
Qed.

(** C1, at a pipeline whose second step always throws. *)
Lemma process_isolates_step_failures_witness :
  exists s',
    process {| steps := [cleanBOM; (fun _ => Thrown SyntaxError); extractJSON] |}
      (VString (js " see [1, 2] here "))
    = Returned (VString s').
Proof.
  apply (proj2 (proj2 (proj2
           (process_isolates_step_failures cleanBOM
              [cleanBOM; (fun _ => Thrown SyntaxError); extractJSON]
              (VString []))))).
  apply Forall_cons; [apply boundary_text_step, guarded_text|].
  apply Forall_cons; [intros s; exact I|].
  apply Forall_cons; [apply boundary_text_step, guarded_text|].
  apply Forall_nil.
Defined.

(** [optimizeArrows] keeps the contract of a step exactly when the
    optimizer does, on the strings that the step hands to it. *)
Lemma optimizeArrows_contract (hook : arrow_hook) :
  boundary_contract (optimizeArrows hook) <-> returns_text hook.
Proof.
  split.
  - intros [_ H]. destruct hook as [optimize|]; [|exact I].
    intros c s. exact (H (c :: s)).
  - intros H. split.
    + intros v Hv. unfold optimizeArrows. apply guarded_no_text. exact Hv.
    + intros [|c s]; [exists []; reflexivity|].
      destruct hook as [optimize|]; [apply (H c s)|].
      exists (c :: s). reflexivity.
Qed.

(** The steps of the two preset pipelines map text to text, so the presets
    return a string on every string; the optimizer is one that returns
    text. *)
Lemma preset_steps_text (hook : arrow_hook) :
  returns_text hook ->
  Forall text_step (steps drawioProcessor)
  /\ Forall text_step (steps (excalidrawProcessor hook)).
Proof.
  intros Hhook.
  split; repeat (apply Forall_cons;
                 [apply boundary_text_step;
                  first [apply guarded_text
                        |apply optimizeArrows_contract; exact Hhook]|]);
    apply Forall_nil.
Qed.

Lemma presets_return_text (hook : arrow_hook) (s : jsstring) :
  returns_text hook ->
  (exists s', process drawioProcessor (VString s) = Returned (VString s'))
  /\ (exists s',
        process (excalidrawProcessor hook) (VString s) = Returned (VString s')).
Proof.
  intros Hhook. destruct (preset_steps_text hook Hhook) as [H1 H2].
  split; [apply (process_text _ H1)|apply (process_text _ H2)].
Qed.

(* ------------------------------------------------------------------ *)
(** ** The boundary contract of the steps *)
(* ------------------------------------------------------------------ *)


(** [optimizeArrows] hands the text to the imported optimizer outside
    any [try]: what the optimizer throws reaches the caller of the step,
    so that the step does not keep the contract for every optimizer. *)
Lemma optimizeArrows_propagates_failure :
  ~ (forall hook : arrow_hook, boundary_contract (optimizeArrows hook)).
Proof.
  intros H.
  destruct (H (Some (fun _ => Thrown SyntaxError))) as [_ Hs].
  destruct (Hs (js "[]")) as [s' E]. discriminate E.
Qed.



(* ------------------------------------------------------------------ *)
(** ** [fixJSON] on valid JSON *)
(* ------------------------------------------------------------------ *)

(** C2.  When the trimmed input parses as JSON, [fixJSON] returns the
    trimmed input itself; the repair (and the second comma clean-up) is
    what it returns only when that parse fails. *)
Theorem fixJSON_keeps_valid_json :
  forall S : jsstring,
    (JSON.parses (trim S) = true -> fixJSON S = trim S)
    /\ (JSON.parses (trim S) = false ->
        fixJSON S =
        match trim S with
        | [] => []
        | _ =>
            let fixed := fixJSONStructure (trim S) in
            if JSON.parses fixed then fixed else stripTrailingCommas fixed
        end).
Proof.
  intros S. unfold fixJSON, JSON.parses.
  destruct (trim S) as [|c raw] eqn:E.
  - split; intros H; [discriminate H | reflexivity].
  - destruct (JSON.parse (c :: raw)); split; intros H;
      try discriminate H; try reflexivity.
    cbv zeta. destruct (JSON.parse (fixJSONStructure (c :: raw))); reflexivity.
Qed.

(** C2, at an array padded with spaces. *)
Lemma fixJSON_keeps_valid_json_witness :
  JSON.parses (trim (jq "  [1, {'a': 'b'}]  ")) = true
  /\ fixJSON (jq "  [1, {'a': 'b'}]  ") = jq "[1, {'a': 'b'}]".
Proof.
  split; [vm_compute; reflexivity|].
  apply (proj1 (fixJSON_keeps_valid_json (jq "  [1, {'a': 'b'}]  "))).
  vm_compute; reflexivity.
Defined.

(* ------------------------------------------------------------------ *)
(** ** The repair scan: mismatched closers *)
(* ------------------------------------------------------------------ *)

Lemma close_mismatched_spec (need : char) :
  forall stk res last,
    exists last',
      close_mismatched need stk res last
      = (dropWhile (fun o => negb (o =? need)) stk,
         res ++ map closer_of (takeWhile (fun o => negb (o =? need)) stk),
         last').
Proof.
  induction stk as [|top below IH]; intros res last; simpl.
  - exists last. rewrite app_nil_r. reflexivity.
  - destruct (negb (top =? need)) eqn:E.
    + destruct (IH (res ++ [closer_of top]) (Some (closer_of top))) as [l' Hl'].
      exists l'. rewrite Hl'. simpl. rewrite <- app_assoc. reflexivity.
    + exists last. rewrite app_nil_r. reflexivity.
Qed.





(* ------------------------------------------------------------------ *)
(** ** The repair scan: what it maintains *)
(* ------------------------------------------------------------------ *)

Lemma closer_of_cases o :
  (closer_of o = RBRACE /\ o = LBRACE) \/ (closer_of o = RBRACKET /\ o <> LBRACE).
Proof.
  unfold closer_of. destruct (N.eqb_spec o LBRACE); [left|right]; auto.
Qed.

Lemma closers_cons k o stk :
  closers k (o :: stk)
  = ((if N.eqb (closer_of o) k then 1 else 0) + closers k stk)%nat.
Proof.
  unfold closers. simpl. destruct (closer_of o =? k); reflexivity.
Qed.

Lemma closers_app k a b : closers k (a ++ b) = (closers k a + closers k b)%nat.
Proof. unfold closers. rewrite filter_app, length_app. reflexivity. Qed.

Lemma closers_opener l : closers LBRACE l = O /\ closers LBRACKET l = O.
Proof.
  induction l as [|o l [IH1 IH2]]; [split; reflexivity|].
  rewrite !closers_cons, IH1, IH2.
  destruct (closer_of_cases o) as [[-> _]|[-> _]]; split; reflexivity.
Qed.

(** Closers appended outside a string literal are counted as closers. *)
Lemma emit_closers : forall ops r,
  lit_run Outside r = Outside ->
  lit_run Outside (r ++ map closer_of ops) = Outside
  /\ forall c, count_outside c (r ++ map closer_of ops)
               = (count_outside c r + closers c ops)%nat.
Proof.
  induction ops as [|o ops IH]; intros r Hr.
  - simpl. rewrite app_nil_r. split; [exact Hr|]. intros c. unfold closers. simpl. lia.
  - simpl map.
    replace (r ++ closer_of o :: map closer_of ops)
      with ((r ++ [closer_of o]) ++ map closer_of ops)
      by (rewrite <- app_assoc; reflexivity).
    assert (Hr' : lit_run Outside (r ++ [closer_of o]) = Outside).
    { rewrite lit_run_snoc, Hr. simpl.
      destruct (closer_of_cases o) as [[-> _]|[-> _]]; reflexivity. }
    destruct (IH _ Hr') as [H1 H2]. split; [exact H1|].
    intros c. rewrite H2, count_snoc, Hr, closers_cons. simpl. lia.
Qed.

Lemma scan_init_inv : scan_inv scan_init 0 0.
Proof. constructor; reflexivity. Qed.

Lemma stray_count_not_closer k st ch :
  is_closer ch = false -> stray_count k st ch = O.
Proof.
  intros H. unfold stray_count, stray. rewrite H, andb_false_r. reflexivity.
Qed.

Lemma stray_count_in_string k st ch :
  inString st = true -> stray_count k st ch = O.
Proof. intros H. unfold stray_count, stray. rewrite H. reflexivity. Qed.

(** A closer met outside any string literal. *)
Lemma scan_step_closer_inv stk esc res last ch sb sk :
  ch = RBRACE \/ ch = RBRACKET ->
  let st := {| stack := stk; inString := false; escaped := esc;
               result := res; lastNonWhitespaceChar := last |} in
  scan_inv st sb sk ->
  scan_inv (scan_step st ch)
    (sb + stray_count RBRACE st ch) (sk + stray_count RBRACKET st ch).
Proof.
  intros Hch st [Hpos Hbrace Hbracket]. simpl in Hpos, Hbrace, Hbracket.
  set (need := if ch =? RBRACE then LBRACE else LBRACKET).
  set (f := fun o => negb (o =? need)).
  assert (Hstep : exists below,
            scan_step st ch
            = {| stack := below; inString := false; escaped := esc;
                 result := (res ++ map closer_of (takeWhile f stk)) ++ [ch];
                 lastNonWhitespaceChar := Some ch |}
            /\ ((dropWhile f stk = [] /\ below = []
                 /\ stray st ch = true)
                \/ (dropWhile f stk = need :: below
                    /\ stray st ch = false))).
  { destruct (close_mismatched_spec need stk res last) as [l' Hl'].
    fold f in Hl'.
    pose proof (dropWhile_head f stk) as Hhead.
    unfold stray, scan_step, st.
    cbn [inString stack result lastNonWhitespaceChar escaped negb andb].
    fold need. fold f.
    assert (Hq : (ch =? QUOTE) = false /\ is_opener ch = false
                 /\ is_closer ch = true)
      by (destruct Hch as [-> | ->]; repeat split).
    destruct Hq as (-> & -> & ->). rewrite Hl'.
    destruct (dropWhile f stk) as [|top below] eqn:Ed.
    - exists []. split; [reflexivity|left; auto].
    - unfold f in Hhead. apply negb_false_iff in Hhead.
      rewrite Hhead. apply N.eqb_eq in Hhead. subst top.
      exists below. split; [reflexivity|right; auto]. }
  destruct Hstep as (below & -> & Hbelow).
  destruct (emit_closers (takeWhile f stk) res Hpos) as [Hout Hcnt].
  pose proof (takeWhile_dropWhile f stk) as Hsplit.
  assert (Hc : forall k, closers k stk
               = (closers k (takeWhile f stk) + closers k (dropWhile f stk))%nat).
  { intros k. rewrite <- closers_app, <- Hsplit. reflexivity. }
  destruct (closers_opener (takeWhile f stk)) as [Hz1 Hz2].
  rewrite (Hc RBRACE) in Hbrace. rewrite (Hc RBRACKET) in Hbracket.
  unfold stray_count.
  constructor; cbn [inString stack result escaped].
  - rewrite lit_run_snoc, Hout. destruct Hch as [-> | ->]; reflexivity.
  - rewrite !count_snoc, Hout, !Hcnt.
    destruct Hbelow as [(Hb & -> & ->) | (Hb & ->)]; rewrite Hb in Hbrace.
    + destruct Hch as [-> | ->]; simpl in *; lia.
    + rewrite closers_cons in Hbrace. subst need.
      destruct Hch as [-> | ->]; simpl in *; lia.
  - rewrite !count_snoc, Hout, !Hcnt.
    destruct Hbelow as [(Hb & -> & ->) | (Hb & ->)]; rewrite Hb in Hbracket.
    + destruct Hch as [-> | ->]; simpl in *; lia.
    + rewrite closers_cons in Hbracket. subst need.
      destruct Hch as [-> | ->]; simpl in *; lia.
Qed.

Lemma scan_step_inv st ch sb sk :
  scan_inv st sb sk ->
  scan_inv (scan_step st ch)
    (sb + stray_count RBRACE st ch) (sk + stray_count RBRACKET st ch).
Proof.
  destruct st as [stk inS esc res last]. intros Hinv.
  destruct inS.
  - (* inside a string literal *)
    rewrite !stray_count_in_string, !Nat.add_0_r by reflexivity.
    destruct Hinv as [Hpos Hbrace Hbracket]. simpl in Hpos, Hbrace, Hbracket.
    unfold scan_step. cbn [inString stack result escaped lastNonWhitespaceChar].
    constructor; cbn [inString stack result escaped];
      rewrite ?count_snoc, ?lit_run_snoc, Hpos.
    + destruct esc; simpl; [reflexivity|].
      destruct (ch =? BACKSLASH); [reflexivity|].
      destruct (ch =? QUOTE); reflexivity.
    + destruct esc; simpl; lia.
    + destruct esc; simpl; lia.
  - destruct (N.eqb_spec ch RBRACE) as [E1|E1];
      [apply scan_step_closer_inv; auto|].
    destruct (N.eqb_spec ch RBRACKET) as [E2|E2];
      [apply scan_step_closer_inv; auto|].
    apply N.eqb_neq in E1, E2.
    rewrite !stray_count_not_closer, !Nat.add_0_r
      by (unfold is_closer; rewrite E1, E2; reflexivity).
    destruct Hinv as [Hpos Hbrace Hbracket]. simpl in Hpos, Hbrace, Hbracket.
    unfold scan_step, is_opener, is_closer.
    cbn [inString stack result escaped lastNonWhitespaceChar].
    rewrite E1, E2.
    destruct (N.eqb_spec ch QUOTE) as [E3|E3].
    { subst ch. constructor; cbn [inString stack result escaped];
        rewrite ?count_snoc, ?lit_run_snoc, Hpos; simpl; try reflexivity; lia. }
    destruct (N.eqb_spec ch LBRACE) as [E4|E4].
    { subst ch. constructor; cbn [inString stack result escaped orb];
        rewrite ?count_snoc, ?lit_run_snoc, ?closers_cons, Hpos; simpl;
        try reflexivity; lia. }
    destruct (N.eqb_spec ch LBRACKET) as [E5|E5].
    { subst ch. constructor; cbn [inString stack result escaped orb];
        rewrite ?count_snoc, ?lit_run_snoc, ?closers_cons, Hpos; simpl;
        try reflexivity; lia. }
    apply N.eqb_neq in E3, E4, E5.
    constructor; cbn [inString stack result escaped orb];
      rewrite ?count_snoc, ?lit_run_snoc, Hpos; simpl; rewrite ?E1, ?E2, ?E3, ?E4, ?E5;
      try reflexivity; lia.
Qed.

Lemma scan_inv_fold : forall text st sb sk,
  scan_inv st sb sk ->
  scan_inv (fold_left scan_step text st)
    (sb + strays_from RBRACE st text) (sk + strays_from RBRACKET st text).
Proof.
  induction text as [|ch text IH]; intros st sb sk H.
  - simpl. rewrite !Nat.add_0_r. exact H.
  - cbn [fold_left strays_from]. rewrite !Nat.add_assoc.
    apply IH, scan_step_inv, H.
Qed.

Lemma scan_holds_inv text :
  scan_inv (scan text) (strays RBRACE text) (strays RBRACKET text).
Proof. apply (scan_inv_fold text scan_init 0 0), scan_init_inv. Qed.

(* ------------------------------------------------------------------ *)
(** ** The end of the repair *)
(* ------------------------------------------------------------------ *)

Lemma ws_plain x : is_ws x = true -> plain x.
Proof.
  intros H. unfold plain, is_opener, is_closer.
  repeat split;
    repeat match goal with
    | |- context [x =? ?n] =>
        destruct (N.eqb_spec x n); [subst x; discriminate H|]
    end; reflexivity.
Qed.

Lemma comma_plain : plain COMMA.
Proof. repeat split. Qed.

Lemma plain_not_bracket x c : plain x -> bracket c -> (x =? c) = false.
Proof.
  unfold is_opener, is_closer. intros (_ & _ & Ho & Hc) Hb.
  apply orb_false_iff in Ho, Hc. destruct Ho, Hc.
  destruct Hb as [-> | [-> | [-> | ->]]]; assumption.
Qed.

Lemma lit_step_plain_back p x : plain x -> lit_step p x = Outside -> p = Outside.
Proof.
  intros (Hq & Hb & _) H. destruct p; simpl in H; [reflexivity| |discriminate].
  rewrite Hb, Hq in H. discriminate.
Qed.

(** Plain characters at the end of a text that ends outside any string
    literal can be dropped. *)
Lemma drop_plain_suffix : forall junk a,
  Forall plain junk ->
  lit_run Outside (a ++ junk) = Outside ->
  lit_run Outside a = Outside
  /\ forall c, bracket c -> count_outside c (a ++ junk) = count_outside c a.
Proof.
  induction junk as [|j junk IH]; intros a Hj Hout.
  - rewrite app_nil_r in *. auto.
  - inversion Hj as [|? ? Hp Hrest]; subst.
    replace (a ++ j :: junk) with ((a ++ [j]) ++ junk) in *
      by (rewrite <- app_assoc; reflexivity).
    destruct (IH (a ++ [j]) Hrest Hout) as [H1 H2].
    rewrite lit_run_snoc in H1. apply (lit_step_plain_back _ _ Hp) in H1.
    split; [exact H1|]. intros c Hc.
    rewrite (H2 c Hc), count_snoc, (plain_not_bracket j c Hp Hc), andb_false_r.
    lia.
Qed.

Lemma lit_step_comma p :
  lit_step p COMMA = match p with Escaping => Inside | q => q end.
Proof. destruct p; reflexivity. Qed.

Lemma comma_free_scan s t :
  comma_free s t ->
  forall p, lit_run p s = lit_run p t
            /\ forall c, c <> COMMA -> count_from p c s = count_from p c t.
Proof.
  induction 1 as [|x s t _ IH|x s t Hq Hb _ IH]; intros p.
  - auto.
  - destruct (IH (lit_step p x)) as [H1 H2]. split.
    + rewrite !lit_run_cons. exact H1.
    + intros c Hc. cbn [count_from]. rewrite (H2 c Hc). reflexivity.
  - destruct (IH p) as [H1 H2]. split.
    + rewrite <- H1. rewrite !lit_run_cons, lit_step_comma. f_equal.
      destruct p; cbn [lit_step]; rewrite ?Hq, ?Hb; reflexivity.
    + intros c Hc. rewrite <- (H2 c Hc). cbn [count_from].
      apply N.eqb_neq in Hc. rewrite N.eqb_sym in Hc.
      rewrite Hc, andb_false_r, lit_step_comma.
      destruct p; cbn [lit_step is_outside andb]; rewrite ?Hq, ?Hb; reflexivity.
Qed.

Lemma comma_free_app w s t : comma_free s t -> comma_free (w ++ s) (w ++ t).
Proof. intros H. induction w; simpl; [exact H|constructor; assumption]. Qed.

Lemma trailing_comma_match s repl rest :
  trailing_comma_re s = Some (repl, rest) ->
  exists ws cl,
    s = COMMA :: ws ++ cl :: rest /\ repl = ws ++ [cl]
    /\ Forall (fun c => is_ws c = true) ws /\ is_closer cl = true.
Proof.
  unfold trailing_comma_re, lit. destruct s as [|c s]; [discriminate|].
  simpl. destruct (N.eqb_spec c COMMA) as [->|]; [|discriminate].
  simpl. intros H. apply star_result in H.
  destruct H as (ws & rest' & -> & Hws & Hk).
  unfold one in Hk. destruct rest' as [|cl rest']; [discriminate|].
  destruct (is_closer cl) eqn:Ec; [|discriminate].
  unfold done in Hk. inversion Hk; subst. exists ws, cl. auto.
Qed.

Lemma stripTrailingCommas_comma_free : forall n s,
  (length s <= n)%nat -> comma_free s (stripTrailingCommas s).
Proof.
  unfold stripTrailingCommas, replace_all.
  induction n as [|n IH]; intros s Hn.
  - destruct s; [constructor|simpl in Hn; lia].
  - destruct s as [|c s]; [constructor|]. simpl in Hn.
    cbn [replace_from].
    destruct (trailing_comma_re (c :: s)) as [[repl rest]|] eqn:E.
    + apply trailing_comma_match in E.
      destruct E as (ws & cl & Hs & -> & Hws & Hcl).
      inversion Hs; subst c s.
      replace (length (ws ++ cl :: rest) - length rest)%nat
        with (length (ws ++ [cl])) by (rewrite !length_app; simpl; lia).
      replace (ws ++ cl :: rest) with ((ws ++ [cl]) ++ rest)
        by (rewrite <- app_assoc; reflexivity).
      rewrite replace_from_skip.
      assert (Hrest : comma_free rest (replace_from trailing_comma_re O rest)).
      { apply IH. rewrite !length_app in Hn. simpl in Hn. lia. }
      assert (Hcf : comma_free ((ws ++ [cl]) ++ rest)
                      ((ws ++ [cl]) ++ replace_from trailing_comma_re O rest))
        by (apply comma_free_app, Hrest).
      destruct ws as [|w ws].
      * simpl in *. apply cf_drop; [| |exact Hcf];
          unfold is_closer in Hcl; apply orb_true_iff in Hcl;
          destruct Hcl as [Hc|Hc]; apply N.eqb_eq in Hc; subst; reflexivity.
      * simpl in *. inversion Hws; subst.
        destruct (ws_plain w H1) as (Hq & Hb & _).
        apply cf_drop; assumption.
    + constructor. apply IH. lia.
Qed.

Lemma stripTrailingCommas_scan s :
  lit_run Outside (stripTrailingCommas s) = lit_run Outside s
  /\ forall c, bracket c ->
       count_outside c (stripTrailingCommas s) = count_outside c s.
Proof.
  destruct (comma_free_scan _ _ (stripTrailingCommas_comma_free _ s (le_n _)) Outside)
    as [H1 H2].
  split; [symmetry; exact H1|].
  intros c Hc. symmetry. apply H2.
  destruct Hc as [-> | [-> | [-> | ->]]]; discriminate.
Qed.

(** After [finish], the closers outside string literals are the openers
    and the stray closers. *)
Lemma finish_closes st sb sk :
  scan_inv st sb sk ->
  inString st && escaped st = false ->
  count_outside RBRACE (finish st)
  = (count_outside LBRACE (finish st) + sb)%nat
  /\ count_outside RBRACKET (finish st)
     = (count_outside LBRACKET (finish st) + sk)%nat.
Proof.
  intros [Hpos Hbrace Hbracket] Hesc.
  unfold finish.
  set (r1 := fst (if inString st then (result st ++ [QUOTE], Some QUOTE)
                  else (result st, lastNonWhitespaceChar st))).
  set (l1 := snd (if inString st then (result st ++ [QUOTE], Some QUOTE)
                  else (result st, lastNonWhitespaceChar st))).
  replace (if inString st then (result st ++ [QUOTE], Some QUOTE)
           else (result st, lastNonWhitespaceChar st)) with (r1, l1)
    by (subst r1 l1; destruct (inString st); reflexivity).
  assert (H1 : lit_run Outside r1 = Outside
               /\ forall c, bracket c -> count_outside c r1 = count_outside c (result st)).
  { subst r1. destruct (inString st); simpl in *.
    - destruct (escaped st); [discriminate Hesc|]. simpl in Hpos.
      split; [rewrite lit_run_snoc, Hpos; reflexivity|].
      intros c Hc. rewrite count_snoc, Hpos. simpl. lia.
    - auto. }
  destruct H1 as [Hout1 Hcnt1].
  set (r2 := match l1 with
             | Some c =>
                 if c =? COMMA
                 then let r := trimEnd r1 in
                      if endsWith r [COMMA] then dropLast r else r
                 else r1
             | None => r1
             end).
  assert (H2 : exists junk, r1 = r2 ++ junk /\ Forall plain junk).
  { subst r2. destruct l1 as [c|]; [|exists []; rewrite app_nil_r; auto].
    destruct (c =? COMMA); [|exists []; rewrite app_nil_r; auto].
    cbv zeta. destruct (trimEnd_spec r1) as (w & Hw1 & Hw2).
    assert (Hpw : Forall plain w)
      by (eapply Forall_impl; [|exact Hw2]; intros a Ha; apply ws_plain, Ha).
    destruct (endsWith (trimEnd r1) [COMMA]) eqn:Ee.
    - apply endsWith_last in Ee. exists (COMMA :: w). split.
      + rewrite Hw1 at 1. rewrite Ee at 1. rewrite <- app_assoc. reflexivity.
      + constructor; [apply comma_plain|exact Hpw].
    - exists w. auto. }
  destruct H2 as (junk & Hr1 & Hjunk).
  rewrite Hr1 in Hout1.
  destruct (drop_plain_suffix junk r2 Hjunk Hout1) as [Hout2 Hcnt2].
  destruct (emit_closers (stack st) r2 Hout2) as [_ Hcnt3].
  destruct (stripTrailingCommas_scan (r2 ++ map closer_of (stack st))) as [_ Hcnt4].
  assert (Hres : forall c, bracket c -> count_outside c r2 = count_outside c (result st)).
  { intros c Hc. rewrite <- (Hcnt1 c Hc), Hr1, (Hcnt2 c Hc). reflexivity. }
  destruct (closers_opener (stack st)) as [Hz1 Hz2].
  cbv zeta. fold r2.
  rewrite !Hcnt4, !Hcnt3, !Hres, Hz1, Hz2 by (unfold bracket; auto).
  lia.
Qed.

(* ------------------------------------------------------------------ *)
(** ** Valid JSON is balanced *)
(* ------------------------------------------------------------------ *)

Lemma plain_prefix w rest c :
  Forall plain w -> bracket c ->
  count_from Outside c (w ++ rest) = count_from Outside c rest.
Proof.
  intros Hw Hc. induction Hw as [|x w Hx _ IH]; [reflexivity|].
  change ((x :: w) ++ rest) with (x :: (w ++ rest)). cbn [count_from].
  rewrite (plain_not_bracket x c Hx Hc). destruct Hx as (Hq & _).
  cbn [lit_step is_outside andb]. rewrite Hq. exact IH.
Qed.

Lemma plain_of_range x :
  (x =? QUOTE) = false -> (x =? BACKSLASH) = false ->
  (x =? LBRACE) = false -> (x =? LBRACKET) = false ->
  (x =? RBRACE) = false -> (x =? RBRACKET) = false -> plain x.
Proof.
  intros. unfold plain, is_opener, is_closer.
  repeat split; try assumption; apply orb_false_iff; auto.
Qed.

Ltac range_plain :=
  apply plain_of_range; apply N.eqb_neq; lia.

Lemma digit_plain x : is_digit x = true -> plain x.
Proof.
  unfold is_digit. intros H. apply andb_true_iff in H. destruct H as [H1 H2].
  apply N.leb_le in H1, H2. range_plain.
Qed.

Lemma hex_plain x v : JSON.hex_val x = Some v -> plain x.
Proof.
  unfold JSON.hex_val, is_digit.
  destruct (N.leb_spec 48 x), (N.leb_spec x 57); simpl;
    [intros _; range_plain| | |];
    (destruct (N.leb_spec 97 x), (N.leb_spec x 102); simpl;
     [intros _; range_plain| | |]);
    (destruct (N.leb_spec 65 x), (N.leb_spec x 70); simpl;
     [intros _; range_plain| | |]); discriminate.
Qed.

Lemma count_inside_escape c e s :
  count_from Inside c (BACKSLASH :: e :: s) = count_from Inside c s.
Proof. reflexivity. Qed.

Lemma count_inside_other c x s :
  (x =? QUOTE) = false -> (x =? BACKSLASH) = false ->
  count_from Inside c (x :: s) = count_from Inside c s.
Proof.
  intros Hq Hb. cbn [count_from lit_step is_outside andb].
  rewrite Hb, Hq. reflexivity.
Qed.

Lemma count_inside_plain c x s :
  plain x -> count_from Inside c (x :: s) = count_from Inside c s.
Proof. intros (Hq & Hb & _). apply count_inside_other; assumption. Qed.

(** Reading a string literal to its closing quote meets no delimiter
    outside a string. *)
Lemma lex_string_count c : forall n s acc str r,
  (length s <= n)%nat ->
  JSON.lex_string s acc = Some (str, r) ->
  count_from Inside c s = count_from Outside c r.
Proof.
  induction n as [|n IH]; intros s acc str r Hn H.
  - destruct s; [discriminate H|simpl in Hn; lia].
  - destruct s as [|x s]; [discriminate H|]. simpl in Hn.
    cbn [JSON.lex_string] in H.
    destruct (N.eqb_spec x QUOTE) as [->|Eq].
    { inversion H; subst. reflexivity. }
    destruct (N.eqb_spec x BACKSLASH) as [->|Eb].
    { destruct s as [|e s1]; [discriminate H|].
      rewrite count_inside_escape.
      destruct (e =? 117).
      - destruct s1 as [|h1 [|h2 [|h3 [|h4 s2]]]]; try discriminate H.
        destruct (JSON.hex4 h1 h2 h3 h4) as [u|] eqn:Eh; [|discriminate H].
        unfold JSON.hex4 in Eh.
        destruct (JSON.hex_val h1) eqn:E1; [|discriminate Eh].
        destruct (JSON.hex_val h2) eqn:E2; [|discriminate Eh].
        destruct (JSON.hex_val h3) eqn:E3; [|discriminate Eh].
        destruct (JSON.hex_val h4) eqn:E4; [|discriminate Eh].
        apply hex_plain in E1, E2, E3, E4.
        rewrite !count_inside_plain by assumption.
        eapply IH; [|exact H]. simpl in Hn. lia.
      - destruct (JSON.escape_char e); [|discriminate H].
        eapply IH; [|exact H]. simpl in Hn. lia. }
    destruct (x <? 32); [discriminate H|].
    apply N.eqb_neq in Eq, Eb. rewrite count_inside_other by assumption.
    eapply IH; [|exact H]. lia.
Qed.

Lemma span_spec p : forall s a b,
  JSON.span p s = (a, b) -> s = a ++ b /\ Forall (fun c => p c = true) a.
Proof.
  induction s as [|c s IH]; intros a b H; simpl in H.
  - inversion H; subst. auto.
  - destruct (p c) eqn:E.
    + destruct (JSON.span p s) as [a' b'] eqn:Es. inversion H; subst.
      destruct (IH a' b eq_refl) as [-> Ha]. auto.
    + inversion H; subst. auto.
Qed.

Lemma num_char_plain c : num_char c = true -> plain c.
Proof.
  unfold num_char. rewrite !orb_true_iff, !N.eqb_eq.
  intros [[[[[H|H]|H]|H]|H]|H]; [apply digit_plain, H| | | | |];
    subst; repeat split.
Qed.

Lemma digits_num a : Forall (fun c => is_digit c = true) a ->
  Forall (fun c => num_char c = true) a.
Proof.
  apply Forall_impl. intros c H. unfold num_char. rewrite H. reflexivity.
Qed.

Lemma opt_sign_spec allowed s a b :
  (forall c, allowed c = true -> num_char c = true) ->
  JSON.opt_sign allowed s = (a, b) ->
  s = a ++ b /\ Forall (fun c => num_char c = true) a.
Proof.
  intros Hal H. unfold JSON.opt_sign in H. destruct s as [|c s].
  - inversion H; subst. auto.
  - destruct (allowed c) eqn:E; inversion H; subst; auto.
Qed.

Lemma int_part_spec s a b :
  JSON.int_part s = Some (a, b) ->
  s = a ++ b /\ Forall (fun c => num_char c = true) a /\ a <> [].
Proof.
  unfold JSON.int_part. destruct s as [|d s]; [discriminate|].
  destruct (N.eqb_spec d 48) as [->|].
  - intros H. inversion H; subst. repeat split; [|discriminate].
    constructor; [reflexivity|constructor].
  - destruct (is_digit d) eqn:Ed; [|discriminate].
    destruct (JSON.span is_digit s) as [ds r] eqn:Es.
    intros H. inversion H; subst.
    destruct (span_spec _ _ _ _ Es) as [-> Hds].
    repeat split; [|discriminate].
    apply digits_num. constructor; assumption.
Qed.

Lemma frac_part_spec s a b :
  JSON.frac_part s = Some (a, b) ->
  s = a ++ b /\ Forall (fun c => num_char c = true) a.
Proof.
  unfold JSON.frac_part. destruct s as [|c s].
  - intros H. inversion H; subst. auto.
  - destruct (N.eqb_spec c 46) as [->|].
    + destruct (JSON.span is_digit s) as [[|d ds] r] eqn:Es; [discriminate|].
      intros H. inversion H; subst.
      destruct (span_spec _ _ _ _ Es) as [-> Hds]. split; [reflexivity|].
      constructor; [reflexivity|apply digits_num, Hds].
    + intros H. inversion H; subst. auto.
Qed.

Lemma exp_part_spec s a b :
  JSON.exp_part s = Some (a, b) ->
  s = a ++ b /\ Forall (fun c => num_char c = true) a.
Proof.
  unfold JSON.exp_part. destruct s as [|c s].
  - intros H. inversion H; subst. auto.
  - destruct ((c =? 101) || (c =? 69)) eqn:Ec.
    + destruct (JSON.opt_sign (fun x => (x =? 43) || (x =? 45)) s) as [sg r1] eqn:Esg.
      destruct (JSON.span is_digit r1) as [[|d ds] r] eqn:Es; [discriminate|].
      intros H. inversion H; subst.
      destruct (span_spec _ _ _ _ Es) as [-> Hds].
      apply opt_sign_spec in Esg.
      2:{ intros x Hx. unfold num_char. apply orb_true_iff in Hx.
          destruct Hx as [Hx|Hx]; rewrite Hx; rewrite ?orb_true_r; reflexivity. }
      destruct Esg as [-> Hsg]. split.
      * simpl. rewrite <- app_assoc. reflexivity.
      * constructor.
        -- unfold num_char. apply orb_true_iff in Ec.
           destruct Ec as [Hx|Hx]; rewrite Hx; rewrite ?orb_true_r; reflexivity.
        -- apply Forall_app. split; [exact Hsg|apply digits_num, Hds].
    + intros H. inversion H; subst. auto.
Qed.

Lemma lex_number_spec s n r :
  JSON.lex_number s = Some (n, r) ->
  exists w, s = w ++ r /\ Forall plain w /\ w <> [].
Proof.
  unfold JSON.lex_number.
  destruct (JSON.opt_sign (fun c => c =? 45) s) as [sign s1] eqn:E0.
  destruct (JSON.int_part s1) as [[int s2]|] eqn:E1; [|discriminate].
  destruct (JSON.frac_part s2) as [[fr s3]|] eqn:E2; [|discriminate].
  destruct (JSON.exp_part s3) as [[ex s4]|] eqn:E3; [|discriminate].
  intros H. inversion H; subst.
  apply opt_sign_spec in E0.
  2:{ intros x Hx. unfold num_char. rewrite Hx, ?orb_true_r. reflexivity. }
  destruct E0 as [-> H0].
  apply int_part_spec in E1. destruct E1 as (-> & H1 & Hne).
  apply frac_part_spec in E2. destruct E2 as [-> H2].
  apply exp_part_spec in E3. destruct E3 as [-> H3].
  exists (sign ++ int ++ fr ++ ex). split; [|split].
  - rewrite <- !app_assoc. reflexivity.
  - eapply Forall_impl; [intros a Ha; apply num_char_plain, Ha|].
    repeat (apply Forall_app; split); assumption.
  - intros E. apply app_eq_nil in E. destruct E as [_ E].
    apply app_eq_nil in E. destruct E as [E _]. contradiction.
Qed.

Lemma json_ws_plain c : JSON.json_ws c = true -> plain c.
Proof.
  unfold JSON.json_ws. rewrite !orb_true_iff, !N.eqb_eq.
  intros [[[H|H]|H]|H]; subst; repeat split.
Qed.

Lemma tok_count_cons c t ts :
  tok_count c (t :: ts)
  = ((if is_tok c t then 1 else 0) + tok_count c ts)%nat.
Proof. unfold tok_count. simpl. destruct (is_tok c t); reflexivity. Qed.

Lemma letters_plain w :
  forallb (fun c => (97 <=? c) && (c <=? 122)) w = true -> Forall plain w.
Proof.
  intros H. apply Forall_forall. intros x Hx.
  rewrite forallb_forall in H. specialize (H x Hx).
  apply andb_true_iff in H. destruct H as [H1 H2]. apply N.leb_le in H1, H2.
  range_plain.
Qed.

(** The delimiters outside the string literals of a text are its
    delimiter tokens. *)
Lemma lex_count c : bracket c -> forall fuel s ts,
  JSON.lex fuel s = Some ts -> count_outside c s = tok_count c ts.
Proof.
  intros Hc. unfold count_outside.
  induction fuel as [|fuel IH]; intros s ts H; [discriminate H|].
  cbn [JSON.lex] in H. destruct s as [|x s].
  { inversion H; subst. reflexivity. }
  destruct (JSON.json_ws x) eqn:Ews.
  { rewrite <- (IH _ _ H). apply (plain_prefix [x] s c); [|exact Hc].
    constructor; [apply json_ws_plain, Ews|constructor]. }
  assert (Hpunct : forall t rest,
            (x =? QUOTE) = false ->
            is_tok c t = (x =? c) ->
            option_map (cons t) (JSON.lex fuel rest) = Some ts ->
            rest = s ->
            count_from Outside c (x :: s) = tok_count c ts).
  { intros t rest Hq Ht Hl ->. destruct (JSON.lex fuel s) as [ts'|] eqn:El; [|discriminate Hl].
    inversion Hl; subst. rewrite tok_count_cons, Ht, <- (IH _ _ El).
    cbn [count_from lit_step is_outside andb]. rewrite Hq. reflexivity. }
  destruct (N.eqb_spec x LBRACE) as [->|E1].
  { apply (Hpunct JSON.TLBrace s); auto. apply N.eqb_sym. }
  destruct (N.eqb_spec x RBRACE) as [->|E2].
  { apply (Hpunct JSON.TRBrace s); auto. apply N.eqb_sym. }
  destruct (N.eqb_spec x LBRACKET) as [->|E3].
  { apply (Hpunct JSON.TLBracket s); auto. apply N.eqb_sym. }
  destruct (N.eqb_spec x RBRACKET) as [->|E4].
  { apply (Hpunct JSON.TRBracket s); auto. apply N.eqb_sym. }
  assert (Hxc : (x =? c) = false).
  { destruct Hc as [-> | [-> | [-> | ->]]]; apply N.eqb_neq; assumption. }
  destruct (N.eqb_spec x COLON) as [->|E5].
  { apply (Hpunct JSON.TColon s); auto. }
  destruct (N.eqb_spec x COMMA) as [->|E6].
  { apply (Hpunct JSON.TComma s); auto. }
  assert (Hvalue : forall t w rest,
            Forall plain w -> x :: s = w ++ rest -> is_tok c t = false ->
            option_map (cons t) (JSON.lex fuel rest) = Some ts ->
            count_from Outside c (x :: s) = tok_count c ts).
  { intros t w rest Hw Hs Ht Hl.
    destruct (JSON.lex fuel rest) as [ts'|] eqn:El; [|discriminate Hl].
    inversion Hl; subst. rewrite tok_count_cons, Ht, <- (IH _ _ El), Hs.
    apply plain_prefix; assumption. }
  destruct (N.eqb_spec x QUOTE) as [->|E7].
  { destruct (JSON.lex_string s []) as [[str r]|] eqn:Es; [|discriminate H].
    destruct (JSON.lex fuel r) as [ts'|] eqn:El; [|discriminate H].
    inversion H; subst. rewrite tok_count_cons, <- (IH _ _ El).
    cbn [count_from lit_step is_outside andb is_tok N.eqb Pos.eqb].
    destruct Hc as [-> | [-> | [-> | ->]]]; cbn [N.eqb Pos.eqb Nat.add];
      apply (lex_string_count _ _ s [] str r (le_n _) Es). }
  destruct ((x =? 45) || is_digit x).
  { destruct (JSON.lex_number (x :: s)) as [[n r]|] eqn:En; [|discriminate H].
    destruct (lex_number_spec _ _ _ En) as (w & Hs & Hw & _).
    apply (Hvalue (JSON.TNumber n) w r); auto. }
  destruct (startsWith (x :: s) (js "true")) eqn:Et.
  { apply (Hvalue JSON.TTrue (js "true") (skipn 4 (x :: s))); auto.
    - apply letters_plain. reflexivity.
    - apply (startsWith_app _ _ Et). }
  destruct (startsWith (x :: s) (js "false")) eqn:Ef.
  { apply (Hvalue JSON.TFalse (js "false") (skipn 5 (x :: s))); auto.
    - apply letters_plain. reflexivity.
    - apply (startsWith_app _ _ Ef). }
  destruct (startsWith (x :: s) (js "null")) eqn:Enl; [|discriminate H].
  apply (Hvalue JSON.TNull (js "null") (skipn 4 (x :: s))); auto.
  - apply letters_plain. reflexivity.
  - apply (startsWith_app _ _ Enl).
Qed.

Ltac tok_arith :=
  unfold consumed in *; rewrite ?tok_count_cons in *;
  cbn [is_tok N.eqb Pos.eqb] in *; lia.

Lemma parse_balance : forall fuel,
  (forall ts v r, JSON.parse_value fuel ts = Some (v, r) -> consumed ts r 0 0)
  /\ (forall ts vs r,
        JSON.parse_elements fuel ts = Some (vs, r) -> consumed ts r 0 1)
  /\ (forall ts ms r,
        JSON.parse_members fuel ts = Some (ms, r) -> consumed ts r 1 0).
Proof.
  induction fuel as [|fuel (IHv & IHe & IHm)].
  - repeat split; intros; discriminate.
  - split; [|split].
    + intros ts v r H. cbn [JSON.parse_value] in H.
      destruct ts as [|t ts]; [discriminate H|].
      destruct t; try discriminate H;
        try (inversion H; subst; tok_arith).
      * (* an object *)
        destruct ts as [|t' ts']; [|destruct t'];
          try (inversion H; subst; tok_arith);
          (destruct (JSON.parse_members fuel _) as [[ms r']|] eqn:Em;
           [|discriminate H]; inversion H; subst;
           apply IHm in Em; tok_arith).
      * (* an array *)
        destruct ts as [|t' ts']; [|destruct t'];
          try (inversion H; subst; tok_arith);
          (destruct (JSON.parse_elements fuel _) as [[vs r']|] eqn:Ee;
           [|discriminate H]; inversion H; subst;
           apply IHe in Ee; tok_arith).
    + intros ts vs r H. cbn [JSON.parse_elements] in H.
      destruct (JSON.parse_value fuel ts) as [[v [|t r1]]|] eqn:Ev;
        try discriminate H.
      apply IHv in Ev.
      destruct t; try discriminate H.
      * inversion H; subst. tok_arith.
      * destruct (JSON.parse_elements fuel r1) as [[vs' r']|] eqn:Ee;
          [|discriminate H].
        inversion H; subst. apply IHe in Ee. tok_arith.
    + intros ts ms r H. cbn [JSON.parse_members] in H.
      destruct ts as [|t [|t' ts']]; try discriminate H;
        destruct t; try discriminate H.
      destruct t'; try discriminate H.
      destruct (JSON.parse_value fuel ts') as [[v [|t r1]]|] eqn:Ev;
        try discriminate H.
      apply IHv in Ev.
      destruct t; try discriminate H.
      * inversion H; subst. tok_arith.
      * destruct (JSON.parse_members fuel r1) as [[ms' r']|] eqn:Em;
          [|discriminate H].
        inversion H; subst. apply IHm in Em. tok_arith.
Qed.

(** A text that [JSON.parse] accepts has as many closers as openers of
    each kind outside its string literals. *)
Lemma parses_balanced text :
  JSON.parses text = true ->
  count_outside LBRACE text = count_outside RBRACE text
  /\ count_outside LBRACKET text = count_outside RBRACKET text.
Proof.
  unfold JSON.parses, JSON.parse.
  destruct (JSON.lex (S (length text)) text) as [ts|] eqn:El; [|discriminate].
  destruct (JSON.parse_value (2 * length ts + 2) ts) as [[v [|t r]]|] eqn:Ep;
    try discriminate.
  intros _. apply (proj1 (parse_balance _)) in Ep.
  rewrite !(fun c Hc => lex_count c Hc _ _ _ El) by (unfold bracket; auto).
  unfold consumed, tok_count in *. simpl in Ep. unfold tok_count. lia.
Qed.

(* ------------------------------------------------------------------ *)
(** ** The fuel of the loops *)
(* ------------------------------------------------------------------ *)

Lemma indexOf_bound c : forall s i, indexOf s c = Some i -> (i < length s)%nat.
Proof.
  induction s as [|x s IH]; intros i H; simpl in H; [discriminate H|].
  destruct (x =? c).
  - inversion H; subst. simpl. lia.
  - destruct (indexOf s c) as [j|]; [|discriminate H].
    inversion H; subst. simpl. specialize (IH j eq_refl). lia.
Qed.

Lemma scan_angle_rest : forall s inside,
  match scan_angle s inside with
  | FoundGt _ rest => (length rest < length s)%nat
  | FoundNextLt _ rest => (length rest <= length s)%nat
  | FoundNone => True
  end.
Proof.
  induction s as [|ch s IH]; intros inside; simpl; [exact I|].
  destruct (ch =? GT); [lia|].
  destruct (ch =? LT); [simpl; lia|].
  specialize (IH (inside ++ [ch])).
  destruct (scan_angle s (inside ++ [ch])); simpl; lia || exact I.
Qed.

(** The loop of [autoCloseAngleBrackets] ends: the fuel it is given never
    runs out. *)
Lemma autoClose_loop_ends : forall fuel s out,
  (length s < fuel)%nat -> exists r, autoClose_loop fuel s out = Some r.
Proof.
  induction fuel as [|fuel IH]; intros s out Hf; [lia|].
  cbn [autoClose_loop]. destruct s as [|c s]; [eexists; reflexivity|].
  destruct (indexOf (c :: s) LT) as [lt|] eqn:Ei; [|eexists; reflexivity].
  apply indexOf_bound in Ei.
  pose proof (scan_angle_rest (skipn (S lt) (c :: s)) []) as Hr.
  assert (Hs : (length (skipn (S lt) (c :: s)) < length (c :: s))%nat)
    by (rewrite length_skipn; lia).
  destruct (scan_angle (skipn (S lt) (c :: s)) []) as [inside rest|inside rest|];
    [apply IH; lia|apply IH; lia|eexists; reflexivity].
Qed.

Lemma autoCloseAngleBrackets_result input :
  autoClose_loop (S (length input)) input []
  = Some (autoCloseAngleBrackets input).
Proof.
  unfold autoCloseAngleBrackets.
  destruct (autoClose_loop_ends (S (length input)) input [] (Nat.lt_succ_diag_r _))
    as [r ->].
  reflexivity.
Qed.

Lemma lex_string_rest : forall n s acc str r,
  (length s <= n)%nat ->
  JSON.lex_string s acc = Some (str, r) -> (length r < length s)%nat.
Proof.
  induction n as [|n IH]; intros s acc str r Hn H.
  - destruct s; [discriminate H|simpl in Hn; lia].
  - destruct s as [|x s]; [discriminate H|]. simpl in Hn.
    cbn [JSON.lex_string] in H.
    destruct (x =? QUOTE); [inversion H; subst; simpl; lia|].
    destruct (x =? BACKSLASH).
    + destruct s as [|e s1]; [discriminate H|].
      destruct (e =? 117).
      * destruct s1 as [|h1 [|h2 [|h3 [|h4 s2]]]]; try discriminate H.
        destruct (JSON.hex4 h1 h2 h3 h4); [|discriminate H].
        apply IH in H; simpl in *; lia.
      * destruct (JSON.escape_char e); [|discriminate H].
        apply IH in H; simpl in *; lia.
    + destruct (x <? 32); [discriminate H|].
      apply IH in H; simpl in *; lia.
Qed.

(** The lexer's result does not depend on the fuel, once there is more of
    it than characters: [JSON.parse] rejects no text for want of fuel. *)
Lemma lex_fuel : forall f1 f2 s,
  (length s < f1)%nat -> (length s < f2)%nat -> JSON.lex f1 s = JSON.lex f2 s.
Proof.
  induction f1 as [|f1 IH]; intros f2 s H1 H2; [lia|].
  destruct f2 as [|f2]; [lia|].
  cbn [JSON.lex]. destruct s as [|x s]; [reflexivity|]. simpl in H1, H2.
  assert (Htail : JSON.lex f1 s = JSON.lex f2 s) by (apply IH; lia).
  destruct (JSON.json_ws x); [exact Htail|].
  repeat (match goal with
          | |- (if ?b then option_map _ (JSON.lex f1 s) else _) = _ =>
              destruct b; [rewrite Htail; reflexivity|]
          end).
  destruct (x =? QUOTE).
  { destruct (JSON.lex_string s []) as [[str r]|] eqn:Es; [|reflexivity].
    apply (lex_string_rest _ _ _ _ _ (le_n _)) in Es.
    rewrite (IH f2 r) by lia. reflexivity. }
  destruct ((x =? 45) || is_digit x).
  { destruct (JSON.lex_number (x :: s)) as [[n r]|] eqn:En; [|reflexivity].
    destruct (lex_number_spec _ _ _ En) as (w & Hs & _ & Hw).
    assert (length r < length (x :: s))%nat.
    { rewrite Hs, length_app. destruct w; [contradiction|simpl; lia]. }
    simpl in H. rewrite (IH f2 r) by lia. reflexivity. }
  assert (Hskip : forall n, JSON.lex f1 (skipn n s) = JSON.lex f2 (skipn n s)).
  { intros n. pose proof (length_skipn n s). apply IH; lia. }
  change (skipn 4 (x :: s)) with (skipn 3 s).
  change (skipn 5 (x :: s)) with (skipn 4 s).
  rewrite !Hskip. reflexivity.
Qed.

Lemma parse_shrinks : forall fuel,
  (forall ts v r,
      JSON.parse_value fuel ts = Some (v, r) -> (length r < length ts)%nat)
  /\ (forall ts vs r,
        JSON.parse_elements fuel ts = Some (vs, r) ->
        (length r < length ts)%nat)
  /\ (forall ts ms r,
        JSON.parse_members fuel ts = Some (ms, r) ->
        (length r < length ts)%nat).
Proof.
  induction fuel as [|fuel (IHv & IHe & IHm)].
  - repeat split; intros; discriminate.
  - split; [|split].
    + intros ts v r H. cbn [JSON.parse_value] in H.
      destruct ts as [|t ts]; [discriminate H|].
      destruct t; try discriminate H;
        try (inversion H; subst; simpl; lia).
      * destruct ts as [|t' ts']; [|destruct t'];
          try (inversion H; subst; simpl; lia);
          (destruct (JSON.parse_members fuel _) as [[ms r']|] eqn:Em;
           [|discriminate H]; inversion H; subst;
           apply IHm in Em; simpl in *; lia).
      * destruct ts as [|t' ts']; [|destruct t'];
          try (inversion H; subst; simpl; lia);
          (destruct (JSON.parse_elements fuel _) as [[vs r']|] eqn:Ee;
           [|discriminate H]; inversion H; subst;
           apply IHe in Ee; simpl in *; lia).
    + intros ts vs r H. cbn [JSON.parse_elements] in H.
      destruct (JSON.parse_value fuel ts) as [[v [|t r1]]|] eqn:Ev;
        try discriminate H.
      apply IHv in Ev.
      destruct t; try discriminate H.
      * inversion H; subst. simpl in *. lia.
      * destruct (JSON.parse_elements fuel r1) as [[vs' r']|] eqn:Ee;
          [|discriminate H].
        inversion H; subst. apply IHe in Ee. simpl in *. lia.
    + intros ts ms r H. cbn [JSON.parse_members] in H.
      destruct ts as [|t [|t' ts']]; try discriminate H;
        destruct t; try discriminate H.
      destruct t'; try discriminate H.
      destruct (JSON.parse_value fuel ts') as [[v [|t r1]]|] eqn:Ev;
        try discriminate H.
      apply IHv in Ev.
      destruct t; try discriminate H.
      * inversion H; subst. simpl in *. lia.
      * destruct (JSON.parse_members fuel r1) as [[ms' r']|] eqn:Em;
          [|discriminate H].
        inversion H; subst. apply IHm in Em. simpl in *. lia.
Qed.

(** The parser's result does not depend on the fuel, once there is more of
    it than twice the tokens. *)
Lemma parse_fuel : forall f1,
  (forall f2 ts, (2 * length ts < f1)%nat -> (2 * length ts < f2)%nat ->
     JSON.parse_value f1 ts = JSON.parse_value f2 ts)
  /\ (forall f2 ts, (2 * length ts + 1 < f1)%nat -> (2 * length ts + 1 < f2)%nat ->
        JSON.parse_elements f1 ts = JSON.parse_elements f2 ts)
  /\ (forall f2 ts, (2 * length ts + 1 < f1)%nat -> (2 * length ts + 1 < f2)%nat ->
        JSON.parse_members f1 ts = JSON.parse_members f2 ts).
Proof.
  induction f1 as [|f1 (IHv & IHe & IHm)].
  - repeat split; intros; lia.
  - split; [|split].
    + intros f2 ts H1 H2. destruct f2 as [|f2]; [lia|].
      cbn [JSON.parse_value].
      destruct ts as [|t ts]; [reflexivity|].
      destruct t; try reflexivity; simpl in H1, H2.
      * destruct ts as [|t' ts']; [|destruct t']; try reflexivity;
          rewrite (IHm f2) by (simpl in *; lia); reflexivity.
      * destruct ts as [|t' ts']; [|destruct t']; try reflexivity;
          rewrite (IHe f2) by (simpl in *; lia); reflexivity.
    + intros f2 ts H1 H2. destruct f2 as [|f2]; [lia|].
      cbn [JSON.parse_elements].
      rewrite (IHv f2 ts) by lia.
      destruct (JSON.parse_value f2 ts) as [[v [|t r1]]|] eqn:Ev; try reflexivity.
      apply (proj1 (parse_shrinks f2)) in Ev. simpl in Ev.
      destruct t; try reflexivity.
      rewrite (IHe f2 r1) by lia. reflexivity.
    + intros f2 ts H1 H2. destruct f2 as [|f2]; [lia|].
      cbn [JSON.parse_members].
      destruct ts as [|t [|t' ts']]; try reflexivity;
        destruct t; try reflexivity.
      destruct t'; try reflexivity. simpl in H1, H2.
      rewrite (IHv f2 ts') by lia.
      destruct (JSON.parse_value f2 ts') as [[v [|t r1]]|] eqn:Ev; try reflexivity.
      apply (proj1 (parse_shrinks f2)) in Ev. simpl in Ev.
      destruct t; try reflexivity.
      rewrite (IHm f2 r1) by lia. reflexivity.
Qed.

(* ------------------------------------------------------------------ *)
(** ** The brackets of the output of [fixJSON] *)
(* ------------------------------------------------------------------ *)

(** C3 as stated fails: a closer that nothing opened is copied, so
    [fixJSON] of a lone closing brace is that brace. *)
Lemma fixJSON_copies_stray_closer :
  ~ (forall input : jsstring,
       count_outside LBRACE (fixJSON input) = count_outside RBRACE (fixJSON input)
       /\ count_outside LBRACKET (fixJSON input)
          = count_outside RBRACKET (fixJSON input)).
Proof.
  intros H. destruct (H (js "}")) as [H1 _]. vm_compute in H1. discriminate H1.
Qed.

(** C3, amended.  When the scan does not end inside a string literal with
    a pending backslash escape, the output of [fixJSON] closes every
    opener: outside its string literals it has at most as many opening
    braces as closing ones, and likewise for brackets; the counts of a kind
    are equal when the scan met no stray closer of that kind. *)
Theorem fixJSON_closes_every_opener :
  forall input : jsstring,
    let text := scan_text (trim input) in
    inString (scan text) && escaped (scan text) = false ->
    ((count_outside LBRACE (fixJSON input)
      <= count_outside RBRACE (fixJSON input))%nat
     /\ (count_outside LBRACKET (fixJSON input)
         <= count_outside RBRACKET (fixJSON input))%nat)
    /\ (strays RBRACE text = O ->
        count_outside LBRACE (fixJSON input)
        = count_outside RBRACE (fixJSON input))
    /\ (strays RBRACKET text = O ->
        count_outside LBRACKET (fixJSON input)
        = count_outside RBRACKET (fixJSON input)).
Proof.
  intros input text Hesc. subst text. unfold fixJSON.
  destruct (trim input) as [|c raw] eqn:Eraw;
    [repeat split; try apply le_n; reflexivity|].
  destruct (JSON.parse (c :: raw)) as [v|e] eqn:Ep.
  - destruct (parses_balanced (c :: raw)) as [H1 H2].
    + unfold JSON.parses. rewrite Ep. reflexivity.
    + rewrite H1, H2. repeat split; try apply le_n; reflexivity.
  - pose proof (finish_closes _ _ _ (scan_holds_inv (scan_text (c :: raw))) Hesc)
      as [H1 H2].
    fold (fixJSONStructure (c :: raw)) in H1, H2.
    assert (Hout :
      forall out,
        (forall k, bracket k ->
           count_outside k out = count_outside k (fixJSONStructure (c :: raw))) ->
        ((count_outside LBRACE out <= count_outside RBRACE out)%nat
         /\ (count_outside LBRACKET out <= count_outside RBRACKET out)%nat)
        /\ (strays RBRACE (scan_text (c :: raw)) = O ->
            count_outside LBRACE out = count_outside RBRACE out)
        /\ (strays RBRACKET (scan_text (c :: raw)) = O ->
            count_outside LBRACKET out = count_outside RBRACKET out)).
    { intros out Hk. rewrite !Hk by (unfold bracket; auto).
      repeat split; try lia; intros Hz; rewrite Hz in *; lia. }
    destruct (JSON.parse (fixJSONStructure (c :: raw))).
    + apply Hout. reflexivity.
    + apply Hout. intros k Hk.
      apply (proj2 (stripTrailingCommas_scan (fixJSONStructure (c :: raw)))), Hk.
Qed.

(** C3 amended, at a truncated array whose last string holds a brace. *)
Lemma fixJSON_closes_every_opener_witness :
  count_outside LBRACE (fixJSON (jq "[{'a': 1}, {'b': '}"))
  = count_outside RBRACE (fixJSON (jq "[{'a': 1}, {'b': '}")).
Proof.
  apply (fixJSON_closes_every_opener (jq "[{'a': 1}, {'b': '}"));
    vm_compute; reflexivity.
Defined.

(** The slip at the end of the text: a backslash pending inside a string
    escapes the quote that is appended to close it, and the closers that
    follow land inside the string. *)
Lemma fixJSON_pending_escape :
  fixJSON (jq "{'a\") = jq "{'a\'}"
  /\ count_outside LBRACE (fixJSON (jq "{'a\")) = 1%nat
  /\ count_outside RBRACE (fixJSON (jq "{'a\")) = 0%nat.
Proof. repeat split; vm_compute; reflexivity. Qed.

(* ------------------------------------------------------------------ *)
(** ** String literals through [fixJSON] *)
(* ------------------------------------------------------------------ *)

(** Outside a string literal no content is being read. *)
Lemma literals_outside cur s :
  literals_from Outside cur s = literals_from Outside [] s.
Proof. destruct s; reflexivity. Qed.

Lemma literals_skip_closers : forall ops s,
  literals_from Outside [] (map closer_of ops ++ s) = literals_from Outside [] s.
Proof.
  induction ops as [|o ops IH]; intros s; [reflexivity|].
  simpl map. change ((closer_of o :: map closer_of ops) ++ s)
    with (closer_of o :: (map closer_of ops ++ s)).
  cbn [literals_from].
  destruct (closer_of_cases o) as [[-> _]|[-> _]]; cbn [lit_step N.eqb Pos.eqb];
    apply IH.
Qed.

(** What one turn of the scan appends to the text it builds: the closers of
    the mismatched openers, if any, and the character read. *)
Lemma scan_step_appends st ch :
  exists ops,
    result (scan_step st ch) = result st ++ map closer_of ops ++ [ch]
    /\ (inString st = true -> ops = [])
    /\ pos_of (inString (scan_step st ch)) (escaped (scan_step st ch))
       = lit_step (pos_of (inString st) (escaped st)) ch.
Proof.
  destruct st as [stk inS esc res last]. unfold scan_step.
  cbn [inString stack result escaped lastNonWhitespaceChar].
  destruct inS.
  - exists []. cbn [inString escaped result]. repeat split.
    destruct esc; simpl; [reflexivity|].
    destruct (ch =? BACKSLASH); [reflexivity|].
    destruct (ch =? QUOTE); reflexivity.
  - destruct (ch =? QUOTE) eqn:Eq.
    { exists []. cbn [inString escaped result]. simpl. rewrite Eq.
      repeat split; try discriminate. }
    destruct (is_opener ch).
    { exists []. cbn [inString escaped result]. simpl. rewrite Eq.
      repeat split; try discriminate. }
    destruct (is_closer ch).
    + set (need := if ch =? RBRACE then LBRACE else LBRACKET).
      destruct (close_mismatched_spec need stk res last) as [l' Hl'].
      rewrite Hl'. cbn [inString escaped result].
      exists (takeWhile (fun o => negb (o =? need)) stk). simpl. rewrite Eq.
      rewrite <- app_assoc. repeat split; try discriminate.
    + exists []. cbn [inString escaped result]. simpl. rewrite Eq.
      repeat split; try discriminate.
Qed.

(** The scan copies the string literals of its text: what it inserts lies
    outside them. *)
Lemma scan_keeps_literals_from : forall text st,
  exists added,
    result (fold_left scan_step text st) = result st ++ added
    /\ forall cur,
         literals_from (pos_of (inString st) (escaped st)) cur added
         = literals_from (pos_of (inString st) (escaped st)) cur text.
Proof.
  induction text as [|ch text IH]; intros st.
  - exists []. rewrite app_nil_r. auto.
  - cbn [fold_left].
    destruct (IH (scan_step st ch)) as (added & Hres & Hlit).
    destruct (scan_step_appends st ch) as (ops & Happ & Hin & Hpos).
    rewrite Hpos in Hlit.
    exists (map closer_of ops ++ [ch] ++ added). split.
    + rewrite Hres, Happ, <- !app_assoc. reflexivity.
    + intros cur.
      destruct (inString st) eqn:Es.
      * rewrite (Hin eq_refl). cbn [map app literals_from].
        destruct (pos_of true (escaped st));
          destruct (lit_step _ ch); rewrite ?Hlit; reflexivity.
      * cbn [pos_of] in *. rewrite literals_outside, literals_skip_closers.
        rewrite (literals_outside cur (ch :: text)).
        cbn [app literals_from]. apply Hlit.
Qed.

Lemma scan_keeps_literals text :
  literals (result (scan text)) = literals text.
Proof.
  destruct (scan_keeps_literals_from text scan_init) as (added & Hres & Hlit).
  unfold scan. rewrite Hres. apply (Hlit []).
Qed.

(** C5 fails on the code: the comma clean-up removes a comma from inside a
    string literal, and the comma pre-pass inserts one inside a string
    literal. *)
Theorem fixJSON_rewrites_string_literals :
  fixJSON (jq "['a,}'") = jq "['a}']"
  /\ literals (jq "['a,}'") = [js "a,}"]
  /\ literals (fixJSON (jq "['a,}'")) = [js "a}"]
  /\ fixJSON (jq "['}{'") = jq "['},{']"
  /\ literals (jq "['}{'") = [js "}{"]
  /\ literals (fixJSON (jq "['}{'")) = [js "},{"].
Proof. repeat split; vm_compute; reflexivity. Qed.

(* ------------------------------------------------------------------ *)
(** ** [fixXMLorHTML] *)
(* ------------------------------------------------------------------ *)

(** C6 fails on the code: the closing [div] does not match the open [p]
    and leaves the stack as it is, so the closers of both open tags are
    appended after it. *)
Theorem fixXMLorHTML_unmatched_close_tag :
  fixXMLorHTML (js "<div><p>Hello</div>") no_options
  = js "<div><p>Hello</div></p></div>".
Proof. vm_compute; reflexivity. Qed.

(* ------------------------------------------------------------------ *)
(** ** Strict array extraction *)
(* ------------------------------------------------------------------ *)

(** Before the first opening bracket: nothing is recorded. *)
Lemma strict_scan_before text : forall pre rest i p,
  count_from p LBRACKET pre = O ->
  strict_scan text (pre ++ rest) i None O (in_of p) (esc_of p)
  = strict_scan text rest (i + length pre) None O
      (in_of (lit_run p pre)) (esc_of (lit_run p pre)).
Proof.
  induction pre as [|c pre IH]; intros rest i p H.
  - simpl. rewrite Nat.add_0_r. reflexivity.
  - rewrite lit_run_cons. simpl length. rewrite Nat.add_succ_r, <- Nat.add_succ_l.
    simpl in H. rewrite <- (IH rest (S i) (lit_step p c)) by lia.
    destruct p; simpl.
    + destruct (c =? QUOTE) eqn:Eq; [reflexivity|].
      destruct (c =? LBRACKET) eqn:El; [simpl in H; lia|].
      destruct (c =? RBRACKET); reflexivity.
    + destruct (c =? BACKSLASH); [reflexivity|].
      destruct (c =? QUOTE); reflexivity.
    + reflexivity.
Qed.

(** Inside the array, while the depth stays positive. *)
Ltac rewrite_flags H :=
  let H' := fresh "H'" in
  pose proof H as H'; cbn [in_of esc_of] in H'; rewrite H'; clear H'.

Lemma strict_scan_inside text b : forall body rest i d p,
  (forall q, In q (prefixes body) ->
     (count_from p RBRACKET q <= d + count_from p LBRACKET q)%nat) ->
  strict_scan text (body ++ rest) i (Some b) (S d) (in_of p) (esc_of p)
  = strict_scan text rest (i + length body) (Some b)
      (S (d + count_from p LBRACKET body - count_from p RBRACKET body))
      (in_of (lit_run p body)) (esc_of (lit_run p body)).
Proof.
  induction body as [|c body IH]; intros rest i d p H.
  - simpl. rewrite !Nat.add_0_r, Nat.sub_0_r. reflexivity.
  - assert (Hq : forall q, In q (prefixes body) ->
              (count_from p RBRACKET (c :: q) <= d + count_from p LBRACKET (c :: q))%nat)
      by (intros q Hq; apply H, prefixes_cons, Hq).
    pose proof (Hq body (prefixes_self body)) as Hall.
    pose proof (Hq [] (prefixes_nil body)) as Hone.
    rewrite lit_run_cons. simpl length. rewrite Nat.add_succ_r, <- Nat.add_succ_l.
    cbn [count_from] in *.
    destruct p; cbn [is_outside andb lit_step in_of esc_of] in *.
    + change ((c :: body) ++ rest) with (c :: (body ++ rest)). cbn [strict_scan].
      destruct (c =? QUOTE) eqn:Eq.
      { apply N.eqb_eq in Eq; subst c. cbn in Hq, Hall |- *.
        apply (IH rest (S i) d Inside). exact Hq. }
      destruct (c =? LBRACKET) eqn:El.
      { apply N.eqb_eq in El; subst c. cbn in Hq, Hall |- *.
        rewrite_flags (IH rest (S i) (S d) Outside).
        - first [reflexivity | f_equal; lia].
        - intros q Hin. specialize (Hq q Hin). lia. }
      destruct (c =? RBRACKET) eqn:Er.
      { apply N.eqb_eq in Er; subst c. cbn in Hq, Hall, Hone |- *.
        destruct d as [|d']; [lia|].
        rewrite_flags (IH rest (S i) d' Outside).
        - first [reflexivity | f_equal; lia].
        - intros q Hin. specialize (Hq q Hin). lia. }
      cbn in Hq, Hall |- *. apply (IH rest (S i) d Outside). exact Hq.
    + change ((c :: body) ++ rest) with (c :: (body ++ rest)). cbn [strict_scan].
      destruct (c =? BACKSLASH); [apply (IH rest (S i) d Escaping); exact Hq|].
      destruct (c =? QUOTE);
        [apply (IH rest (S i) d Outside) | apply (IH rest (S i) d Inside)];
        exact Hq.
    + change ((c :: body) ++ rest) with (c :: (body ++ rest)). cbn [strict_scan].
      apply (IH rest (S i) d Inside); exact Hq.
Qed.

Lemma complete_array_inv arr :
  complete_array arr = true ->
  exists body,
    arr = LBRACKET :: body ++ [RBRACKET]
    /\ lit_run Outside body = Outside
    /\ (forall q, In q (prefixes body) ->
          (count_outside RBRACKET q <= count_outside LBRACKET q)%nat)
    /\ count_outside LBRACKET body = count_outside RBRACKET body.
Proof.
  unfold complete_array. destruct arr as [|first rest]; [discriminate|].
  destruct (rev rest) as [|final rbody] eqn:E; [discriminate|].
  intros H. repeat (apply andb_true_iff in H; destruct H as [H ?]).
  exists (rev rbody).
  apply N.eqb_eq in H; subst first. apply N.eqb_eq in H3; subst final.
  split.
  - f_equal. rewrite <- (rev_involutive rest), E. reflexivity.
  - split.
    + destruct (lit_run Outside (rev rbody)); try discriminate; reflexivity.
    + split.
      * intros q Hq. rewrite forallb_forall in H1. apply Nat.leb_le, H1, Hq.
      * apply Nat.eqb_eq. assumption.
Qed.

Lemma array_block_complete (pre arr post : jsstring) :
  lit_run Outside pre = Outside ->
  count_outside LBRACKET pre = O ->
  complete_array arr = true ->
  array_block (pre ++ arr ++ post) = arr.
Proof.
  intros Hpre Hcnt Harr.
  destruct (complete_array_inv arr Harr) as (body & -> & Hend & Hpos & Hbal).
  unfold array_block.
  set (text := pre ++ (LBRACKET :: body ++ [RBRACKET]) ++ post).
  assert (E : strict_scan text text 0 None 0 false false
              = Some (LBRACKET :: body ++ [RBRACKET])).
  { unfold text at 2.
    rewrite (strict_scan_before text pre _ 0 Outside Hcnt).
    rewrite Hpre. simpl.
    rewrite <- app_assoc.
    rewrite (strict_scan_inside text (length pre) body _ (S (length pre)) 0 Outside).
    2:{ intros q Hq. specialize (Hpos q Hq). unfold count_outside in Hpos. lia. }
    rewrite Hend. unfold count_outside in Hbal. rewrite Hbal.
    simpl. replace (count_from Outside 93 body - count_from Outside 93 body)%nat with O by lia.
    f_equal. unfold text.
    match goal with
    | |- slice _ _ ?e = _ =>
        replace e with (length pre + length (LBRACKET :: body ++ [RBRACKET]))%nat
          by (simpl; rewrite length_app; simpl; lia)
    end.
    apply slice_middle. }
  rewrite E. reflexivity.
Qed.

Lemma extractJSON_body code :
  extractJSON (VString code) = Returned (VString (json_block code)).
Proof. destruct code; reflexivity. Qed.

Lemma extractJSONArrayStrict_body code :
  extractJSONArrayStrict (VString code) = Returned (VString (array_block code)).
Proof. destruct code; reflexivity. Qed.

(** C7 as stated fails: with an opening bracket before the first brace
    but no closing bracket, [extractJSON] returns the object, which is no
    slice starting at the bracket. *)
Lemma extractJSON_takes_first_opener :
  ~ (forall (code : jsstring) (a : nat),
       indexOf code LBRACKET = Some a ->
       match indexOf code LBRACE with
       | None => True
       | Some o => (a < o)%nat
       end ->
       exists e, extractJSON (VString code)
                 = Returned (VString (slice code a e))).
Proof.
  intros H.
  destruct (H (jq "[ {'a':1}") O eq_refl) as [e He].
  - vm_compute. lia.
  - vm_compute in He. destruct e as [|e]; discriminate He.
Qed.

(** C7, amended.  [extractJSONArrayStrict] returns the first complete
    top-level array: the text from the first opening bracket outside a
    string literal through the closing bracket that balances it; on the
    text of scenario 5 this is [[1,[2,3],4]].  When the scan matches
    nothing it returns what [extractJSON] returns: the slice from the first
    opening bracket through the last closing bracket when both exist and no
    opening brace comes first; otherwise the slice from the first opening
    brace through the last closing brace when both exist; otherwise the
    text unchanged. *)
Theorem extractJSONArrayStrict_first_complete_array :
  (forall pre arr post : jsstring,
      lit_run Outside pre = Outside ->
      count_outside LBRACKET pre = O ->
      complete_array arr = true ->
      extractJSONArrayStrict (VString (pre ++ arr ++ post))
      = Returned (VString arr))
  /\ extractJSONArrayStrict (VString (js "prefix text [1,[2,3],4] suffix ]"))
     = Returned (VString (js "[1,[2,3],4]"))
  /\ (forall code : jsstring,
        strict_scan code code O None O false false = None ->
        extractJSONArrayStrict (VString code) = extractJSON (VString code))
  /\ (forall (code : jsstring) (a e : nat),
        array_first code a e ->
        extractJSON (VString code)
        = Returned (VString (slice code a (e + 1))))
  /\ (forall (code : jsstring) (o e : nat),
        (forall a e', ~ array_first code a e') ->
        indexOf code LBRACE = Some o ->
        lastIndexOf code RBRACE = Some e ->
        extractJSON (VString code)
        = Returned (VString (slice code o (e + 1))))
  /\ (forall code : jsstring,
        (forall a e', ~ array_first code a e') ->
        indexOf code LBRACE = None \/ lastIndexOf code RBRACE = None ->
        extractJSON (VString code) = Returned (VString code)).
Proof.
  split.
  { intros pre arr post H1 H2 H3.
    rewrite extractJSONArrayStrict_body, array_block_complete; auto. }
  split; [vm_compute; reflexivity|].
  split.
  { intros code H. rewrite extractJSONArrayStrict_body, extractJSON_body.
    unfold array_block. rewrite H. reflexivity. }
  split.
  { intros code a e (Ha & He & Ho). rewrite extractJSON_body.
    unfold json_block. rewrite Ha, He.
    destruct (indexOf code LBRACE) as [o|]; [|reflexivity].
    apply Nat.ltb_lt in Ho. rewrite Ho. reflexivity. }
  assert (Hnot : forall code, (forall a e', ~ array_first code a e') ->
            json_block code
            = match indexOf code LBRACE, lastIndexOf code RBRACE with
              | Some os, Some oe => slice code os (oe + 1)
              | _, _ => code
              end).
  { intros code Hn. unfold json_block.
    destruct (indexOf code LBRACKET) as [a|] eqn:Ea; [|reflexivity].
    destruct (lastIndexOf code RBRACKET) as [e|] eqn:Ee; [|reflexivity].
    destruct (indexOf code LBRACE) as [o|] eqn:Eo.
    - destruct (a <? o)%nat eqn:El; [|reflexivity].
      exfalso. apply (Hn a e). unfold array_first.
      rewrite Ea, Ee, Eo. repeat split. apply Nat.ltb_lt, El.
    - exfalso. apply (Hn a e). unfold array_first.
      rewrite Ea, Ee, Eo. repeat split. }
  split.
  { intros code o e Hn Ho He. rewrite extractJSON_body, (Hnot code Hn), Ho, He.
    reflexivity. }
  { intros code Hn Hor. rewrite extractJSON_body, (Hnot code Hn).
    destruct Hor as [-> | ->]; [reflexivity|].
    destruct (indexOf code LBRACE); reflexivity. }
Qed.

(** C7 amended, at the text of scenario 5. *)
Lemma extractJSONArrayStrict_first_complete_array_witness :
  extractJSONArrayStrict
    (VString (js "prefix text " ++ js "[1,[2,3],4]" ++ js " suffix ]"))
  = Returned (VString (js "[1,[2,3],4]")).
Proof.
  apply (proj1 extractJSONArrayStrict_first_complete_array);
    vm_compute; reflexivity.
Defined.

(* ------------------------------------------------------------------ *)
(** ** [ensureExcalidrawArray] *)
(* ------------------------------------------------------------------ *)




(* ------------------------------------------------------------------ *)
(** ** Fenced blocks *)
(* ------------------------------------------------------------------ *)

Lemma closing_fence_eq payload s :
  closing_fence payload s = if startsWith s fence then Some payload else None.
Proof. reflexivity. Qed.







Lemma word_not_ws t l :
  char_eqb_ci t l = true -> is_word l = true -> is_ws t = false.
Proof.
  unfold char_eqb_ci, lower_char. intros H Hw. apply N.eqb_eq in H.
  assert (Hl : 48 <= l <= 122).
  { unfold is_word, is_alpha, is_upper, is_lower, is_digit in Hw.
    rewrite ?orb_true_iff, ?andb_true_iff, ?N.leb_le, ?N.eqb_eq in Hw. lia. }
  clear Hw.
  assert (Ht : 48 <= t <= 154).
  { unfold is_upper in H.
    destruct (N.leb_spec 65 t), (N.leb_spec t 90), (N.leb_spec 65 l),
      (N.leb_spec l 90); simpl in H; lia. }
  apply not_true_is_false. intros Hws. unfold is_ws in Hws.
  rewrite ?orb_true_iff, ?andb_true_iff, ?N.leb_le, ?N.eqb_eq in Hws. lia.
Qed.


(** A match that starts after a prefix on which the pattern cannot start
    is the leftmost one. *)
Lemma search_after_prefix {R} (m : cont R) (t : jsstring) (r : R) :
  forall pre : jsstring,
    (forall c s, In c pre -> m (c :: s) = None) ->
    m t = Some r ->
    search m (pre ++ t) = Some (length pre, r).
Proof.
  induction pre as [|c pre IH]; intros Hpre Ht.
  - simpl. destruct t; simpl; rewrite Ht; reflexivity.
  - change ((c :: pre) ++ t) with (c :: (pre ++ t)).
    cbn [search]. rewrite (Hpre c (pre ++ t) (or_introl eq_refl)).
    rewrite IH; [reflexivity| |exact Ht].
    intros c' s' Hin. apply Hpre. right. exact Hin.
Qed.

(** The tagged pattern starts at a backtick. *)
Lemma tagged_starts_at_backtick lang c s :
  c <> BACKTICK -> tagged_fence_re lang (c :: s) = None.
Proof.
  intros Hc. unfold tagged_fence_re, lit.
  cbn [fence js list_ascii_of_string map startsWith].
  change (N_of_ascii "`") with 96.
  destruct (N.eqb_spec c 96) as [E|_]; [contradiction|reflexivity].
Qed.



(* ------------------------------------------------------------------ *)
(** ** The examples of the repair notes *)
(* ------------------------------------------------------------------ *)

Example trailing_comma_removed :
  fixJSON (jq "[{'a':1}, {'b':2},]") = jq "[{'a':1}, {'b':2}]".
Proof. vm_compute; reflexivity. Qed.

Example missing_closers_appended :
  fixJSON (jq "[{'a': 1}, {'b': 2") = jq "[{'a': 1}, {'b': 2}]".
Proof. vm_compute; reflexivity. Qed.

Example nested_closers_inserted :
  fixJSON (jq "{'data': {'items': [{'name': 'a', 'value': 1 ]}")
  = jq "{'data': {'items': [{'name': 'a', 'value': 1 }]}}".
Proof. vm_compute; reflexivity. Qed.

Example brackets_in_strings_ignored :
  fixJSON (jq "{'code': 'function test() { return [1, 2]; }', 'data': {'value': 123}")
  = jq "{'code': 'function test() { return [1, 2]; }', 'data': {'value': 123}}".
Proof. vm_compute; reflexivity. Qed.

Example void_tags_left_open :
  fixXMLorHTML
    (jq "<mxCell id='1'><mxGeometry x='10' /><mxPoint x='0'><br></mxCell")
    no_options
  = jq "<mxCell id='1'><mxGeometry x='10' /><mxPoint x='0'><br></mxCell>".
Proof. vm_compute; reflexivity. Qed.

Example excalidraw_pipeline :
  process (excalidrawProcessor None)
    (VString (jq "Here it is: ```json
[{'type':'rectangle','x':1}]
``` "))
  = Returned (VString (JSON.stringify2
      (JSON.JArray
         [JSON.JObject [(js "type", JSON.JString (js "rectangle"));
                        (js "x", JSON.JNumber (JSON.Int 1))]]))).
Proof. vm_compute; reflexivity. Qed.

(* ================================================================== *)
(** * Properties of the steps and of the repairs *)
(* ================================================================== *)

Import Notions.

(* ------------------------------------------------------------------ *)
(** ** Global replacement *)
(* ------------------------------------------------------------------ *)

Lemma remove_all_filter p s : remove_all p s = filter (fun c => negb (p c)) s.
Proof.
  unfold remove_all, replace_all.
  induction s as [|c s IH]; [reflexivity|].
  cbn [replace_from one done filter].
  destruct (p c) eqn:E; cbn [negb].
  - unfold done at 1. rewrite Nat.sub_diag. simpl. exact IH.
  - f_equal. exact IH.
Qed.

(* ------------------------------------------------------------------ *)
(** ** Trimming *)
(* ------------------------------------------------------------------ *)

Lemma trimStart_head s : starts_clean (trimStart s).
Proof.
  induction s as [|c s IH]; simpl; [exact I|].
  destruct (is_ws c) eqn:E; [exact IH|exact E].
Qed.

Lemma trimStart_fix s : starts_clean s -> trimStart s = s.
Proof. destruct s as [|c s]; simpl; [reflexivity|intros ->; reflexivity]. Qed.

Lemma starts_clean_prefix a b : starts_clean (a ++ b) -> starts_clean a.
Proof. destruct a; simpl; auto. Qed.

Lemma trim_fix s : starts_clean s -> starts_clean (rev s) -> trim s = s.
Proof.
  intros H1 H2. unfold trim, trimEnd.
  rewrite (trimStart_fix s H1), (trimStart_fix (rev s) H2).
  apply rev_involutive.
Qed.

Lemma trim_ends s : starts_clean (trim s) /\ starts_clean (rev (trim s)).
Proof.
  unfold trim, trimEnd. rewrite rev_involutive. split.
  - destruct (trimStart_spec (rev (trimStart s))) as (w & Hs & _).
    apply (f_equal (@rev N)) in Hs. rewrite rev_involutive, rev_app_distr in Hs.
    apply starts_clean_prefix with (b := rev w). rewrite <- Hs.
    apply trimStart_head.
  - apply trimStart_head.
Qed.

Lemma trim_idempotent s : trim (trim s) = trim s.
Proof. apply trim_fix; apply trim_ends. Qed.

Lemma trim_Forall (P : char -> Prop) s : Forall P s -> Forall P (trim s).
Proof.
  intros H. unfold trim.
  destruct (trimStart_spec s) as (w & Hs & _).
  destruct (trimEnd_spec (trimStart s)) as (w' & Hs' & _).
  rewrite Hs in H. apply Forall_app in H. destruct H as [_ H].
  rewrite Hs' in H. apply Forall_app in H. apply H.
Qed.

Lemma strip_invisible_filter s :
  strip_invisible s
  = filter (fun c => negb (is_zero_width c)) (filter (fun c => negb (is_bom c)) s).
Proof. unfold strip_invisible. rewrite !remove_all_filter. reflexivity. Qed.

Lemma strip_invisible_visible s : Forall visible (strip_invisible s).
Proof.
  rewrite strip_invisible_filter. apply Forall_forall. intros c Hc.
  apply filter_In in Hc. destruct Hc as [Hc Hz].
  apply filter_In in Hc. destruct Hc as [_ Hb].
  split; apply negb_true_iff; assumption.
Qed.

Lemma strip_invisible_fix s : Forall visible s -> strip_invisible s = s.
Proof.
  intros H. rewrite strip_invisible_filter.
  induction H as [|c s [Hb Hz] _ IH]; [reflexivity|].
  simpl. rewrite Hb. simpl. rewrite Hz. simpl. f_equal. exact IH.
Qed.

(** [cleanBOM]: the text returned holds no byte-order mark and no
    zero-width character, has no whitespace at either end, and is returned
    as it is when cleaned again. *)
Theorem cleanBOM_cleans_once :
  forall s : jsstring,
  exists t : jsstring,
    cleanBOM (VString s) = Returned (VString t)
    /\ Forall (fun c => is_bom c = false /\ is_zero_width c = false) t
    /\ trim t = t
    /\ cleanBOM (VString t) = Returned (VString t).
Proof.
  intros [|c s].
  - exists []. repeat split; constructor.
  - exists (trim (strip_invisible (c :: s))).
    assert (Hv : Forall visible (trim (strip_invisible (c :: s))))
      by apply trim_Forall, strip_invisible_visible.
    split; [reflexivity|]. split; [exact Hv|]. split; [apply trim_idempotent|].
    destruct (trim (strip_invisible (c :: s))) as [|x t] eqn:E; [reflexivity|].
    change (cleanBOM (VString (x :: t)))
      with (Returned (VString (trim (strip_invisible (x :: t))))).
    rewrite (strip_invisible_fix _ Hv), <- E, trim_idempotent. reflexivity.
Qed.

(* ------------------------------------------------------------------ *)
(** ** Composition of pipelines *)
(* ------------------------------------------------------------------ *)

Lemma process_app (a b : list step) : forall code,
  process {| steps := a ++ b |} code
  = bind (process {| steps := a |} code) (process {| steps := b |}).
Proof.
  induction a as [|st a IH]; intros code; [reflexivity|].
  change ((st :: a) ++ b) with (st :: (a ++ b)).
  rewrite !process_cons. apply IH.
Qed.

(** A pipeline of two lists of steps is the pipeline of the first followed
    by the pipeline of the second; [addStep] adds a step that runs last,
    on the result of the pipeline, and whose failure leaves that result;
    the custom steps of [createXMLProcessor] and [createJSONProcessor] run
    after the preparation steps and before the repair; without custom
    steps [createXMLProcessor] makes the pipeline of [drawioProcessor]. *)
Theorem process_composes :
  (forall (a b : list step) (code : value),
      process {| steps := a ++ b |} code
      = bind (process {| steps := a |} code) (process {| steps := b |}))
  /\ (forall (p : processor) (st : step) (code : value),
         process (addStep p st) code
         = bind (process p code)
             (fun r => try_catch (st r) (fun _ => Returned r)))
  /\ (forall (custom : list step) (code : value),
         process (createXMLProcessor custom) code
         = bind (process
                   {| steps :=
                        [cleanBOM;
                         (fun c => extractCodeFence c (Some (js "xml")));
                         unescapeHTML; extractXML; normalizeMxTags] |} code)
             (fun prepared =>
                bind (process (createProcessor custom) prepared)
                  (process {| steps := [fixXML] |})))
  /\ (forall (custom : list step) (code : value),
         process (createJSONProcessor custom) code
         = bind (process
                   {| steps :=
                        [cleanBOM;
                         (fun c => extractCodeFence c (Some (js "json")));
                         extractJSON] |} code)
             (fun prepared =>
                bind (process (createProcessor custom) prepared)
                  (process {| steps := [repairJSON] |})))
  /\ (forall code : value,
         process (createXMLProcessor []) code = process drawioProcessor code).
Proof.
  split; [exact process_app|]. split; [|split; [|split]].
  - intros [sts] st code. unfold addStep. cbn [steps].
    rewrite process_app. destruct (process {| steps := sts |} code); [|reflexivity].
    cbn [bind]. unfold process. cbn [steps reduce].
    destruct (st a); reflexivity.
  - intros custom code.
    unfold createXMLProcessor, createProcessor.
    rewrite process_app.
    destruct (process _ code); [|reflexivity]. cbn [bind].
    apply process_app.
  - intros custom code.
    unfold createJSONProcessor, createProcessor.
    rewrite process_app.
    destruct (process _ code); [|reflexivity]. cbn [bind].
    apply process_app.
  - reflexivity.
Qed.

(* ------------------------------------------------------------------ *)
(** ** Fenced blocks: the payload *)
(* ------------------------------------------------------------------ *)

Lemma includes_app w : forall pre t,
  startsWith t w = true -> includes (pre ++ t) w = true.
Proof.
  induction pre as [|c pre IH]; intros t H.
  - destruct t; simpl; rewrite H; reflexivity.
  - simpl. rewrite (IH t H). apply orb_true_r.
Qed.

Lemma search_lit_includes {R} w (k : cont R) s i r :
  search (lit w k) s = Some (i, r) -> includes s w = true.
Proof.
  intros H. apply search_found in H. destruct H as (pre & t & -> & _ & Ht).
  apply includes_app. eapply lit_found. exact Ht.
Qed.

Lemma captured_needs_fence (k : cont jsstring) code :
  includes code fence = false -> captured (lit fence k) code = None.
Proof.
  intros H. unfold captured.
  destruct (search (lit fence k) code) as [[i r]|] eqn:E; [|reflexivity].
  apply search_lit_includes in E. congruence.
Qed.

Lemma lazy_payload_exact post : forall payload acc,
  ~ In BACKTICK payload ->
  star_lazy any closing_fence acc (payload ++ fence ++ post)
  = Some (acc ++ payload).
Proof.
  induction payload as [|c p IH]; intros acc Hin.
  - rewrite app_nil_r. simpl. destruct post; reflexivity.
  - change ((c :: p) ++ fence ++ post) with (c :: (p ++ fence ++ post)).
    cbn [star_lazy]. rewrite closing_fence_eq.
    assert (Hc : (c =? 96) = false).
    { apply N.eqb_neq. intros ->. apply Hin. left. reflexivity. }
    assert (Hs : startsWith (c :: p ++ fence ++ post) fence = false).
    { unfold fence. cbn [js list_ascii_of_string map startsWith].
      change (N_of_ascii "`") with 96. rewrite Hc. reflexivity. }
    rewrite Hs. cbn [any]. rewrite IH.
    + rewrite <- app_assoc. reflexivity.
    + intros H. apply Hin. right. exact H.
Qed.

Lemma any_starts_at_backtick c s :
  c <> BACKTICK -> any_fence_re (c :: s) = None.
Proof.
  intros Hc. unfold any_fence_re, lit.
  cbn [fence js list_ascii_of_string map startsWith].
  change (N_of_ascii "`") with 96.
  destruct (N.eqb_spec c 96) as [E|_]; [contradiction|reflexivity].
Qed.

Lemma any_fence_payload_exact ws payload post :
  Forall (fun c => is_ws c = true) ws ->
  ~ In BACKTICK payload ->
  match payload with c :: _ => is_ws c = false | [] => True end ->
  any_fence_re (fence ++ ws ++ payload ++ fence ++ post) = Some payload.
Proof.
  intros Hws Hin Hhead. unfold any_fence_re.
  change (fence ++ ws ++ payload ++ fence ++ post)
    with (96 :: 96 :: 96 :: ws ++ payload ++ fence ++ post).
  unfold lit at 1. cbn [fence js list_ascii_of_string map startsWith length skipn].
  change (N_of_ascii "`") with 96. rewrite !N.eqb_refl. cbn [andb].
  apply star_stops with (ws := ws) (acc := []); [exact Hws| |].
  - destruct payload as [|c p]; [reflexivity|exact Hhead].
  - unfold lazy_payload. apply (lazy_payload_exact post payload [] Hin).
Qed.

Lemma tagged_fence_payload_exact lang ws1 tag ws2 payload post :
  lang <> [] ->
  forallb is_word lang = true ->
  Forall (fun c => is_ws c = true) ws1 ->
  Forall (fun c => is_ws c = true) ws2 ->
  ci_equal tag lang ->
  ~ In BACKTICK payload ->
  match payload with c :: _ => is_ws c = false | [] => True end ->
  tagged_fence_re lang (fence ++ ws1 ++ tag ++ ws2 ++ payload ++ fence ++ post)
  = Some payload.
Proof.
  intros Hne Hword H1 H2 Hci Hin Hhead.
  unfold tagged_fence_re.
  change (fence ++ ws1 ++ tag ++ ws2 ++ payload ++ fence ++ post)
    with (96 :: 96 :: 96 :: ws1 ++ tag ++ ws2 ++ payload ++ fence ++ post).
  unfold lit at 1. cbn [fence js list_ascii_of_string map startsWith length skipn].
  change (N_of_ascii "`") with 96. rewrite !N.eqb_refl. cbn [andb].
  apply star_stops with (ws := ws1) (acc := []); [exact H1| |].
  - destruct Hci as [|t l tag lang Htl _]; [contradiction Hne; reflexivity|].
    simpl. simpl in Hword. apply andb_true_iff in Hword.
    apply (word_not_ws t l Htl), Hword.
  - rewrite lit_ci_equal by exact Hci.
    apply star_stops with (ws := ws2) (acc := []); [exact H2| |].
    + destruct payload as [|c p]; [reflexivity|exact Hhead].
    + unfold lazy_payload. apply (lazy_payload_exact post payload [] Hin).
Qed.

(** [extractCodeFence] on a text without a fence returns the text trimmed,
    whether it is called without a language or with a tag of word
    characters. *)
Theorem extractCodeFence_without_fence :
  forall (code : jsstring) (lang : option jsstring),
    literal_tag lang ->
    includes code (js "```") = false ->
    extractCodeFence (VString code) lang = Returned (VString (trim code)).
Proof.
  intros code lang Hlang H. rewrite (extractCodeFence_fenced _ lang Hlang).
  destruct code as [|c code]; [reflexivity|].
  change (guarded (VString (c :: code))
            (fun s => Returned (VString (fenced s lang))))
    with (Returned (VString (fenced (c :: code) lang))).
  do 2 f_equal. unfold fenced.
  unfold any_fence_re. rewrite (captured_needs_fence _ _ H).
  destruct lang as [[|l lang]|]; try reflexivity.
  unfold tagged_fence_re. rewrite (captured_needs_fence _ _ H). reflexivity.
Qed.

Lemma extractCodeFence_without_fence_witness :
  extractCodeFence (VString (js " [1] ")) (Some (js "json"))
  = Returned (VString (trim (js " [1] "))).
Proof.
  apply (extractCodeFence_without_fence (js " [1] ") (Some (js "json"))).
  - reflexivity.
  - vm_compute; reflexivity.
Defined.

(** [extractCodeFence] returns the payload of the first fence, trimmed:
    with a language, the text between the tag (in any letter case) of the
    first fence and the closing fence; without one, all the text between
    the two fences.  The text before the fence and the payload hold no
    backtick, and the payload is not empty nor whitespace only. *)
Theorem extractCodeFence_takes_payload :
  forall pre ws payload post : jsstring,
    ~ In BACKTICK pre ->
    ~ In BACKTICK payload ->
    Forall (fun c => is_ws c = true) ws ->
    (exists c p, payload = c :: p /\ is_ws c = false) ->
    extractCodeFence
      (VString (pre ++ js "```" ++ ws ++ payload ++ js "```" ++ post)) None
    = Returned (VString (trim payload))
    /\ forall lang tag ws1 : jsstring,
        lang <> [] ->
        forallb is_word lang = true ->
        ci_equal tag lang ->
        Forall (fun c => is_ws c = true) ws1 ->
        extractCodeFence
          (VString (pre ++ js "```" ++ ws1 ++ tag ++ ws ++ payload
                    ++ js "```" ++ post)) (Some lang)
        = Returned (VString (trim payload)).
Proof.
  intros pre ws payload post Hpre Hpay Hws (c & p & -> & Hc).
  assert (Hany : forall w body,
             any_fence_re (fence ++ w ++ body ++ fence ++ post) = Some body ->
             body <> [] ->
             captured any_fence_re (pre ++ fence ++ w ++ body ++ fence ++ post)
             = Some body).
  { intros w body Hm Hne. unfold captured.
    rewrite (search_after_prefix any_fence_re _ body pre); [| |exact Hm].
    - destruct body; [contradiction Hne; reflexivity|reflexivity].
    - intros x s Hin. apply any_starts_at_backtick. intros ->. exact (Hpre Hin). }
  assert (Hguard : forall a b lang,
             literal_tag lang ->
             extractCodeFence (VString (a ++ fence ++ b)) lang
             = Returned (VString (fenced (a ++ fence ++ b) lang))).
  { intros a b lang Hlang. rewrite (extractCodeFence_fenced _ lang Hlang).
    destruct a; reflexivity. }
  split.
  - change (js "```") with fence. rewrite (Hguard _ _ None I).
    do 2 f_equal. unfold fenced.
    rewrite Hany; [reflexivity| |discriminate].
    apply any_fence_payload_exact; [exact Hws|exact Hpay|exact Hc].
  - intros lang tag ws1 Hne Hword Hci H1.
    change (js "```") with fence. rewrite (Hguard _ _ (Some lang) Hword).
    do 2 f_equal. unfold fenced.
    destruct lang as [|l lang']; [contradiction Hne; reflexivity|].
    assert (E : captured (tagged_fence_re (l :: lang'))
                  (pre ++ fence ++ ws1 ++ tag ++ ws ++ (c :: p) ++ fence ++ post)
                = Some (c :: p)).
    { unfold captured.
      rewrite (search_after_prefix (tagged_fence_re (l :: lang')) _ (c :: p) pre).
      - reflexivity.
      - intros x s Hin. apply tagged_starts_at_backtick. intros ->. exact (Hpre Hin).
      - apply tagged_fence_payload_exact; try assumption. }
    rewrite E. reflexivity.
Qed.

Lemma extractCodeFence_takes_payload_witness :
  extractCodeFence
    (VString (js "Here: " ++ js "```" ++ [10] ++ js "[1]" ++ js "```" ++ js " done"))
    None
  = Returned (VString (trim (js "[1]")))
  /\ extractCodeFence
       (VString (js "Here: " ++ js "```" ++ [] ++ js "JSON" ++ [10] ++ js "[1]"
                 ++ js "```" ++ js " done"))
       (Some (js "json"))
     = Returned (VString (trim (js "[1]"))).
Proof.
  destruct (extractCodeFence_takes_payload (js "Here: ") [10] (js "[1]")
              (js " done")) as [Hplain Htagged].
  - vm_compute. intuition discriminate.
  - vm_compute. intuition discriminate.
  - repeat constructor.
  - exists 91, (js "1]"). split; reflexivity.
  - split; [exact Hplain|].
    apply (Htagged (js "json") (js "JSON") []).
    + discriminate.
    + reflexivity.
    + repeat (constructor; [reflexivity|]). constructor.
    + constructor.
Defined.

(* ------------------------------------------------------------------ *)
(** ** What a global replacement keeps *)
(* ------------------------------------------------------------------ *)

(** A relation between texts that holds of equal characters and goes
    through concatenation holds between a text and its image under a
    global replacement whose every match is related to its replacement. *)
Lemma replace_all_related (Rel : jsstring -> jsstring -> Prop) m :
  Rel [] [] ->
  (forall c, Rel [c] [c]) ->
  (forall a a' b b', Rel a a' -> Rel b b' -> Rel (a ++ b) (a' ++ b')) ->
  (forall s replacement rest,
      m s = Some (replacement, rest) ->
      exists matched,
        s = matched ++ rest /\ matched <> [] /\ Rel matched replacement) ->
  forall s, Rel s (replace_all m s).
Proof.
  intros Hnil Hone Happ Hm s. unfold replace_all.
  remember (length s) as n eqn:Hn.
  revert s Hn. induction n as [n IH] using lt_wf_ind. intros s Hn.
  destruct s as [|c s']; [exact Hnil|].
  cbn [replace_from].
  destruct (m (c :: s')) as [[replacement rest]|] eqn:E.
  - destruct (Hm _ _ _ E) as (matched & Hs & Hne & Hrel).
    destruct matched as [|c0 md]; [contradiction Hne; reflexivity|].
    simpl in Hs. inversion Hs; subst c0 s'.
    rewrite length_app.
    replace (length md + length rest - length rest)%nat with (length md) by lia.
    rewrite replace_from_skip.
    change (c :: md ++ rest) with ((c :: md) ++ rest).
    apply Happ; [exact Hrel|].
    apply (IH (length rest)); [|reflexivity].
    subst n. simpl. rewrite length_app. lia.
  - change (c :: replace_from m 0 s') with ([c] ++ replace_from m 0 s').
    change (c :: s') with ([c] ++ s').
    apply Happ; [apply Hone|].
    apply (IH (length s')); [|reflexivity]. subst n. simpl. lia.
Qed.

Lemma lit_one_result {R} c (k : cont R) s r :
  lit [c] k s = Some r -> exists rest, s = c :: rest /\ k rest = Some r.
Proof.
  unfold lit. destruct s as [|x s]; [discriminate|].
  cbn [startsWith]. destruct (N.eqb_spec x c) as [->|]; [|discriminate].
  simpl. intros H. exists s. auto.
Qed.

Lemma one_result {R} p (k : char -> cont R) s r :
  one p k s = Some r ->
  exists c rest, s = c :: rest /\ p c = true /\ k c rest = Some r.
Proof.
  unfold one. destruct s as [|c s]; [discriminate|].
  destruct (p c) eqn:E; [|discriminate]. intros H. exists c, s. auto.
Qed.

Lemma filter_ws_nil (p : char -> bool) ws :
  (forall c, is_ws c = true -> p c = false) ->
  Forall (fun c => is_ws c = true) ws -> filter p ws = [].
Proof.
  intros Hp H. induction H as [|c ws Hc _ IH]; [reflexivity|].
  simpl. rewrite (Hp c Hc). exact IH.
Qed.

Lemma trailing_comma_result s replacement rest :
  trailing_comma_re s = Some (replacement, rest) ->
  s = COMMA :: replacement ++ rest.
Proof.
  unfold trailing_comma_re. intros H.
  apply lit_one_result in H. destruct H as (r1 & -> & H).
  apply star_result in H. destruct H as (ws & r2 & -> & Hws & H).
  apply one_result in H. destruct H as (c & r3 & -> & Hc & H).
  unfold done in H. inversion H; subst. simpl.
  rewrite <- app_assoc. reflexivity.
Qed.

Lemma trailing_comma_pass text :
  filter (fun c => negb (c =? COMMA)) (replace_all trailing_comma_re text)
  = filter (fun c => negb (c =? COMMA)) text
  /\ (length (replace_all trailing_comma_re text) <= length text)%nat.
Proof.
  apply (replace_all_related
           (fun a b => filter (fun c => negb (c =? COMMA)) b
                       = filter (fun c => negb (c =? COMMA)) a
                       /\ (length b <= length a)%nat)).
  - split; [reflexivity|lia].
  - intros c. split; [reflexivity|lia].
  - intros a a' b b' [Ha La] [Hb Lb]. rewrite !filter_app, !length_app, Ha, Hb.
    split; [reflexivity|lia].
  - intros s replacement rest H. apply trailing_comma_result in H.
    exists (COMMA :: replacement). split; [exact H|]. split; [discriminate|].
    split; [reflexivity|simpl; lia].
Qed.

(** [stripTrailingCommas] deletes commas and nothing else: the text
    without its commas is unchanged, and the text does not grow. *)
Theorem stripTrailingCommas_deletes_commas_only :
  forall text : jsstring,
    filter (fun c => negb (c =? COMMA)) (stripTrailingCommas text)
    = filter (fun c => negb (c =? COMMA)) text
    /\ (length (stripTrailingCommas text) <= length text)%nat.
Proof.
  intros text. unfold stripTrailingCommas. apply trailing_comma_pass.
Qed.

Lemma missing_comma_result closer s replacement rest :
  missing_comma_re closer s = Some (replacement, rest) ->
  exists ws c,
    s = closer :: ws ++ c :: rest
    /\ Forall (fun x => is_ws x = true) ws
    /\ replacement = [closer; COMMA; c].
Proof.
  unfold missing_comma_re. intros H.
  apply lit_one_result in H. destruct H as (r1 & -> & H).
  apply star_result in H. destruct H as (ws & r2 & -> & Hws & H).
  apply one_result in H. destruct H as (c & r3 & -> & Hc & H).
  unfold done in H. inversion H; subst. exists ws, c. auto.
Qed.

Lemma missing_comma_pass closer s :
  filter not_comma_ws (replace_all (missing_comma_re closer) s)
  = filter not_comma_ws s.
Proof.
  apply (replace_all_related
           (fun a b => filter not_comma_ws b = filter not_comma_ws a)).
  - reflexivity.
  - reflexivity.
  - intros a a' b b' Ha Hb. rewrite !filter_app, Ha, Hb. reflexivity.
  - intros s0 replacement rest H.
    apply missing_comma_result in H. destruct H as (ws & c & -> & Hws & ->).
    exists (closer :: ws ++ [c]). split; [|split; [discriminate|]].
    + simpl. rewrite <- app_assoc. reflexivity.
    + change (closer :: ws ++ [c]) with ([closer] ++ ws ++ [c]).
      change [closer; COMMA; c] with ([closer] ++ [COMMA] ++ [c]).
      rewrite !filter_app.
      rewrite (filter_ws_nil not_comma_ws ws); [reflexivity| |exact Hws].
      intros x Hx. unfold not_comma_ws. rewrite Hx.
      apply andb_false_r.
Qed.

(** [addMissingCommas] inserts commas and deletes whitespace, and nothing
    else: the text without its commas and whitespace is unchanged. *)
Theorem addMissingCommas_keeps_content :
  forall text : jsstring,
    filter (fun c => negb (c =? COMMA) && negb (is_ws c)) (addMissingCommas text)
    = filter (fun c => negb (c =? COMMA) && negb (is_ws c)) text.
Proof.
  intros text. unfold addMissingCommas.
  change (fun c => negb (c =? COMMA) && negb (is_ws c)) with not_comma_ws.
  rewrite !missing_comma_pass. reflexivity.
Qed.

(* ------------------------------------------------------------------ *)
(** ** What [fixJSON] keeps *)
(* ------------------------------------------------------------------ *)

Lemma filter_narrow (p q : char -> bool) l :
  (forall c, p c = true -> q c = true) ->
  filter p (filter q l) = filter p l.
Proof.
  intros H. induction l as [|c l IH]; [reflexivity|].
  simpl. destruct (q c) eqn:Eq; simpl.
  - rewrite IH. reflexivity.
  - destruct (p c) eqn:Ep; [|exact IH].
    rewrite (H c Ep) in Eq. discriminate.
Qed.

Lemma content_ws c : is_ws c = true -> content c = false.
Proof. intros H. unfold content. rewrite H. reflexivity. Qed.

Lemma content_cases c :
  content c = true ->
  is_ws c = false /\ (c =? COMMA) = false /\ (c =? QUOTE) = false
  /\ is_closer c = false /\ is_zero_width c = false.
Proof.
  unfold content. rewrite !andb_true_iff, !negb_true_iff. tauto.
Qed.

Lemma content_trim s : filter content (trim s) = filter content s.
Proof.
  unfold trim.
  destruct (trimStart_spec s) as (w & Hs & Hw).
  destruct (trimEnd_spec (trimStart s)) as (w' & Hs' & Hw').
  rewrite Hs at 2. rewrite Hs' at 2. rewrite !filter_app.
  rewrite (filter_ws_nil content w content_ws Hw).
  rewrite (filter_ws_nil content w' content_ws Hw').
  rewrite app_nil_r. reflexivity.
Qed.

Lemma content_trimEnd s : filter content (trimEnd s) = filter content s.
Proof.
  destruct (trimEnd_spec s) as (w' & Hs' & Hw').
  rewrite Hs' at 2. rewrite filter_app.
  rewrite (filter_ws_nil content w' content_ws Hw').
  rewrite app_nil_r. reflexivity.
Qed.

Lemma content_strip_invisible s :
  filter content (strip_invisible s) = filter content s.
Proof.
  rewrite strip_invisible_filter. rewrite !filter_narrow; [reflexivity| |].
  - intros c Hc. apply content_cases in Hc. destruct Hc as (Hw & _).
    apply negb_true_iff. unfold is_bom. apply N.eqb_neq. intros ->. discriminate Hw.
  - intros c Hc. apply content_cases in Hc. apply negb_true_iff. tauto.
Qed.

Lemma content_addMissingCommas s :
  filter content (addMissingCommas s) = filter content s.
Proof.
  rewrite <- (filter_narrow content not_comma_ws (addMissingCommas s)).
  - unfold addMissingCommas. rewrite !missing_comma_pass.
    apply filter_narrow.
    intros c Hc. apply content_cases in Hc. destruct Hc as (Hw & Hk & _).
    unfold not_comma_ws. rewrite Hw, Hk. reflexivity.
  - intros c Hc. apply content_cases in Hc. destruct Hc as (Hw & Hk & _).
    unfold not_comma_ws. rewrite Hw, Hk. reflexivity.
Qed.

Lemma content_stripTrailingCommas s :
  filter content (stripTrailingCommas s) = filter content s.
Proof.
  unfold stripTrailingCommas.
  rewrite <- (filter_narrow content (fun c => negb (c =? COMMA))
                (replace_all trailing_comma_re s)).
  - rewrite (proj1 (trailing_comma_pass s)).
    apply filter_narrow.
    intros c Hc. apply content_cases in Hc. destruct Hc as (_ & Hk & _).
    rewrite Hk. reflexivity.
  - intros c Hc. apply content_cases in Hc. destruct Hc as (_ & Hk & _).
    rewrite Hk. reflexivity.
Qed.

Lemma closer_of_closer o : is_closer (closer_of o) = true.
Proof. unfold closer_of. destruct (o =? LBRACE); reflexivity. Qed.

Lemma content_closers ops : filter content (map closer_of ops) = [].
Proof.
  induction ops as [|o ops IH]; [reflexivity|].
  simpl. unfold content at 1. rewrite closer_of_closer.
  rewrite !andb_false_r. simpl. exact IH.
Qed.

Lemma content_scan : forall text st,
  filter content (result (fold_left scan_step text st))
  = filter content (result st) ++ filter content text.
Proof.
  induction text as [|ch text IH]; intros st.
  - simpl. rewrite app_nil_r. reflexivity.
  - cbn [fold_left]. rewrite IH.
    destruct (scan_step_appends st ch) as (ops & Happ & _).
    rewrite Happ, !filter_app, content_closers. simpl.
    rewrite <- app_assoc. destruct (content ch); reflexivity.
Qed.

Lemma content_dropLast_comma r :
  endsWith r [COMMA] = true -> filter content (dropLast r) = filter content r.
Proof.
  intros H. apply endsWith_last in H. rewrite H at 2.
  rewrite filter_app. simpl. rewrite app_nil_r. reflexivity.
Qed.

Lemma content_finish st : filter content (finish st) = filter content (result st).
Proof.
  unfold finish.
  destruct (inString st).
  - change (34 =? COMMA) with false. cbv iota.
    rewrite content_stripTrailingCommas, !filter_app, content_closers.
    simpl. rewrite !app_nil_r. reflexivity.
  - rewrite content_stripTrailingCommas, filter_app, content_closers, app_nil_r.
    destruct (lastNonWhitespaceChar st) as [c|]; [|reflexivity].
    destruct (c =? COMMA); [|reflexivity].
    destruct (endsWith (trimEnd (result st)) [COMMA]) eqn:E.
    + rewrite (content_dropLast_comma _ E). apply content_trimEnd.
    + apply content_trimEnd.
Qed.

Lemma content_fixJSONStructure s :
  filter content (fixJSONStructure s) = filter content s.
Proof.
  unfold fixJSONStructure, scan, scan_text.
  rewrite content_finish, content_scan. simpl.
  rewrite content_addMissingCommas. apply content_strip_invisible.
Qed.

(** [fixJSON] keeps the content of its input: all the characters that are
    not whitespace, commas, double quotes, closers or zero-width
    characters are in the output, in the same order, and the output has no
    other such character. *)
Theorem fixJSON_keeps_content :
  forall input : jsstring,
    filter content (fixJSON input) = filter content input.
Proof.
  intros input. unfold fixJSON.
  destruct (trim input) as [|c raw] eqn:E.
  - rewrite <- (content_trim input), E. reflexivity.
  - rewrite <- (content_trim input), E.
    destruct (JSON.parse (c :: raw)); [reflexivity|].
    destruct (JSON.parse (fixJSONStructure (c :: raw))).
    + apply content_fixJSONStructure.
    + rewrite content_stripTrailingCommas. apply content_fixJSONStructure.
Qed.

(* ------------------------------------------------------------------ *)
(** ** [normalizeMxTags] *)
(* ------------------------------------------------------------------ *)

Lemma lit_ci_result {R} (k : cont R) : forall w s r,
  lit_ci w k s = Some r ->
  exists rest,
    s = firstn (length w) s ++ rest
    /\ toLowerCase (firstn (length w) s) = toLowerCase w
    /\ k rest = Some r.
Proof.
  induction w as [|p w IH]; intros s r H.
  - exists s. auto.
  - destruct s as [|c s]; [discriminate|]. cbn [lit_ci] in H.
    destruct (char_eqb_ci c p) eqn:E; [|discriminate].
    destruct (IH _ _ H) as (rest & Hs & Hl & Hk).
    exists rest. cbn [length firstn]. split; [|split].
    + simpl. f_equal. exact Hs.
    + simpl. unfold char_eqb_ci in E. apply N.eqb_eq in E. rewrite E, Hl.
      reflexivity.
    + exact Hk.
Qed.

Lemma alt_ci_result {R} (k : jsstring -> cont R) : forall ws s r,
  alt_ci ws k s = Some r ->
  exists w rest,
    In w ws
    /\ s = firstn (length w) s ++ rest
    /\ toLowerCase (firstn (length w) s) = toLowerCase w
    /\ k (firstn (length w) s) rest = Some r.
Proof.
  induction ws as [|w ws IH]; intros s r H; [discriminate|].
  cbn [alt_ci] in H.
  destruct (lit_ci w (k (firstn (length w) s)) s) as [r'|] eqn:E.
  - inversion H; subst. apply lit_ci_result in E.
    destruct E as (rest & Hs & Hl & Hk). exists w, rest.
    split; [left; reflexivity|auto].
  - destruct (IH _ _ H) as (w' & rest & Hin & Hrest).
    exists w', rest. split; [right; exact Hin|exact Hrest].
Qed.

Lemma opt_result {R} c (k : jsstring -> cont R) s r :
  opt c k s = Some r ->
  exists m rest, s = m ++ rest /\ k m rest = Some r.
Proof.
  unfold opt. destruct s as [|x s].
  - intros H. exists [], []. auto.
  - destruct (x =? c).
    + destruct (k [x] s) as [r'|] eqn:E.
      * intros H. inversion H; subst. exists [x], s. auto.
      * intros H. exists [], (x :: s). auto.
    + intros H. exists [], (x :: s). auto.
Qed.

Lemma word_end_result {R} (k : cont R) s r :
  word_end k s = Some r -> k s = Some r.
Proof.
  unfold word_end. destruct s as [|c s]; [auto|].
  destruct (is_word c); [discriminate|auto].
Qed.

Lemma mxTagMap_canonical w tagName :
  In w (map fst mxTagMap) ->
  toLowerCase tagName = toLowerCase w ->
  exists canonical,
    table_get (toLowerCase tagName) mxTagMap = Some canonical
    /\ toLowerCase canonical = toLowerCase tagName.
Proof.
  intros Hin ->. simpl in Hin.
  destruct Hin as [<-|[<-|[<-|[<-|[]]]]]; eexists; split; reflexivity.
Qed.

Lemma mx_tag_result s replacement rest :
  mx_tag_re s = Some (replacement, rest) ->
  exists matched,
    s = matched ++ rest /\ matched <> []
    /\ toLowerCase replacement = toLowerCase matched.
Proof.
  unfold mx_tag_re. intros H.
  apply lit_one_result in H. destruct H as (r1 & -> & H).
  apply star_result in H. destruct H as (ws & r2 & -> & _ & H).
  apply opt_result in H. destruct H as (slash & r3 & -> & H).
  apply alt_ci_result in H. destruct H as (w & r4 & Hin & Hs & Hl & H).
  apply word_end_result in H. unfold done in H.
  destruct (mxTagMap_canonical w _ Hin Hl) as (canonical & Hget & Hcan).
  rewrite Hget in H. inversion H; subst replacement r4. clear H.
  exists (LT :: ws ++ slash ++ firstn (length w) r3).
  split; [|split; [discriminate|]].
  - simpl. rewrite <- !app_assoc. rewrite <- Hs. reflexivity.
  - unfold toLowerCase in Hcan |- *. cbn [map].
    rewrite <- app_assoc, !map_app, Hcan. reflexivity.
Qed.

(** [normalizeMxTags] changes the case of letters and nothing else: the
    text returned has the length of the input and is equal to it up to the
    case of its letters. *)
Theorem normalizeMxTags_changes_case_only :
  forall s : jsstring,
  exists t : jsstring,
    normalizeMxTags (VString s) = Returned (VString t)
    /\ toLowerCase t = toLowerCase s
    /\ length t = length s.
Proof.
  intros s.
  assert (H : toLowerCase (replace_all mx_tag_re s) = toLowerCase s).
  { apply (replace_all_related (fun a b => toLowerCase b = toLowerCase a)).
    - reflexivity.
    - reflexivity.
    - intros a a' b b' Ha Hb. unfold toLowerCase in *.
      rewrite !map_app, Ha, Hb. reflexivity.
    - intros s0 replacement rest Hm.
      destruct (mx_tag_result _ _ _ Hm) as (matched & Hs & Hne & Hl).
      exists matched. auto. }
  destruct s as [|c s].
  - exists []. repeat split.
  - exists (replace_all mx_tag_re (c :: s)).
    split; [reflexivity|]. split; [exact H|].
    apply (f_equal (@length N)) in H. unfold toLowerCase in H.
    rewrite !length_map in H. exact H.
Qed.

(* ------------------------------------------------------------------ *)
(** ** [autoCloseAngleBrackets] *)
(* ------------------------------------------------------------------ *)

Lemma indexOf_none c : forall s,
  indexOf s c = None -> Forall (fun x => (x =? c) = false) s.
Proof.
  induction s as [|x s IH]; intros H; [constructor|].
  simpl in H. destruct (x =? c) eqn:E; [discriminate|].
  constructor; [exact E|]. apply IH.
  destruct (indexOf s c); [discriminate|reflexivity].
Qed.

Lemma indexOf_some c : forall s i,
  indexOf s c = Some i ->
  s = firstn i s ++ c :: skipn (S i) s
  /\ Forall (fun x => (x =? c) = false) (firstn i s).
Proof.
  induction s as [|x s IH]; intros i H; [discriminate|].
  simpl in H. destruct (x =? c) eqn:E.
  - inversion H; subst. apply N.eqb_eq in E. subst. split; [reflexivity|constructor].
  - destruct (indexOf s c) as [j|] eqn:Ej; [|discriminate].
    inversion H; subst. destruct (IH j eq_refl) as [Hs Hf].
    split.
    + cbn [firstn skipn app]. f_equal. exact Hs.
    + cbn [firstn]. constructor; assumption.
Qed.

Lemma indexOf_skipn c : forall s i,
  indexOf s c = Some i -> skipn i s = c :: skipn (S i) s.
Proof.
  induction s as [|x s IH]; intros i H; [discriminate|].
  simpl in H. destruct (x =? c) eqn:E.
  - inversion H; subst. apply N.eqb_eq in E. subst. reflexivity.
  - destruct (indexOf s c) as [j|] eqn:Ej; [|discriminate].
    inversion H; subst. apply (IH j eq_refl).
Qed.

Lemma angles_outside pre : forall rest,
  Forall (fun x => (x =? LT) = false) pre ->
  angles false (pre ++ rest) = pre ++ angles false rest.
Proof.
  induction pre as [|x pre IH]; intros rest H; [reflexivity|].
  inversion H; subst. simpl. rewrite H2. f_equal. apply IH. assumption.
Qed.

Lemma angles_inside mid : forall rest,
  Forall no_angle mid ->
  angles true (mid ++ rest) = mid ++ angles true rest.
Proof.
  induction mid as [|x mid IH]; intros rest H; [reflexivity|].
  inversion H as [|? ? [Hl Hg] Hm]; subst. simpl. rewrite Hl, Hg.
  f_equal. apply IH. assumption.
Qed.

Lemma scan_angle_spec : forall s acc,
  match scan_angle s acc with
  | FoundGt inside rest =>
      exists mid, inside = acc ++ mid /\ s = mid ++ GT :: rest
                  /\ Forall no_angle mid
  | FoundNextLt inside rest =>
      exists mid r2, inside = acc ++ mid /\ s = mid ++ rest
                     /\ rest = LT :: r2 /\ Forall no_angle mid
  | FoundNone => Forall no_angle s
  end.
Proof.
  induction s as [|ch s IH]; intros acc; simpl; [constructor|].
  destruct (ch =? GT) eqn:Eg.
  - apply N.eqb_eq in Eg. subst. exists []. rewrite app_nil_r.
    repeat split. constructor.
  - destruct (ch =? LT) eqn:El.
    + apply N.eqb_eq in El. subst. exists [], s. rewrite app_nil_r.
      repeat split. constructor.
    + specialize (IH (acc ++ [ch])).
      destruct (scan_angle s (acc ++ [ch])) as [inside rest|inside rest|].
      * destruct IH as (mid & Hi & Hs & Hm). exists (ch :: mid).
        rewrite Hi, <- app_assoc. split; [reflexivity|].
        split; [simpl; f_equal; exact Hs|].
        constructor; [split; assumption|exact Hm].
      * destruct IH as (mid & r2 & Hi & Hs & Hr & Hm). exists (ch :: mid), r2.
        rewrite Hi, <- app_assoc. split; [reflexivity|].
        split; [simpl; f_equal; exact Hs|].
        split; [exact Hr|]. constructor; [split; assumption|exact Hm].
      * constructor; [split; assumption|exact IH].
Qed.

Lemma close_segment_open mid :
  Forall no_angle mid -> close_segment (LT :: mid) = LT :: mid ++ [GT].
Proof.
  intros H. unfold close_segment, endsWith.
  assert (E : startsWith (rev (LT :: mid)) (rev [GT]) = false).
  { simpl rev at 2. destruct (rev (LT :: mid)) as [|x t] eqn:Er.
    - reflexivity.
    - assert (Hin : In x (LT :: mid)).
      { apply in_rev. rewrite Er. left. reflexivity. }
      cbn [startsWith]. destruct Hin as [<-|Hin]; [reflexivity|].
      rewrite Forall_forall in H. destruct (H x Hin) as [_ Hg].
      rewrite Hg. reflexivity. }
  rewrite E. reflexivity.
Qed.

Ltac list_eq :=
  repeat (rewrite <- ?app_assoc; cbn [app]); reflexivity.

Lemma autoClose_loop_angles : forall fuel s out r,
  autoClose_loop fuel s out = Some r -> r = out ++ angles false s.
Proof.
  induction fuel as [|fuel IH]; intros s out r H; [discriminate|].
  cbn [autoClose_loop] in H. destruct s as [|c s].
  - inversion H; subst. simpl. rewrite app_nil_r. reflexivity.
  - destruct (indexOf (c :: s) LT) as [lt|] eqn:Ei.
    + pose proof (indexOf_skipn _ _ _ Ei) as E.
      apply indexOf_some in Ei. destruct Ei as [Hs Hpre].
      pose proof (scan_angle_spec (skipn (S lt) (c :: s)) []) as Hsp.
      rewrite Hs at 1. rewrite (angles_outside _ _ Hpre).
      cbn [angles]. change (LT =? LT) with true. cbv iota.
      destruct (scan_angle (skipn (S lt) (c :: s)) []) as [inside rest|inside rest|].
      * destruct Hsp as (mid & -> & Hrest & Hmid). simpl app at 1 in H.
        apply IH in H. rewrite H, Hrest, (angles_inside _ _ Hmid).
        cbn [angles]. change (GT =? GT) with true. cbv iota.
        list_eq.
      * destruct Hsp as (mid & r2 & -> & Hrest & -> & Hmid). simpl app at 1 in H.
        apply IH in H. rewrite H, Hrest, (angles_inside _ _ Hmid).
        rewrite (close_segment_open _ Hmid).
        cbn [angles]. change (LT =? GT) with false. change (LT =? LT) with true.
        cbv iota. list_eq.
      * inversion H; subst r.
        rewrite E, (close_segment_open _ Hsp).
        rewrite <- (app_nil_r (skipn (S lt) (c :: s))) at 2.
        rewrite (angles_inside _ _ Hsp). cbn [angles]. list_eq.
    + inversion H; subst. apply indexOf_none in Ei.
      rewrite <- (app_nil_r (c :: s)) at 2.
      rewrite (angles_outside _ _ Ei). simpl. rewrite app_nil_r. reflexivity.
Qed.

Lemma autoCloseAngleBrackets_angles input :
  autoCloseAngleBrackets input = angles false input.
Proof.
  pose proof (autoCloseAngleBrackets_result input) as H.
  apply autoClose_loop_angles in H. exact H.
Qed.

Lemma angles_are_closed : forall s in_tag,
  closed_from in_tag (angles in_tag s) = true.
Proof.
  induction s as [|c s IH]; intros in_tag.
  - destruct in_tag; reflexivity.
  - destruct in_tag; cbn [angles].
    + destruct (c =? GT) eqn:Eg.
      * cbn [closed_from]. change (GT =? GT) with true. cbv iota. apply IH.
      * destruct (c =? LT) eqn:El.
        -- cbn [closed_from]. change (GT =? GT) with true.
           change (LT =? LT) with true. cbv iota. apply IH.
        -- cbn [closed_from]. rewrite Eg, El. apply IH.
    + destruct (c =? LT) eqn:El.
      * cbn [closed_from]. change (LT =? LT) with true. cbv iota. apply IH.
      * cbn [closed_from]. rewrite El. apply IH.
Qed.

Lemma angles_fix : forall s in_tag,
  closed_from in_tag s = true -> angles in_tag s = s.
Proof.
  induction s as [|c s IH]; intros in_tag H.
  - destruct in_tag; [discriminate|reflexivity].
  - destruct in_tag; cbn [angles closed_from] in *.
    + destruct (c =? GT) eqn:Eg.
      * apply N.eqb_eq in Eg. subst. f_equal. apply IH, H.
      * destruct (c =? LT); [discriminate|]. f_equal. apply IH, H.
    + destruct (c =? LT) eqn:El.
      * apply N.eqb_eq in El. subst. f_equal. apply IH, H.
      * f_equal. apply IH, H.
Qed.

Lemma angles_adds_gt : forall s in_tag,
  filter (fun c => negb (c =? GT)) (angles in_tag s)
  = filter (fun c => negb (c =? GT)) s
  /\ (length s <= length (angles in_tag s))%nat.
Proof.
  induction s as [|c s IH]; intros in_tag.
  - destruct in_tag; split; simpl; auto.
  - destruct in_tag; cbn [angles].
    + destruct (c =? GT) eqn:Eg.
      * apply N.eqb_eq in Eg. subst. destruct (IH false) as [Hf Hl].
        simpl. split; [exact Hf|lia].
      * destruct (c =? LT) eqn:El.
        -- apply N.eqb_eq in El. subst. destruct (IH true) as [Hf Hl].
           simpl. split; [f_equal; exact Hf|lia].
        -- destruct (IH true) as [Hf Hl]. simpl. rewrite Eg. simpl.
           split; [f_equal; exact Hf|lia].
    + destruct (c =? LT) eqn:El.
      * apply N.eqb_eq in El. subst. destruct (IH true) as [Hf Hl].
        simpl. split; [f_equal; exact Hf|lia].
      * destruct (IH false) as [Hf Hl]. simpl.
        destruct (c =? GT); simpl; split; try (f_equal; exact Hf); try exact Hf; lia.
Qed.

(** In the text that [autoCloseAngleBrackets] returns every ['<'] is
    closed: a ['>'] follows it before the next ['<'] and before the end of
    the text. *)
Theorem autoCloseAngleBrackets_closes_every_tag :
  forall input : jsstring,
    angles_closed (autoCloseAngleBrackets input) = true.
Proof.
  intros input. rewrite autoCloseAngleBrackets_angles. apply angles_are_closed.
Qed.

(** [autoCloseAngleBrackets] returns as it is a text in which every ['<']
    is closed; hence it changes nothing when applied a second time. *)
Theorem autoCloseAngleBrackets_keeps_closed_text :
  (forall input : jsstring,
      angles_closed input = true -> autoCloseAngleBrackets input = input)
  /\ (forall input : jsstring,
         autoCloseAngleBrackets (autoCloseAngleBrackets input)
         = autoCloseAngleBrackets input).
Proof.
  assert (H : forall input, angles_closed input = true ->
                            autoCloseAngleBrackets input = input).
  { intros input Hc. rewrite autoCloseAngleBrackets_angles. apply angles_fix, Hc. }
  split; [exact H|].
  intros input. apply H. rewrite autoCloseAngleBrackets_angles. apply angles_are_closed.
Qed.

Lemma autoCloseAngleBrackets_keeps_closed_text_witness :
  autoCloseAngleBrackets (js "a > b <c d='1'/> e") = js "a > b <c d='1'/> e".
Proof.
  apply (proj1 autoCloseAngleBrackets_keeps_closed_text (js "a > b <c d='1'/> e")).
  vm_compute; reflexivity.
Defined.

(** [autoCloseAngleBrackets] inserts ['>'] characters and does nothing
    else: the text without its ['>'] is unchanged, and the text does not
    shrink. *)
Theorem autoCloseAngleBrackets_inserts_gt_only :
  forall input : jsstring,
    filter (fun c => negb (c =? GT)) (autoCloseAngleBrackets input)
    = filter (fun c => negb (c =? GT)) input
    /\ (length input <= length (autoCloseAngleBrackets input))%nat.
Proof.
  intros input. rewrite autoCloseAngleBrackets_angles. apply angles_adds_gt.
Qed.

(* ------------------------------------------------------------------ *)
(** ** Blocks cut out of a text *)
(* ------------------------------------------------------------------ *)

Lemma slice_part (s : jsstring) a b :
  exists pre post, s = pre ++ slice s a b ++ post.
Proof.
  exists (firstn a s), (skipn (b - a) (skipn a s)). unfold slice.
  rewrite firstn_skipn, firstn_skipn. reflexivity.
Qed.

Lemma slice_whole (s : jsstring) : slice s 0 (length s) = s.
Proof. unfold slice. simpl. rewrite Nat.sub_0_r. apply firstn_all. Qed.

Lemma lastIndexOf_snoc d : forall x, lastIndexOf (x ++ [d]) d = Some (length x).
Proof.
  induction x as [|c x IH]; simpl.
  - rewrite N.eqb_refl. reflexivity.
  - rewrite IH. reflexivity.
Qed.

Lemma indexOf_nth c : forall s i,
  indexOf s c = Some i -> nth i s 0 = c /\ (i < length s)%nat.
Proof.
  induction s as [|x s IH]; intros i H; [discriminate|].
  simpl in H. destruct (x =? c) eqn:E.
  - inversion H; subst. apply N.eqb_eq in E. simpl. split; [exact E|lia].
  - destruct (indexOf s c) as [j|]; [|discriminate].
    inversion H; subst. destruct (IH j eq_refl). simpl. split; [assumption|lia].
Qed.

Lemma lastIndexOf_nth d : forall s e,
  lastIndexOf s d = Some e -> nth e s 0 = d /\ (e < length s)%nat.
Proof.
  induction s as [|x s IH]; intros e H; [discriminate|].
  simpl in H. destruct (lastIndexOf s d) as [i|].
  - inversion H; subst. destruct (IH i eq_refl). simpl. split; [assumption|lia].
  - destruct (x =? d) eqn:E; [|discriminate]. inversion H; subst.
    apply N.eqb_eq in E. simpl. split; [exact E|lia].
Qed.

Lemma nth_skipn_plus (s : jsstring) : forall n k,
  nth k (skipn n s) 0 = nth (n + k) s 0.
Proof.
  induction s as [|x s IH]; intros n k.
  - rewrite skipn_nil. destruct k, n; reflexivity.
  - destruct n; [reflexivity|]. simpl. apply IH.
Qed.

Lemma firstn_succ_nth (u : jsstring) : forall k,
  (k < length u)%nat -> firstn (S k) u = firstn k u ++ [nth k u 0].
Proof.
  induction u as [|x u IH]; intros k H; [simpl in H; lia|].
  destruct k; [reflexivity|].
  cbn [firstn nth app]. f_equal. change (firstn (S k) u = firstn k u ++ [nth k u 0]).
  apply IH. simpl in H. lia.
Qed.

(** The slice between the first [c] and the last [d] of a text, [c] and
    [d] being different: empty when the last [d] comes first, else a text
    that starts with [c] and ends with [d]. *)
Lemma slice_between c d (s : jsstring) a e :
  c <> d ->
  indexOf s c = Some a -> lastIndexOf s d = Some e ->
  slice s a (e + 1) = []
  \/ exists mid, slice s a (e + 1) = c :: mid ++ [d].
Proof.
  intros Hcd Ha He.
  pose proof (indexOf_skipn _ _ _ Ha) as Hs.
  apply indexOf_nth in Ha. apply lastIndexOf_nth in He.
  destruct Ha as [Ha La], He as [He Le].
  destruct (Nat.lt_trichotomy e a) as [Hlt|[->|Hgt]].
  - left. unfold slice. replace (e + 1 - a)%nat with O by lia. reflexivity.
  - congruence.
  - right. unfold slice. rewrite Hs.
    replace (e + 1 - a)%nat with (S (S (e - a - 1))) by lia.
    rewrite firstn_cons. exists (firstn (e - a - 1) (skipn (S a) s)). f_equal.
    rewrite firstn_succ_nth by (rewrite length_skipn; lia).
    rewrite nth_skipn_plus. replace (S a + (e - a - 1))%nat with e by lia.
    rewrite He. reflexivity.
Qed.

Lemma indexOf_positive c x (s : jsstring) :
  (x =? c) = false ->
  match indexOf (x :: s) c with Some O => False | _ => True end.
Proof.
  intros H. simpl. rewrite H. destruct (indexOf s c); exact I.
Qed.

Lemma json_block_array mid :
  json_block (LBRACKET :: mid ++ [RBRACKET]) = LBRACKET :: mid ++ [RBRACKET].
Proof.
  unfold json_block.
  change (indexOf (LBRACKET :: mid ++ [RBRACKET]) LBRACKET) with (Some O).
  change (LBRACKET :: mid ++ [RBRACKET]) with ((LBRACKET :: mid) ++ [RBRACKET]).
  rewrite lastIndexOf_snoc.
  replace (length (LBRACKET :: mid) + 1)%nat
    with (length ((LBRACKET :: mid) ++ [RBRACKET]))
    by (rewrite length_app; reflexivity).
  rewrite slice_whole.
  pose proof (indexOf_positive LBRACE LBRACKET (mid ++ [RBRACKET]) eq_refl) as H.
  change ((LBRACKET :: mid) ++ [RBRACKET]) with (LBRACKET :: mid ++ [RBRACKET]).
  destruct (indexOf (LBRACKET :: mid ++ [RBRACKET]) LBRACE) as [[|o]|];
    [contradiction|reflexivity|reflexivity].
Qed.

Lemma json_block_object mid :
  json_block (LBRACE :: mid ++ [RBRACE]) = LBRACE :: mid ++ [RBRACE].
Proof.
  unfold json_block.
  change (indexOf (LBRACE :: mid ++ [RBRACE]) LBRACE) with (Some O).
  change (LBRACE :: mid ++ [RBRACE]) with ((LBRACE :: mid) ++ [RBRACE]).
  rewrite lastIndexOf_snoc.
  replace (length (LBRACE :: mid) + 1)%nat
    with (length ((LBRACE :: mid) ++ [RBRACE]))
    by (rewrite length_app; reflexivity).
  rewrite slice_whole.
  pose proof (indexOf_positive LBRACKET LBRACE (mid ++ [RBRACE]) eq_refl) as H.
  change ((LBRACE :: mid) ++ [RBRACE]) with (LBRACE :: mid ++ [RBRACE]).
  destruct (indexOf (LBRACE :: mid ++ [RBRACE]) LBRACKET) as [[|a]|];
    [contradiction| |reflexivity].
  destruct (lastIndexOf (LBRACE :: mid ++ [RBRACE]) RBRACKET); reflexivity.
Qed.

Lemma json_block_cases code :
  json_block code = code
  \/ (exists a e,
         indexOf code LBRACKET = Some a /\ lastIndexOf code RBRACKET = Some e
         /\ json_block code = slice code a (e + 1))
  \/ (exists os oe,
         indexOf code LBRACE = Some os /\ lastIndexOf code RBRACE = Some oe
         /\ json_block code = slice code os (oe + 1)).
Proof.
  unfold json_block.
  destruct (indexOf code LBRACE) as [os|] eqn:Eos;
  destruct (lastIndexOf code RBRACE) as [oe|] eqn:Eoe;
  destruct (indexOf code LBRACKET) as [a|] eqn:Ea;
  destruct (lastIndexOf code RBRACKET) as [e|] eqn:Ee;
  try (destruct (a <? os)%nat);
  try (left; reflexivity);
  try (right; left; exists a, e; repeat split; reflexivity);
  right; right; exists os, oe; repeat split; reflexivity.
Qed.

Lemma json_block_idempotent code :
  json_block (json_block code) = json_block code.
Proof.
  destruct (json_block_cases code)
    as [H|[(a & e & Ha & He & H)|(os & oe & Hos & Hoe & H)]]; rewrite H.
  - exact H.
  - destruct (slice_between LBRACKET RBRACKET code a e ltac:(discriminate) Ha He)
      as [->|[mid ->]]; [reflexivity|apply json_block_array].
  - destruct (slice_between LBRACE RBRACE code os oe ltac:(discriminate) Hos Hoe)
      as [->|[mid ->]]; [reflexivity|apply json_block_object].
Qed.

(** [extractJSON] returns a part of its input, and returns that part as it
    is when applied to it: nothing is cut twice. *)
Theorem extractJSON_cuts_once :
  forall s : jsstring,
  exists t : jsstring,
    extractJSON (VString s) = Returned (VString t)
    /\ (exists pre post, s = pre ++ t ++ post)
    /\ extractJSON (VString t) = Returned (VString t).
Proof.
  intros [|c s].
  - exists []. split; [reflexivity|]. split; [exists [], []; reflexivity|reflexivity].
  - exists (json_block (c :: s)). split; [reflexivity|]. split.
    + destruct (json_block_cases (c :: s))
        as [H|[(a & e & _ & _ & H)|(os & oe & _ & _ & H)]]; rewrite H.
      * exists [], []. rewrite app_nil_r. reflexivity.
      * apply slice_part.
      * apply slice_part.
    + destruct (json_block (c :: s)) as [|x t] eqn:E; [reflexivity|].
      change (extractJSON (VString (x :: t)))
        with (Returned (VString (json_block (x :: t)))).
      rewrite <- E, json_block_idempotent. reflexivity.
Qed.

(* ------------------------------------------------------------------ *)
(** ** [extractXML] *)
(* ------------------------------------------------------------------ *)

Lemma lit_ci_parts {R} (k : cont R) : forall w s r,
  lit_ci w k s = Some r ->
  exists name rest, s = name ++ rest /\ ci_equal name w /\ k rest = Some r.
Proof.
  induction w as [|p w IH]; intros s r H.
  - exists [], s. repeat split; [constructor|exact H].
  - destruct s as [|c s]; [discriminate|]. cbn [lit_ci] in H.
    destruct (char_eqb_ci c p) eqn:E; [|discriminate].
    destruct (IH _ _ H) as (name & rest & -> & Hci & Hk).
    exists (c :: name), rest. repeat split; [|exact Hk].
    constructor; assumption.
Qed.

Lemma ci_equal_length a b : ci_equal a b -> length a = length b.
Proof. induction 1; simpl; congruence. Qed.

Lemma alt_ci_unit (k : jsstring -> cont unit) w : forall ws s,
  In w ws ->
  lit_ci w (k (firstn (length w) s)) s = Some tt ->
  alt_ci ws k s = Some tt.
Proof.
  induction ws as [|w' ws IH]; intros s Hin Hm; [contradiction|].
  cbn [alt_ci].
  destruct (lit_ci w' (k (firstn (length w') s)) s) as [[]|] eqn:E; [reflexivity|].
  destruct Hin as [->|Hin]; [congruence|]. apply IH; assumption.
Qed.

Lemma root_name_letters w :
  In w root_names -> Forall (fun c => is_alpha c = true) w.
Proof.
  intros H. simpl in H.
  destruct H as [<-|[<-|[<-|[]]]]; repeat constructor.
Qed.

Lemma ci_alpha_not_gt x y :
  char_eqb_ci x y = true -> is_alpha y = true -> (x =? GT) = false.
Proof.
  unfold char_eqb_ci, lower_char. intros H Hy. apply N.eqb_eq in H.
  apply N.eqb_neq. intros ->.
  assert (Hl : 65 <= y <= 122).
  { unfold is_alpha, is_upper, is_lower in Hy.
    rewrite ?orb_true_iff, ?andb_true_iff, ?N.leb_le in Hy. lia. }
  clear Hy. unfold is_upper in H. simpl in H.
  destruct (N.leb_spec 65 y), (N.leb_spec y 90); simpl in H; lia.
Qed.

Lemma ci_name_no_gt name w :
  ci_equal name w -> Forall (fun c => is_alpha c = true) w ->
  Forall (fun c => (c =? GT) = false) name.
Proof.
  induction 1 as [|x y name w Hxy _ IH]; intros Hw; [constructor|].
  inversion Hw; subst. constructor; [|apply IH; assumption].
  apply (ci_alpha_not_gt x y); assumption.
Qed.

Lemma alt_ci_parts {R} (k : jsstring -> cont R) : forall ws s r,
  alt_ci ws k s = Some r ->
  exists w name rest,
    In w ws /\ s = name ++ rest /\ ci_equal name w /\ k name rest = Some r.
Proof.
  induction ws as [|w ws IH]; intros s r H; [discriminate|].
  cbn [alt_ci] in H.
  destruct (lit_ci w (k (firstn (length w) s)) s) as [r'|] eqn:E.
  - inversion H; subst. apply lit_ci_parts in E.
    destruct E as (name & rest & -> & Hci & Hk).
    rewrite <- (ci_equal_length _ _ Hci) in Hk.
    rewrite firstn_app, Nat.sub_diag, firstn_all in Hk.
    simpl in Hk. rewrite app_nil_r in Hk.
    exists w, name, rest. split; [left; reflexivity|auto].
  - destruct (IH _ _ H) as (w' & name & rest & Hin & Hrest).
    exists w', name, rest. split; [right; exact Hin|exact Hrest].
Qed.

Lemma root_tag_parts t :
  root_tag_re t = Some tt ->
  exists w name c rest,
    In w root_names /\ ci_equal name w
    /\ (is_ws c || (c =? GT)) = true
    /\ t = LT :: name ++ c :: rest.
Proof.
  unfold root_tag_re. intros H.
  apply lit_one_result in H. destruct H as (r1 & -> & H).
  apply alt_ci_parts in H. destruct H as (w & name & r2 & Hin & -> & Hci & H).
  apply one_result in H. destruct H as (c & rest & -> & Hc & _).
  exists w, name, c, rest. auto.
Qed.

Lemma root_tag_match w name c rest :
  In w root_names -> ci_equal name w ->
  (is_ws c || (c =? GT)) = true ->
  root_tag_re (LT :: name ++ c :: rest) = Some tt.
Proof.
  intros Hin Hci Hc. unfold root_tag_re, lit. cbn [startsWith length skipn].
  rewrite N.eqb_refl. cbn [andb].
  apply (alt_ci_unit _ w); [exact Hin|].
  rewrite lit_ci_equal by exact Hci. unfold one. rewrite Hc. reflexivity.
Qed.

Lemma nth_app_cons_middle (name : jsstring) c rest k :
  (1 <= k <= length name)%nat ->
  In (nth k (LT :: name ++ c :: rest) 0) name.
Proof.
  intros Hk. destruct k as [|k]; [lia|]. cbn [nth].
  rewrite app_nth1 by lia. apply nth_In. lia.
Qed.

Lemma xml_block_cases code :
  xml_block code = code
  \/ exists start e,
       search root_tag_re code = Some (start, tt)
       /\ lastIndexOf code GT = Some e /\ (start < e)%nat
       /\ xml_block code = slice code start (e + 1).
Proof.
  unfold xml_block.
  destruct (search root_tag_re code) as [[start []]|]; [|left; reflexivity].
  destruct (lastIndexOf code GT) as [e|]; [|left; reflexivity].
  destruct (start <? e)%nat eqn:Elt; [|left; reflexivity].
  apply Nat.ltb_lt in Elt. right. exists start, e. auto.
Qed.

Lemma xml_block_idempotent code : xml_block (xml_block code) = xml_block code.
Proof.
  destruct (xml_block_cases code) as [H|(start & e & Es & Ee & Elt & H)];
    rewrite H; [exact H|]. clear H.
  apply search_found in Es. destruct Es as (pre & t & -> & Hpre & Ht).
  apply lastIndexOf_nth in Ee. destruct Ee as [He Le].
  destruct (root_tag_parts _ Ht) as (w & name & c & rest & Hin & Hci & Hc & ->).
  assert (Hsk : skipn start (pre ++ LT :: name ++ c :: rest)
                = LT :: name ++ c :: rest).
  { rewrite skipn_app, <- Hpre, Nat.sub_diag, skipn_all. reflexivity. }
  assert (Hnth : nth (e - start) (LT :: name ++ c :: rest) 0 = GT).
  { rewrite <- Hsk, nth_skipn_plus. replace (start + (e - start))%nat with e by lia.
    exact He. }
  assert (Hlen : (length name < e - start)%nat).
  { destruct (Nat.lt_ge_cases (length name) (e - start)) as [|Hge]; [assumption|].
    exfalso.
    pose proof (nth_app_cons_middle name c rest (e - start) ltac:(lia)) as Hmem.
    rewrite Hnth in Hmem.
    pose proof (ci_name_no_gt _ _ Hci (root_name_letters _ Hin)) as Hno.
    rewrite Forall_forall in Hno. specialize (Hno _ Hmem). discriminate Hno. }
  assert (Hblock : slice (pre ++ LT :: name ++ c :: rest) start (e + 1)
                   = LT :: name ++ c :: firstn (e - start - length name - 1) rest).
  { unfold slice. rewrite Hsk.
    replace (e + 1 - start)%nat with (S (e - start)) by lia.
    rewrite firstn_cons. f_equal. rewrite firstn_app.
    rewrite firstn_all2 by lia. f_equal.
    replace (e - start - length name)%nat
      with (S (e - start - length name - 1)) by lia.
    rewrite firstn_cons. do 2 f_equal. lia. }
  assert (Hlast : exists body,
             slice (pre ++ LT :: name ++ c :: rest) start (e + 1) = body ++ [GT]
             /\ length body = (e - start)%nat).
  { unfold slice. rewrite Hsk.
    replace (e + 1 - start)%nat with (S (e - start)) by lia.
    assert (Hl : (e - start < length (LT :: name ++ c :: rest))%nat).
    { rewrite <- Hsk, length_skipn. lia. }
    rewrite firstn_succ_nth by exact Hl. rewrite Hnth.
    eexists. split; [reflexivity|]. rewrite length_firstn. lia. }
  destruct Hlast as (body & Hbody & Hlb).
  unfold xml_block.
  assert (Hs0 : search root_tag_re
                  (slice (pre ++ LT :: name ++ c :: rest) start (e + 1))
                = Some (O, tt)).
  { rewrite Hblock. cbn [search].
    rewrite (root_tag_match w name c _ Hin Hci Hc). reflexivity. }
  rewrite Hs0. rewrite Hbody at 1. rewrite lastIndexOf_snoc, Hlb.
  assert (E0 : (0 <? e - start)%nat = true) by (apply Nat.ltb_lt; lia).
  rewrite E0.
  replace (e - start + 1)%nat
    with (length (slice (pre ++ LT :: name ++ c :: rest) start (e + 1)))
    by (rewrite Hbody, length_app, Hlb; reflexivity).
  apply slice_whole.
Qed.

(** [extractXML] returns a part of its input, and returns that part as it
    is when applied to it: nothing is cut twice. *)
Theorem extractXML_cuts_once :
  forall s : jsstring,
  exists t : jsstring,
    extractXML (VString s) = Returned (VString t)
    /\ (exists pre post, s = pre ++ t ++ post)
    /\ extractXML (VString t) = Returned (VString t).
Proof.
  intros [|c s].
  - exists []. split; [reflexivity|]. split; [exists [], []; reflexivity|reflexivity].
  - exists (xml_block (c :: s)). split; [reflexivity|]. split.
    + destruct (xml_block_cases (c :: s)) as [H|(start & e & _ & _ & _ & H)];
        rewrite H; [exists [], []; rewrite app_nil_r; reflexivity|apply slice_part].
    + destruct (xml_block (c :: s)) as [|x t] eqn:E; [reflexivity|].
      change (extractXML (VString (x :: t)))
        with (Returned (VString (xml_block (x :: t)))).
      rewrite <- E, xml_block_idempotent. reflexivity.
Qed.

(* ------------------------------------------------------------------ *)
(** ** [ensureExcalidrawArray] on text that parses *)
(* ------------------------------------------------------------------ *)

Lemma parse_nonempty text v : JSON.parse text = Returned v -> text <> [].
Proof. intros H ->. vm_compute in H. discriminate H. Qed.

Lemma parse_value_bracket fuel ts v r :
  JSON.parse_value fuel (JSON.TLBracket :: ts) = Some (v, r) ->
  JSON.isArray v = true.
Proof.
  destruct fuel as [|f]; [discriminate|]. cbn [JSON.parse_value].
  destruct ts as [|t ts].
  - destruct (JSON.parse_elements f []) as [[items r']|]; [|discriminate].
    intros H; inversion H; reflexivity.
  - destruct t;
      try (destruct (JSON.parse_elements f _) as [[items r']|]; [|discriminate];
           intros H; inversion H; reflexivity).
    intros H; inversion H; reflexivity.
Qed.

Lemma parse_bracket_array rest v :
  JSON.parse (LBRACKET :: rest) = Returned v -> JSON.isArray v = true.
Proof.
  unfold JSON.parse.
  change (JSON.lex (S (length (LBRACKET :: rest))) (LBRACKET :: rest))
    with (option_map (cons JSON.TLBracket)
            (JSON.lex (length (LBRACKET :: rest)) rest)).
  destruct (JSON.lex (length (LBRACKET :: rest)) rest) as [ts|]; [|discriminate].
  cbn [option_map].
  destruct (JSON.parse_value (2 * length (JSON.TLBracket :: ts) + 2)
              (JSON.TLBracket :: ts)) as [[v' [|t r]]|] eqn:E; try discriminate.
  intros H. inversion H; subst. eapply parse_value_bracket. exact E.
Qed.

(** A text that parses is turned by [ensureExcalidrawArray] into the
    printed form of an array: the parsed array itself; for another value,
    its [elements] array if it has one, else its [items] array if it has
    one, else the value alone in an array.  The numbers of the value are
    integers of magnitude at most 2^53, which are printed as they are
    read. *)
Theorem ensureExcalidrawArray_prints_an_array :
  forall (s : jsstring) (data : JSON.json),
    JSON.parse (trim s) = Returned data ->
    only_integers data = true ->
    exists els : list JSON.json,
      ensureExcalidrawArray (VString s)
      = Returned (VString (JSON.stringify2 (JSON.JArray els)))
      /\ (forall items, data = JSON.JArray items -> els = items)
      /\ (forall e,
            JSON.isArray data = false ->
            JSON.get data (js "elements") = Some (JSON.JArray e) -> els = e)
      /\ (forall i,
            JSON.isArray data = false ->
            (forall e, JSON.get data (js "elements") <> Some (JSON.JArray e)) ->
            JSON.get data (js "items") = Some (JSON.JArray i) -> els = i)
      /\ (JSON.isArray data = false ->
          (forall e, JSON.get data (js "elements") <> Some (JSON.JArray e)) ->
          (forall i, JSON.get data (js "items") <> Some (JSON.JArray i)) ->
          els = [data]).
Proof.
  intros s data Hp _.
  pose proof (parse_nonempty _ _ Hp) as Hne.
  assert (Hs : ensureExcalidrawArray (VString s)
               = Returned (VString (excalidraw_array s))).
  { destruct s as [|c s]; [contradiction Hne; reflexivity|reflexivity]. }
  rewrite Hs. unfold excalidraw_array.
  destruct (trim s) as [|first rest] eqn:Et; [contradiction Hne; reflexivity|].
  rewrite Hp.
  assert (Hcases :
    forall out,
      out = (if JSON.isArray data then JSON.stringify2 data
             else
               match JSON.truthy data, JSON.get data (js "elements") with
               | true, Some (JSON.JArray els) =>
                   JSON.stringify2 (JSON.JArray els)
               | _, _ =>
                   match JSON.truthy data, JSON.get data (js "items") with
                   | true, Some (JSON.JArray items) =>
                       JSON.stringify2 (JSON.JArray items)
                   | _, _ => JSON.stringify2 (JSON.JArray [data])
                   end
               end) ->
      exists els : list JSON.json,
        Returned (VString out)
        = Returned (VString (JSON.stringify2 (JSON.JArray els)))
        /\ (forall items, data = JSON.JArray items -> els = items)
        /\ (forall e,
              JSON.isArray data = false ->
              JSON.get data (js "elements") = Some (JSON.JArray e) -> els = e)
        /\ (forall i,
              JSON.isArray data = false ->
              (forall e, JSON.get data (js "elements") <> Some (JSON.JArray e)) ->
              JSON.get data (js "items") = Some (JSON.JArray i) -> els = i)
        /\ (JSON.isArray data = false ->
            (forall e, JSON.get data (js "elements") <> Some (JSON.JArray e)) ->
            (forall i, JSON.get data (js "items") <> Some (JSON.JArray i)) ->
            els = [data])).
  { intros out ->.
    destruct data as [| b | n | str | items | fields].
    - exists [JSON.JNull]. repeat split; intros; try discriminate; reflexivity.
    - exists [JSON.JBool b].
      split; [destruct b; reflexivity|].
      repeat split; intros; try discriminate; reflexivity.
    - exists [JSON.JNumber n].
      split; [cbn [JSON.isArray JSON.get];
              destruct (JSON.truthy (JSON.JNumber n)); reflexivity|].
      repeat split; intros; try discriminate; reflexivity.
    - exists [JSON.JString str].
      split; [cbn [JSON.isArray JSON.get];
              destruct (JSON.truthy (JSON.JString str)); reflexivity|].
      repeat split; intros; try discriminate; reflexivity.
    - exists items. split; [reflexivity|].
      repeat split; intros; try discriminate. congruence.
    - cbn [JSON.isArray JSON.truthy JSON.get].
      destruct (JSON.lookup (js "elements") fields) as [elv|] eqn:Ee.
      + destruct elv as [| | | |els|];
          try (destruct (JSON.lookup (js "items") fields) as [[| | | |its|]|] eqn:Ei;
               eexists; (split; [reflexivity|]);
               repeat split; intros; try discriminate; try congruence;
               try reflexivity;
               match goal with
               | H : forall i, Some _ <> Some (JSON.JArray i) |- _ =>
                   exfalso; eapply H; reflexivity
               end).
      + destruct (JSON.lookup (js "items") fields) as [[| | | |its|]|] eqn:Ei;
          eexists; (split; [reflexivity|]);
          repeat split; intros; try discriminate; try congruence;
          try reflexivity;
          match goal with
          | H : forall i, Some _ <> Some (JSON.JArray i) |- _ =>
              exfalso; eapply H; reflexivity
          end. }
  destruct ((first =? LBRACKET) && (last (first :: rest) 0 =? RBRACKET)) eqn:Eshape.
  - apply andb_true_iff in Eshape. destruct Eshape as [Ef _].
    apply N.eqb_eq in Ef. subst first.
    pose proof (parse_bracket_array _ _ Hp) as Harr.
    apply Hcases. rewrite Harr. reflexivity.
  - apply Hcases. reflexivity.
Qed.

Lemma ensureExcalidrawArray_prints_an_array_witness :
  exists els : list JSON.json,
    ensureExcalidrawArray (VString (jq " {'elements': [1, 2]} "))
    = Returned (VString (JSON.stringify2 (JSON.JArray els))).
Proof.
  destruct (ensureExcalidrawArray_prints_an_array
              (jq " {'elements': [1, 2]} ")
              (JSON.JObject [(js "elements",
                              JSON.JArray [JSON.JNumber (JSON.Int 1);
                                           JSON.JNumber (JSON.Int 2)])]))
    as (els & H & _).
  - vm_compute; reflexivity.
  - reflexivity.
  - exists els. exact H.
Defined.

(* ------------------------------------------------------------------ *)
(** ** The string literals of the output of [fixJSON] are closed *)
(* ------------------------------------------------------------------ *)

Lemma lit_run_plain w : Forall plain w -> forall p,
  p <> Escaping -> lit_run p w = p.
Proof.
  induction 1 as [|x w (Hq & Hb & _) _ IH]; intros p Hp; [reflexivity|].
  rewrite lit_run_cons.
  destruct p; cbn [lit_step]; rewrite ?Hq, ?Hb; try (apply IH; discriminate).
  contradiction Hp; reflexivity.
Qed.

Lemma lex_string_run : forall n s acc str r,
  (length s <= n)%nat ->
  JSON.lex_string s acc = Some (str, r) ->
  forall k, lit_run Inside (s ++ k) = lit_run Outside (r ++ k).
Proof.
  induction n as [|n IH]; intros s acc str r Hn H k.
  - destruct s; [discriminate H|simpl in Hn; lia].
  - destruct s as [|x s]; [discriminate H|]. simpl in Hn.
    cbn [JSON.lex_string] in H.
    destruct (N.eqb_spec x QUOTE) as [->|Eq].
    { inversion H; subst. reflexivity. }
    destruct (N.eqb_spec x BACKSLASH) as [->|Eb].
    { destruct s as [|e s1]; [discriminate H|].
      change ((BACKSLASH :: e :: s1) ++ k) with (BACKSLASH :: e :: (s1 ++ k)).
      rewrite !lit_run_cons.
      change (lit_step (lit_step Inside BACKSLASH) e) with Inside.
      destruct (e =? 117).
      - destruct s1 as [|h1 [|h2 [|h3 [|h4 s2]]]]; try discriminate H.
        destruct (JSON.hex4 h1 h2 h3 h4) as [u|] eqn:Eh; [|discriminate H].
        unfold JSON.hex4 in Eh.
        destruct (JSON.hex_val h1) eqn:E1; [|discriminate Eh].
        destruct (JSON.hex_val h2) eqn:E2; [|discriminate Eh].
        destruct (JSON.hex_val h3) eqn:E3; [|discriminate Eh].
        destruct (JSON.hex_val h4) eqn:E4; [|discriminate Eh].
        apply hex_plain in E1, E2, E3, E4.
        change ((h1 :: h2 :: h3 :: h4 :: s2) ++ k)
          with ([h1; h2; h3; h4] ++ (s2 ++ k)).
        rewrite lit_run_app.
        rewrite (lit_run_plain [h1; h2; h3; h4]);
          [|repeat (apply Forall_cons; [assumption|]); apply Forall_nil
           |discriminate].
        eapply IH; [|exact H]. simpl in Hn. lia.
      - destruct (JSON.escape_char e); [|discriminate H].
        eapply IH; [|exact H]. simpl in Hn. lia. }
    destruct (x <? 32); [discriminate H|].
    change ((x :: s) ++ k) with (x :: (s ++ k)). rewrite lit_run_cons.
    apply N.eqb_neq in Eq, Eb. cbn [lit_step]. rewrite Eb, Eq.
    eapply IH; [|exact H]. lia.
Qed.

(** A text that lexes ends outside any string literal. *)
Lemma lex_outside : forall fuel s ts,
  JSON.lex fuel s = Some ts -> lit_run Outside s = Outside.
Proof.
  induction fuel as [|fuel IH]; intros s ts H; [discriminate H|].
  cbn [JSON.lex] in H. destruct s as [|x s]; [reflexivity|].
  assert (Hplain : forall w rest l,
            Forall plain w -> x :: s = w ++ rest ->
            JSON.lex fuel rest = Some l -> lit_run Outside (x :: s) = Outside).
  { intros w rest l Hw Hs Hl. rewrite Hs, lit_run_app.
    rewrite (lit_run_plain w Hw) by discriminate. apply (IH _ _ Hl). }
  assert (Hopt : forall t rest,
            option_map (cons t) (JSON.lex fuel rest) = Some ts ->
            exists l, JSON.lex fuel rest = Some l).
  { intros t rest Ho. destruct (JSON.lex fuel rest) as [l|]; [|discriminate Ho].
    exists l. reflexivity. }
  assert (Hone : forall t,
            (x =? QUOTE) = false -> (x =? BACKSLASH) = false ->
            option_map (cons t) (JSON.lex fuel s) = Some ts ->
            lit_run Outside (x :: s) = Outside).
  { intros t Hq Hb Ho. destruct (Hopt _ _ Ho) as [l Hl].
    rewrite lit_run_cons. cbn [lit_step]. rewrite Hq. apply (IH _ _ Hl). }
  destruct (JSON.json_ws x) eqn:Ews.
  { destruct (json_ws_plain x Ews) as (Hq & Hb & _).
    rewrite lit_run_cons. cbn [lit_step]. rewrite Hq. apply (IH _ _ H). }
  destruct (N.eqb_spec x LBRACE) as [->|E1]; [apply (Hone JSON.TLBrace); auto|].
  destruct (N.eqb_spec x RBRACE) as [->|E2]; [apply (Hone JSON.TRBrace); auto|].
  destruct (N.eqb_spec x LBRACKET) as [->|E3]; [apply (Hone JSON.TLBracket); auto|].
  destruct (N.eqb_spec x RBRACKET) as [->|E4]; [apply (Hone JSON.TRBracket); auto|].
  destruct (N.eqb_spec x COLON) as [->|E5]; [apply (Hone JSON.TColon); auto|].
  destruct (N.eqb_spec x COMMA) as [->|E6]; [apply (Hone JSON.TComma); auto|].
  destruct (N.eqb_spec x QUOTE) as [->|E7].
  { destruct (JSON.lex_string s []) as [[str r]|] eqn:Es; [|discriminate H].
    destruct (Hopt _ _ H) as [l Hl].
    rewrite lit_run_cons. change (lit_step Outside QUOTE) with Inside.
    pose proof (lex_string_run _ s [] str r (le_n _) Es []) as Hrun.
    rewrite !app_nil_r in Hrun. rewrite Hrun. apply (IH _ _ Hl). }
  destruct ((x =? 45) || is_digit x).
  { destruct (JSON.lex_number (x :: s)) as [[n r]|] eqn:En; [|discriminate H].
    destruct (lex_number_spec _ _ _ En) as (w & Hs & Hw & _).
    destruct (Hopt _ _ H) as [l Hl]. apply (Hplain w r l); auto. }
  destruct (startsWith (x :: s) (js "true")) eqn:Et.
  { destruct (Hopt _ _ H) as [l Hl].
    apply (Hplain (js "true") (skipn 4 (x :: s)) l); auto.
    - apply letters_plain. reflexivity.
    - apply (startsWith_app _ _ Et). }
  destruct (startsWith (x :: s) (js "false")) eqn:Ef.
  { destruct (Hopt _ _ H) as [l Hl].
    apply (Hplain (js "false") (skipn 5 (x :: s)) l); auto.
    - apply letters_plain. reflexivity.
    - apply (startsWith_app _ _ Ef). }
  destruct (startsWith (x :: s) (js "null")) eqn:Enl; [|discriminate H].
  destruct (Hopt _ _ H) as [l Hl].
  apply (Hplain (js "null") (skipn 4 (x :: s)) l); auto.
  - apply letters_plain. reflexivity.
  - apply (startsWith_app _ _ Enl).
Qed.

Lemma parse_outside text v :
  JSON.parse text = Returned v -> lit_run Outside text = Outside.
Proof.
  unfold JSON.parse.
  destruct (JSON.lex (S (length text)) text) as [ts|] eqn:El; [|discriminate].
  intros _. apply (lex_outside _ _ _ El).
Qed.

Lemma finish_outside st :
  lit_run Outside (result st) = pos_of (inString st) (escaped st) ->
  inString st && escaped st = false ->
  lit_run Outside (finish st) = Outside.
Proof.
  intros Hpos Hesc. unfold finish.
  set (r1 := fst (if inString st then (result st ++ [QUOTE], Some QUOTE)
                  else (result st, lastNonWhitespaceChar st))).
  set (l1 := snd (if inString st then (result st ++ [QUOTE], Some QUOTE)
                  else (result st, lastNonWhitespaceChar st))).
  replace (if inString st then (result st ++ [QUOTE], Some QUOTE)
           else (result st, lastNonWhitespaceChar st)) with (r1, l1)
    by (subst r1 l1; destruct (inString st); reflexivity).
  assert (Hout1 : lit_run Outside r1 = Outside).
  { subst r1. destruct (inString st); simpl in *.
    - destruct (escaped st); [discriminate Hesc|]. simpl in Hpos.
      rewrite lit_run_snoc, Hpos. reflexivity.
    - exact Hpos. }
  set (r2 := match l1 with
             | Some c =>
                 if c =? COMMA
                 then let r := trimEnd r1 in
                      if endsWith r [COMMA] then dropLast r else r
                 else r1
             | None => r1
             end).
  assert (H2 : exists junk, r1 = r2 ++ junk /\ Forall plain junk).
  { subst r2. destruct l1 as [c|]; [|exists []; rewrite app_nil_r; auto].
    destruct (c =? COMMA); [|exists []; rewrite app_nil_r; auto].
    cbv zeta. destruct (trimEnd_spec r1) as (w & Hw1 & Hw2).
    assert (Hpw : Forall plain w)
      by (eapply Forall_impl; [|exact Hw2]; intros a Ha; apply ws_plain, Ha).
    destruct (endsWith (trimEnd r1) [COMMA]) eqn:Ee.
    - apply endsWith_last in Ee. exists (COMMA :: w). split.
      + rewrite Hw1 at 1. rewrite Ee at 1. rewrite <- app_assoc. reflexivity.
      + constructor; [apply comma_plain|exact Hpw].
    - exists w. auto. }
  destruct H2 as (junk & Hr1 & Hjunk).
  rewrite Hr1 in Hout1.
  destruct (drop_plain_suffix junk r2 Hjunk Hout1) as [Hout2 _].
  destruct (emit_closers (stack st) r2 Hout2) as [Hout3 _].
  cbv zeta. fold r2.
  rewrite (proj1 (stripTrailingCommas_scan _)). exact Hout3.
Qed.

(** When the scan does not end inside a string literal with a pending
    backslash escape, every string literal of the output of [fixJSON] is
    closed: the output ends outside any string literal. *)
Theorem fixJSON_closes_string_literals :
  forall input : jsstring,
    inString (scan (scan_text (trim input)))
    && escaped (scan (scan_text (trim input))) = false ->
    lit_run Outside (fixJSON input) = Outside.
Proof.
  intros input Hesc. unfold fixJSON.
  destruct (trim input) as [|c raw] eqn:Eraw; [reflexivity|].
  destruct (JSON.parse (c :: raw)) as [v|e] eqn:Ep.
  - apply (parse_outside _ _ Ep).
  - assert (H : lit_run Outside (fixJSONStructure (c :: raw)) = Outside).
    { unfold fixJSONStructure. apply finish_outside; [|exact Hesc].
      apply (inv_pos (scan_holds_inv (scan_text (c :: raw)))). }
    destruct (JSON.parse (fixJSONStructure (c :: raw))); [exact H|].
    rewrite (proj1 (stripTrailingCommas_scan _)). exact H.
Qed.

Lemma fixJSON_closes_string_literals_witness :
  lit_run Outside (fixJSON (jq "[{'a': 'b")) = Outside.
Proof.
  apply (fixJSON_closes_string_literals (jq "[{'a': 'b")).
  vm_compute; reflexivity.
Defined.

(* ------------------------------------------------------------------ *)
(** ** [fixXMLorHTML]: the tags of a text *)
(* ------------------------------------------------------------------ *)

Lemma fixXMLorHTML_tag_loop input opts :
  fixXMLorHTML input opts
  = tag_loop (opts_html opts) (opts_voids opts)
      (autoCloseAngleBrackets (strip_invisible input)).
Proof. reflexivity. Qed.

(** *** Closed texts are rendered segments *)

Lemma render_cons g l : render (g :: l) = render_seg g ++ render l.
Proof. reflexivity. Qed.

Lemma render_app a b : render (a ++ b) = render a ++ render b.
Proof. unfold render. rewrite map_app, concat_app. reflexivity. Qed.

Lemma closed_segments : forall s,
  (closed_from false s = true ->
   exists l, Forall good_seg l /\ render l = s)
  /\ (closed_from true s = true ->
      exists inner l,
        Forall no_angle inner /\ Forall good_seg l
        /\ s = inner ++ GT :: render l).
Proof.
  induction s as [|c s [IHo IHi]]; split; intros H.
  - exists []. split; [constructor|reflexivity].
  - discriminate H.
  - cbn [closed_from] in H. destruct (c =? LT) eqn:El.
    + apply N.eqb_eq in El. subst c.
      destruct (IHi H) as (inner & l & Hin & Hl & ->).
      exists (Tag inner :: l). split; [constructor; assumption|].
      rewrite render_cons. simpl. rewrite <- app_assoc. reflexivity.
    + destruct (IHo H) as (l & Hl & <-).
      exists (Plain c :: l). split; [constructor; assumption|reflexivity].
  - cbn [closed_from] in H. destruct (c =? GT) eqn:Eg.
    + apply N.eqb_eq in Eg. subst c.
      destruct (IHo H) as (l & Hl & <-).
      exists [], l. split; [constructor|]. split; [exact Hl|reflexivity].
    + destruct (c =? LT) eqn:El; [discriminate H|].
      destruct (IHi H) as (inner & l & Hin & Hl & ->).
      exists (c :: inner), l. split; [constructor; [split; assumption|exact Hin]|].
      split; [exact Hl|reflexivity].
Qed.

Lemma render_closed : forall l,
  Forall good_seg l -> closed_from false (render l) = true.
Proof.
  induction 1 as [|g l Hg _ IH]; [reflexivity|].
  rewrite render_cons. destruct g as [c|inner]; simpl in Hg |- *.
  - rewrite Hg. exact IH.
  - clear -Hg IH. induction Hg as [|x inner [Hl Hgt] _ IHi].
    + simpl. exact IH.
    + simpl. rewrite Hgt, Hl. exact IHi.
Qed.

(** *** The matches of the tag pattern *)

Lemma exec_from_skip {R} (m : cont (R * jsstring)) before : forall pre rest,
  exec_from m (length pre) before (pre ++ rest) = exec_from m O before rest.
Proof. induction pre as [|c pre IH]; intros rest; [reflexivity|apply IH]. Qed.

Lemma tagRe_plain c s : (c =? LT) = false -> tagRe (c :: s) = None.
Proof.
  intros H. unfold tagRe, lit. cbn [startsWith]. rewrite H. reflexivity.
Qed.

Lemma tagRe_empty s : tagRe (LT :: GT :: s) = None.
Proof. reflexivity. Qed.

Lemma tagRe_tag x inner rest :
  Forall no_angle (x :: inner) ->
  tagRe (LT :: (x :: inner) ++ GT :: rest) = Some (x :: inner, rest).
Proof.
  intros H. inversion H as [|? ? [_ Hx] Hin]; subst.
  unfold tagRe, lit. cbn [startsWith length skipn]. rewrite N.eqb_refl.
  cbn [andb app plus]. rewrite Hx. cbn [negb].
  apply star_stops with (ws := inner) (acc := [x]).
  - eapply Forall_impl; [|exact Hin]. intros a [_ Ha]. rewrite Ha. reflexivity.
  - reflexivity.
  - unfold lit. cbn [startsWith length skipn]. rewrite N.eqb_refl. reflexivity.
Qed.

Lemma exec_render : forall l rb,
  Forall good_seg l ->
  exec_from tagRe O rb (render l) = toks (rev rb) l.
Proof.
  induction l as [|g l IH]; intros rb Hl; [reflexivity|].
  inversion Hl as [|? ? Hg Hl']; subst.
  rewrite render_cons. destruct g as [c|[|x inner]]; simpl in Hg.
  - cbn [render_seg app exec_from toks]. rewrite (tagRe_plain _ _ Hg).
    rewrite IH by assumption. reflexivity.
  - cbn [render_seg app exec_from toks]. rewrite tagRe_empty.
    rewrite (tagRe_plain GT _ eq_refl).
    rewrite IH by assumption. simpl. rewrite <- app_assoc. reflexivity.
  - cbn [render_seg toks].
    change ((LT :: (x :: inner) ++ [GT]) ++ render l)
      with (LT :: ((x :: inner) ++ [GT]) ++ render l).
    cbn [exec_from].
    replace (((x :: inner) ++ [GT]) ++ render l)
      with ((x :: inner) ++ GT :: render l)
      by (rewrite <- app_assoc; reflexivity).
    rewrite (tagRe_tag _ _ _ Hg).
    replace ((x :: inner) ++ GT :: render l)
      with (((x :: inner) ++ [GT]) ++ render l)
      by (rewrite <- app_assoc; reflexivity).
    rewrite length_app.
    replace (length ((x :: inner) ++ [GT]) + length (render l) - length (render l))%nat
      with (length ((x :: inner) ++ [GT])) by lia.
    rewrite exec_from_skip, (IH [] Hl'). reflexivity.
Qed.

(** *** The loop on the matches *)

Lemma tag_step_out t v st before inner :
  out (tag_step t v st (before, inner))
  = out st ++ before ++ LT :: trim inner ++ [GT].
Proof.
  unfold tag_step.
  repeat match goal with
         | |- context [if ?b then _ else _] => destruct b
         | |- context [match tags st with _ => _ end] => destruct (tags st)
         end; cbn [out]; rewrite <- ?app_assoc; reflexivity.
Qed.

Lemma tag_step_tags t v st before inner :
  tags (tag_step t v st (before, inner)) = stack_step t v (tags st) inner.
Proof.
  unfold stack_step, tag_step. cbn [tags out].
  repeat match goal with
         | |- context [if ?b then _ else _] => destruct b
         | |- context [match tags st with _ => _ end] => destruct (tags st)
         end; reflexivity.
Qed.

Lemma fold_tag_step t v : forall ms st,
  out (fold_left (tag_step t v) ms st) = out st ++ concat (map emit ms)
  /\ tags (fold_left (tag_step t v) ms st)
     = fold_left (stack_step t v) (map snd ms) (tags st).
Proof.
  induction ms as [|[b inner] ms IH]; intros st.
  - simpl. rewrite app_nil_r. auto.
  - cbn [fold_left map concat]. destruct (IH (tag_step t v st (b, inner))) as [Ho Ht].
    rewrite Ho, Ht, tag_step_out, tag_step_tags. unfold emit. cbn [fst snd].
    rewrite <- !app_assoc. auto.
Qed.

Lemma toks_spec : forall l b,
  concat (map emit (fst (toks b l))) ++ snd (toks b l)
  = b ++ render (map trimseg l)
  /\ map snd (fst (toks b l)) = inners l.
Proof.
  induction l as [|g l IH]; intros b.
  - simpl. rewrite app_nil_r. auto.
  - destruct g as [c|[|x inner]].
    + cbn [toks map trimseg]. destruct (IH (b ++ [c])) as [H1 H2].
      rewrite H1, H2, render_cons. simpl. rewrite <- app_assoc. auto.
    + cbn [toks map trimseg]. destruct (IH (b ++ [LT; GT])) as [H1 H2].
      rewrite H1, H2, render_cons. simpl. rewrite <- app_assoc. auto.
    + cbn [toks]. destruct (IH []) as [H1 H2].
      destruct (toks [] l) as [ms tail]. cbn [fst snd] in *.
      cbn [map concat inners flat_map]. unfold emit at 1. cbn [fst snd].
      rewrite <- !app_assoc. rewrite H1. cbn [map trimseg].
      rewrite render_cons. cbn [render_seg app].
      split; [rewrite <- !app_assoc; reflexivity|].
      rewrite H2. reflexivity.
Qed.

Lemma tag_loop_render t v l :
  Forall good_seg l ->
  tag_loop t v (render l)
  = render (map trimseg l)
    ++ closing_tags (fold_left (stack_step t v) (inners l) []).
Proof.
  intros Hl. unfold tag_loop, exec_all.
  rewrite (exec_render l [] Hl). cbn [rev].
  destruct (toks_spec l []) as [H1 H2].
  destruct (toks [] l) as [ms tail]. cbn [fst snd] in *.
  destruct (fold_tag_step t v ms {| tags := []; out := [] |}) as [Ho Ht].
  rewrite Ho, Ht, H2. cbn [out tags app].
  rewrite app_assoc, H1. reflexivity.
Qed.

(** *** Stacks *)

Lemma sub_tail {A} (x : A) a : forall b, sub (x :: a) b -> sub a b.
Proof.
  induction b as [|y b IH]; intros H; inversion H; subst.
  - apply sub_skip. assumption.
  - apply sub_skip. apply IH. assumption.
Qed.

Lemma sub_empty {A} (a : list A) : sub a [] -> a = [].
Proof. intros H. inversion H. reflexivity. Qed.

Lemma str_eqb_refl a : str_eqb a a = true.
Proof. induction a as [|x a IH]; simpl; [reflexivity|]. rewrite N.eqb_refl. exact IH. Qed.

Lemma pop_if_sub norm name : forall s1 s2,
  sub s2 s1 -> sub (pop_if norm name s2) (pop_if norm name s1).
Proof.
  intros s1 s2 H. destruct s1 as [|t1 s1'].
  - apply sub_empty in H. subst. constructor.
  - cbn [pop_if]. destruct s2 as [|t2 s2']; [constructor|]. cbn [pop_if].
    inversion H; subst.
    + destruct (str_eqb (norm t1) name); [assumption|exact H].
    + destruct (str_eqb (norm t1) name), (str_eqb (norm t2) name);
        try assumption.
      * apply (sub_tail t2). assumption.
      * apply (sub_tail t2). exact H.
Qed.

(** The stack after a closing tag that names the top of a longer stack. *)
Lemma pop_if_next norm n : forall s1 s2,
  sub s2 (n :: s1) -> sub (pop_if norm (norm n) s2) s1.
Proof.
  intros s1 s2 H. destruct s2 as [|t2 s2']; [constructor|]. cbn [pop_if].
  inversion H; subst.
  - rewrite str_eqb_refl. assumption.
  - destruct (str_eqb (norm t2) (norm n)); [|assumption].
    apply (sub_tail t2). assumption.
Qed.

Lemma stack_step_cases t v stk inner :
  stack_step t v stk inner
  = let raw := trim inner in
    if special raw then stk
    else if startsWith raw (js "/")
    then pop_if (normalize t) (normalize t (first_word (skipn 1 raw))) stk
    else if negb (endsWith raw (js "/"))
            && negb (has v (normalize t (first_word raw)))
    then normalize t (first_word raw) :: stk
    else stk.
Proof.
  unfold stack_step, tag_step, special, normalize, pop_if. cbn [tags out].
  cbv zeta.
  destruct (startsWith (trim inner) (js "!--") || startsWith (trim inner) (js "!DOCTYPE")
            || startsWith (trim inner) (js "![CDATA[") || startsWith (trim inner) (js "?"));
    [reflexivity|].
  destruct (startsWith (trim inner) (js "/")).
  - destruct stk as [|top below]; [reflexivity|].
    destruct (str_eqb _ _); reflexivity.
  - destruct (negb _ && negb _); reflexivity.
Qed.

Lemma stack_step_trim t v stk inner :
  stack_step t v stk (trim inner) = stack_step t v stk inner.
Proof. rewrite !stack_step_cases, trim_idempotent. reflexivity. Qed.

Lemma stack_step_sub t v inner s1 s2 :
  sub s2 s1 -> sub (stack_step t v s2 inner) (stack_step t v s1 inner).
Proof.
  intros H. rewrite !stack_step_cases. cbv zeta.
  destruct (special (trim inner)); [exact H|].
  destruct (startsWith (trim inner) (js "/")); [apply pop_if_sub, H|].
  destruct (negb _ && negb _); [apply sub_take, H|exact H].
Qed.

Lemma stack_step_blank t v inner s1 s2 :
  trim inner = [] -> sub s2 s1 -> sub s2 (stack_step t v s1 inner).
Proof.
  intros E H. rewrite stack_step_cases, E. cbv zeta.
  change (special []) with false. change (startsWith [] (js "/")) with false.
  cbv iota. destruct (negb _ && negb _); [apply sub_skip, H|exact H].
Qed.

(** *** The names on the stack *)

Lemma lower_char_nice c : nice c -> nice (lower_char c).
Proof.
  intros H. unfold lower_char. destruct (is_upper c) eqn:E; [|exact H].
  unfold is_upper in E. apply andb_true_iff in E. destruct E as [E1 E2].
  apply N.leb_le in E1, E2.
  assert (Hr : 97 <= c + 32 <= 122) by lia. clear -Hr.
  unfold nice, no_angle, visible, is_bom, is_zero_width, is_ws.
  repeat split;
    repeat (apply orb_false_iff; split);
    try (apply andb_false_iff);
    try (apply N.eqb_neq; lia);
    try (left; apply N.leb_gt; lia); try (right; apply N.leb_gt; lia).
Qed.

Lemma normalize_nice t name : Forall nice name -> Forall nice (normalize t name).
Proof.
  intros H. destruct t; [|exact H]. unfold normalize, toLowerCase.
  induction H; simpl; constructor; [apply lower_char_nice|]; assumption.
Qed.

Lemma first_word_nice s : Forall tag_char s -> Forall nice (first_word s).
Proof.
  induction 1 as [|c s [Ha Hv] _ IH]; [constructor|].
  simpl. destruct (is_ws c) eqn:E; [constructor|].
  constructor; [repeat split; try apply Ha; try apply Hv; assumption|exact IH].
Qed.

Lemma first_word_fix n : Forall nice n -> first_word n = n.
Proof.
  induction 1 as [|c n (Hw & _) _ IH]; [reflexivity|].
  simpl. rewrite Hw. f_equal. exact IH.
Qed.

Lemma pop_if_Forall (P : jsstring -> Prop) norm name stk :
  Forall P stk -> Forall P (pop_if norm name stk).
Proof.
  intros H. destruct stk as [|top below]; [constructor|]. cbn [pop_if].
  destruct (str_eqb _ _); [inversion H; assumption|exact H].
Qed.

Lemma stack_step_nice t v stk inner :
  Forall tag_char inner -> Forall (Forall nice) stk ->
  Forall (Forall nice) (stack_step t v stk inner).
Proof.
  intros Hi Hs. rewrite stack_step_cases. cbv zeta.
  destruct (special (trim inner)); [exact Hs|].
  destruct (startsWith (trim inner) (js "/")); [apply pop_if_Forall, Hs|].
  destruct (negb _ && negb _); [|exact Hs].
  constructor; [|exact Hs].
  apply normalize_nice, first_word_nice, trim_Forall, Hi.
Qed.

Lemma fold_stack_nice t v : forall ins stk,
  Forall (Forall tag_char) ins -> Forall (Forall nice) stk ->
  Forall (Forall nice) (fold_left (stack_step t v) ins stk).
Proof.
  induction ins as [|i ins IH]; intros stk Hi Hs; [exact Hs|].
  inversion Hi; subst. cbn [fold_left]. apply IH; [assumption|].
  apply stack_step_nice; assumption.
Qed.

(** *** The closing tags that are appended *)

Lemma closing_tags_render names :
  closing_tags names = render (map closer_seg names).
Proof.
  unfold closing_tags, render. rewrite map_map. reflexivity.
Qed.

Lemma inners_closers names : inners (map closer_seg names) = map (cons SLASH) names.
Proof. induction names as [|n names IH]; [reflexivity|]. simpl. f_equal. exact IH. Qed.

Lemma inners_app a b : inners (a ++ b) = inners a ++ inners b.
Proof. unfold inners. apply flat_map_app. Qed.

Lemma trim_closer n : Forall nice n -> trim (SLASH :: n) = SLASH :: n.
Proof.
  intros H. apply trim_fix; [reflexivity|].
  simpl. destruct (rev n) as [|x r] eqn:E; [reflexivity|].
  simpl. assert (Hin : In x n) by (apply in_rev; rewrite E; left; reflexivity).
  rewrite Forall_forall in H. apply (H x Hin).
Qed.

Lemma stack_step_closer t v stk n :
  Forall nice n ->
  stack_step t v stk (SLASH :: n) = pop_if (normalize t) (normalize t n) stk.
Proof.
  intros H. rewrite stack_step_cases, (trim_closer n H). cbv zeta.
  change (special (SLASH :: n)) with false.
  change (startsWith (SLASH :: n) (js "/")) with true. cbv iota.
  cbn [skipn]. rewrite (first_word_fix n H). reflexivity.
Qed.

Lemma closers_clear t v : forall s1 s2,
  sub s2 s1 -> Forall (Forall nice) s1 ->
  fold_left (stack_step t v) (map (cons SLASH) s1) s2 = [].
Proof.
  induction s1 as [|n s1 IH]; intros s2 H Hn.
  - apply sub_empty in H. subst. reflexivity.
  - inversion Hn; subst. cbn [map fold_left].
    rewrite stack_step_closer by assumption.
    apply IH; [|assumption]. apply pop_if_next. exact H.
Qed.

(** *** Two runs *)

Lemma inners_cons g l :
  inners (g :: l)
  = match g with Tag (x :: inner) => [x :: inner] | _ => [] end ++ inners l.
Proof. reflexivity. Qed.

Lemma two_runs t v : forall l s1 s2,
  sub s2 s1 ->
  sub (fold_left (stack_step t v) (inners (map trimseg l)) s2)
      (fold_left (stack_step t v) (inners l) s1).
Proof.
  induction l as [|g l IH]; intros s1 s2 H; [exact H|].
  cbn [map]. rewrite !inners_cons.
  destruct g as [c|[|x inner]]; cbn [trimseg].
  - apply IH. exact H.
  - change (trim []) with (@nil N). apply IH. exact H.
  - cbn [app fold_left].
    destruct (trim (x :: inner)) as [|y r] eqn:E.
    + cbn [app]. apply IH. apply stack_step_blank; assumption.
    + cbn [app fold_left]. apply IH. rewrite <- E, stack_step_trim.
      apply stack_step_sub. exact H.
Qed.

(** *** The characters of the segments *)

Lemma angles_Forall (P : char -> Prop) : P GT -> forall s b,
  Forall P s -> Forall P (angles b s).
Proof.
  intros Hgt. induction s as [|c s IH]; intros b H.
  - destruct b; repeat constructor; assumption.
  - inversion H; subst. destruct b; cbn [angles].
    + destruct (N.eqb_spec c GT) as [->|_];
        [constructor; [exact Hgt|apply IH; assumption]|].
      destruct (N.eqb_spec c LT) as [->|_].
      * constructor; [exact Hgt|]. constructor; [assumption|apply IH; assumption].
      * constructor; [assumption|apply IH; assumption].
    + destruct (N.eqb_spec c LT) as [->|_];
        (constructor; [assumption|apply IH; assumption]).
Qed.

Lemma render_chars (P : char -> Prop) : forall l,
  Forall P (render l) -> Forall (seg_chars P) l.
Proof.
  induction l as [|g l IH]; intros H; [constructor|].
  rewrite render_cons in H. apply Forall_app in H. destruct H as [Hg Hl].
  constructor; [|apply IH, Hl].
  destruct g as [c|inner]; simpl in *.
  - inversion Hg; assumption.
  - inversion Hg as [|? ? _ Hi]; subst. apply Forall_app in Hi. apply Hi.
Qed.

Lemma chars_render (P : char -> Prop) : P LT -> P GT -> forall l,
  Forall (seg_chars P) l -> Forall P (render l).
Proof.
  intros Hlt Hgt. induction 1 as [|g l Hg _ IH]; [constructor|].
  rewrite render_cons. apply Forall_app. split; [|exact IH].
  destruct g as [c|inner]; simpl in *.
  - constructor; [assumption|constructor].
  - constructor; [exact Hlt|]. apply Forall_app. split; [exact Hg|].
    constructor; [exact Hgt|constructor].
Qed.

Lemma trimseg_chars (P : char -> Prop) l :
  Forall (seg_chars P) l -> Forall (seg_chars P) (map trimseg l).
Proof.
  induction 1 as [|g l Hg _ IH]; [constructor|].
  cbn [map]. constructor; [|exact IH].
  destruct g; simpl in *; [assumption|apply trim_Forall, Hg].
Qed.

Lemma trimseg_good l : Forall good_seg l -> Forall good_seg (map trimseg l).
Proof.
  induction 1 as [|g l Hg _ IH]; [constructor|].
  cbn [map]. constructor; [|exact IH].
  destruct g; simpl in *; [assumption|apply trim_Forall, Hg].
Qed.

Lemma trimseg_idempotent l : map trimseg (map trimseg l) = map trimseg l.
Proof.
  rewrite map_map. apply map_ext. intros [c|inner]; [reflexivity|].
  simpl. rewrite trim_idempotent. reflexivity.
Qed.

Lemma inners_tag_chars l :
  Forall good_seg l -> Forall (seg_chars visible) l ->
  Forall (Forall tag_char) (inners l).
Proof.
  induction 1 as [|g l Hg _ IH]; intros Hv; [constructor|].
  inversion Hv as [|? ? Hgv Hlv]; subst. rewrite inners_cons.
  apply Forall_app. split; [|apply IH, Hlv].
  destruct g as [c|[|x inner]]; try constructor; [|constructor].
  simpl in Hg, Hgv. rewrite Forall_forall in *. intros a Ha.
  split; [apply Hg|apply Hgv]; assumption.
Qed.

Lemma nice_slash : no_angle SLASH /\ visible SLASH.
Proof. repeat split. Qed.

Lemma closers_good names :
  Forall (Forall nice) names ->
  Forall good_seg (map closer_seg names)
  /\ Forall (seg_chars visible) (map closer_seg names)
  /\ map trimseg (map closer_seg names) = map closer_seg names.
Proof.
  induction 1 as [|n names Hn _ (IH1 & IH2 & IH3)];
    [repeat split; constructor|].
  cbn [map]. split; [|split].
  - constructor; [|exact IH1]. simpl. constructor; [apply nice_slash|].
    eapply Forall_impl; [|exact Hn]. intros a (_ & Ha & _). exact Ha.
  - constructor; [|exact IH2]. simpl. constructor; [apply nice_slash|].
    eapply Forall_impl; [|exact Hn]. intros a (_ & _ & Ha). exact Ha.
  - rewrite IH3. unfold closer_seg at 1 3. cbn [trimseg].
    rewrite (trim_closer n Hn). reflexivity.
Qed.

(** *** A repaired text needs no repair *)

Lemma tag_loop_fixpoint t v l :
  Forall good_seg l -> Forall (seg_chars visible) l ->
  exists l2,
    Forall good_seg l2 /\ Forall (seg_chars visible) l2
    /\ tag_loop t v (render l) = render l2
    /\ tag_loop t v (render l2) = render l2.
Proof.
  intros Hg Hv.
  set (s1 := fold_left (stack_step t v) (inners l) []).
  assert (Hnice : Forall (Forall nice) s1).
  { apply fold_stack_nice; [apply inners_tag_chars; assumption|constructor]. }
  destruct (closers_good s1 Hnice) as (Hcg & Hcv & Hct).
  exists (map trimseg l ++ map closer_seg s1).
  assert (Hg2 : Forall good_seg (map trimseg l ++ map closer_seg s1)).
  { apply Forall_app. split; [apply trimseg_good, Hg|exact Hcg]. }
  split; [exact Hg2|]. split.
  { apply Forall_app. split; [apply trimseg_chars, Hv|exact Hcv]. }
  split.
  - rewrite (tag_loop_render t v l Hg), render_app, closing_tags_render.
    reflexivity.
  - rewrite (tag_loop_render t v _ Hg2).
    rewrite map_app, trimseg_idempotent, Hct.
    rewrite inners_app, inners_closers, fold_left_app.
    rewrite (closers_clear t v s1); [apply app_nil_r| |exact Hnice].
    apply (two_runs t v l [] []). constructor.
Qed.

(** *** The names of a repaired text *)

Lemma tag_names_render l :
  Forall good_seg l -> Forall (seg_chars visible) l ->
  tag_names (render l) = named (inners l).
Proof.
  intros Hg Hv. unfold tag_names.
  rewrite strip_invisible_fix
    by (apply chars_render; [split; reflexivity|split; reflexivity|exact Hv]).
  rewrite autoCloseAngleBrackets_angles, angles_fix
    by (apply render_closed, Hg).
  unfold exec_all. rewrite (exec_render l [] Hg). cbn [rev].
  rewrite (proj2 (toks_spec l [])). reflexivity.
Qed.

Lemma named_app a b : named (a ++ b) = named a ++ named b.
Proof. unfold named. rewrite filter_app, map_app. reflexivity. Qed.

Lemma named_cons i ins :
  named (i :: ins)
  = if special (trim i) then named ins else name_of i :: named ins.
Proof. unfold named. cbn [filter]. destruct (special (trim i)); reflexivity. Qed.

Lemma name_of_trim i : name_of (trim i) = name_of i.
Proof. unfold name_of. rewrite trim_idempotent. reflexivity. Qed.

Lemma named_trimseg (P : jsstring -> Prop) : forall l,
  Forall P (named (inners l)) -> Forall P (named (inners (map trimseg l))).
Proof.
  induction l as [|g l IH]; intros H; [exact H|].
  cbn [map]. rewrite inners_cons in *. rewrite named_app in *.
  apply Forall_app in H. destruct H as [H1 H2].
  apply Forall_app. split; [|apply IH, H2].
  destruct g as [c|[|x inner]]; cbn [trimseg].
  - constructor.
  - change (trim []) with (@nil N). constructor.
  - destruct (trim (x :: inner)) as [|y r] eqn:E; [constructor|].
    rewrite named_cons in H1 |- *.
    rewrite <- E, trim_idempotent, name_of_trim.
    destruct (special (trim (x :: inner))); [constructor|exact H1].
Qed.

Lemma named_closers : forall names,
  Forall (Forall nice) names -> named (map (cons SLASH) names) = names.
Proof.
  induction 1 as [|n names Hn _ IH]; [reflexivity|].
  cbn [map]. rewrite named_cons, IH, (trim_closer n Hn).
  change (special (SLASH :: n)) with false. cbv iota.
  unfold name_of. rewrite (trim_closer n Hn).
  change (startsWith (SLASH :: n) (js "/")) with true. cbv iota.
  cbn [skipn]. rewrite (first_word_fix n Hn). reflexivity.
Qed.

Lemma lower_ascii t name :
  forallb is_ascii name = true -> forallb is_ascii (normalize t name) = true.
Proof.
  unfold normalize. destruct t; [|exact (fun H => H)].
  induction name as [|c name IH]; [reflexivity|].
  cbn [toLowerCase map forallb]. intros H.
  apply andb_true_iff in H. destruct H as [Hc Hn].
  apply andb_true_iff. split; [|exact (IH Hn)].
  unfold lower_char. destruct (is_upper c) eqn:E; [|exact Hc].
  unfold is_upper in E. apply andb_true_iff in E. destruct E as [_ E].
  apply N.leb_le in E. unfold is_ascii. apply N.ltb_lt. lia.
Qed.

Lemma stack_step_ascii t v stk inner :
  Forall (fun n => forallb is_ascii n = true) (named [inner]) ->
  Forall (fun n => forallb is_ascii n = true) stk ->
  Forall (fun n => forallb is_ascii n = true) (stack_step t v stk inner).
Proof.
  intros Hi Hs. rewrite stack_step_cases. cbv zeta.
  rewrite named_cons in Hi.
  destruct (special (trim inner)); [exact Hs|].
  inversion Hi as [|? ? Hn _]; subst. unfold name_of in Hn.
  destruct (startsWith (trim inner) (js "/")); [apply pop_if_Forall, Hs|].
  destruct (negb _ && negb _); [|exact Hs].
  constructor; [|exact Hs]. apply lower_ascii, Hn.
Qed.

Lemma fold_stack_ascii t v : forall ins stk,
  Forall (fun n => forallb is_ascii n = true) (named ins) ->
  Forall (fun n => forallb is_ascii n = true) stk ->
  Forall (fun n => forallb is_ascii n = true)
    (fold_left (stack_step t v) ins stk).
Proof.
  induction ins as [|i ins IH]; intros stk Hi Hs; [exact Hs|].
  change (i :: ins) with ([i] ++ ins) in Hi. rewrite named_app in Hi.
  apply Forall_app in Hi. destruct Hi as [H1 H2].
  cbn [fold_left]. apply IH; [exact H2|].
  apply stack_step_ascii; assumption.
Qed.

Lemma forallb_Forall_iff {A} (f : A -> bool) l :
  forallb f l = true <-> Forall (fun x => f x = true) l.
Proof.
  rewrite forallb_forall, Forall_forall. reflexivity.
Qed.

(** The text that [fixXMLorHTML] returns has the names of its input, and
    the names that it has closed: it is again a text whose names this
    model normalises as the code does. *)
Lemma ascii_names_repaired input opts :
  ascii_names opts input -> ascii_names opts (fixXMLorHTML input opts).
Proof.
  intros [H|H]; [left; exact H|right].
  unfold tag_names in H.
  rewrite (fixXMLorHTML_tag_loop input opts).
  set (text := autoCloseAngleBrackets (strip_invisible input)) in *.
  assert (Hclosed : closed_from false text = true)
    by (subst text; rewrite autoCloseAngleBrackets_angles;
        apply angles_are_closed).
  assert (Hvis : Forall visible text).
  { subst text. rewrite autoCloseAngleBrackets_angles.
    apply angles_Forall; [split; reflexivity|apply strip_invisible_visible]. }
  destruct (proj1 (closed_segments text) Hclosed) as (l & Hg & Hr).
  rewrite <- Hr in Hvis, H |- *.
  apply render_chars in Hvis.
  unfold exec_all in H. rewrite (exec_render l [] Hg) in H. cbn [rev] in H.
  rewrite (proj2 (toks_spec l [])) in H.
  apply forallb_Forall_iff in H.
  set (s1 := fold_left (stack_step (opts_html opts) (opts_voids opts))
               (inners l) []).
  assert (Hnice : Forall (Forall nice) s1).
  { apply fold_stack_nice; [apply inners_tag_chars; assumption|constructor]. }
  destruct (closers_good s1 Hnice) as (Hcg & Hcv & _).
  rewrite (tag_loop_render _ _ l Hg). fold s1.
  rewrite closing_tags_render, <- render_app.
  rewrite tag_names_render.
  - rewrite inners_app, inners_closers, named_app, (named_closers s1 Hnice).
    apply forallb_Forall_iff. apply Forall_app. split.
    + apply named_trimseg. exact H.
    + apply fold_stack_ascii; [exact H|constructor].
  - apply Forall_app. split; [apply trimseg_good, Hg|exact Hcg].
  - apply Forall_app. split; [apply trimseg_chars, Hvis|exact Hcv].
Qed.

(** *** A repaired text needs no second repair *)

(** [fixXMLorHTML] changes nothing in a text that it has repaired: applied
    to its own output, with the same options, it returns that output.
    The names of the tags are ASCII, or [opts.html] is [false]; the
    repaired text is again such a text. *)
Theorem fixXMLorHTML_repairs_once :
  forall (input : jsstring) (opts : options),
    ascii_names opts input ->
    fixXMLorHTML (fixXMLorHTML input opts) opts = fixXMLorHTML input opts
    /\ ascii_names opts (fixXMLorHTML input opts).
Proof.
  intros input opts Hnames.
  split; [|apply ascii_names_repaired; exact Hnames].
  rewrite (fixXMLorHTML_tag_loop input opts).
  set (text := autoCloseAngleBrackets (strip_invisible input)).
  assert (Hclosed : closed_from false text = true)
    by (subst text; rewrite autoCloseAngleBrackets_angles;
        apply angles_are_closed).
  assert (Hvis : Forall visible text).
  { subst text. rewrite autoCloseAngleBrackets_angles.
    apply angles_Forall; [split; reflexivity|apply strip_invisible_visible]. }
  destruct (proj1 (closed_segments text) Hclosed) as (l & Hg & Hr).
  rewrite <- Hr in Hvis |- *.
  destruct (tag_loop_fixpoint (opts_html opts) (opts_voids opts) l Hg
              (render_chars _ _ Hvis)) as (l2 & Hg2 & Hv2 & H1 & H2).
  rewrite H1, fixXMLorHTML_tag_loop.
  rewrite strip_invisible_fix
    by (apply chars_render; [split; reflexivity|split; reflexivity|exact Hv2]).
  rewrite autoCloseAngleBrackets_angles, angles_fix
    by (apply render_closed, Hg2).
  exact H2.
Qed.

Lemma fixXMLorHTML_repairs_once_witness :
  fixXMLorHTML
    (fixXMLorHTML (js "<Div title='" ++ [20320; 22909] ++ js "'><P>x</p")
       no_options) no_options
  = js "<Div title='" ++ [20320; 22909] ++ js "'><P>x</p></div>".
Proof.
  rewrite (proj1 (fixXMLorHTML_repairs_once
                    (js "<Div title='" ++ [20320; 22909] ++ js "'><P>x</p")
                    no_options
                    ltac:(right; vm_compute; reflexivity))).
  vm_compute; reflexivity.
Defined.

(** *** What is appended *)

Lemma not_ws_trim s : filter not_ws (trim s) = filter not_ws s.
Proof.
  unfold trim.
  destruct (trimStart_spec s) as (w & Hs & Hw).
  destruct (trimEnd_spec (trimStart s)) as (w' & Hs' & Hw').
  assert (Hz : forall c, is_ws c = true -> not_ws c = false)
    by (intros c Hc; unfold not_ws; rewrite Hc; reflexivity).
  rewrite Hs at 2. rewrite Hs' at 2. rewrite !filter_app.
  rewrite (filter_ws_nil not_ws w Hz Hw), (filter_ws_nil not_ws w' Hz Hw').
  rewrite app_nil_r. reflexivity.
Qed.

Lemma not_ws_trimseg l :
  filter not_ws (render (map trimseg l)) = filter not_ws (render l).
Proof.
  induction l as [|g l IH]; [reflexivity|].
  cbn [map]. rewrite !render_cons, !filter_app, IH. f_equal.
  destruct g as [c|inner]; [reflexivity|].
  cbn [trimseg render_seg].
  change (LT :: trim inner ++ [GT]) with ([LT] ++ trim inner ++ [GT]).
  change (LT :: inner ++ [GT]) with ([LT] ++ inner ++ [GT]).
  rewrite !filter_app, not_ws_trim. reflexivity.
Qed.

Lemma not_ws_fix s : Forall (fun c => is_ws c = false) s -> filter not_ws s = s.
Proof.
  induction 1 as [|c s Hc _ IH]; [reflexivity|].
  simpl. unfold not_ws at 1. rewrite Hc. simpl. f_equal. exact IH.
Qed.

Lemma not_ws_closing_tags names :
  Forall (Forall nice) names ->
  filter not_ws (closing_tags names) = closing_tags names.
Proof.
  intros H. apply not_ws_fix. unfold closing_tags.
  induction H as [|n names Hn _ IH]; [constructor|].
  cbn [map concat]. apply Forall_app. split; [|exact IH].
  change (js "</" ++ n ++ js ">") with (LT :: SLASH :: n ++ [GT]).
  constructor; [reflexivity|]. constructor; [reflexivity|].
  apply Forall_app. split; [|repeat constructor].
  eapply Forall_impl; [|exact Hn]. intros a (Ha & _). exact Ha.
Qed.

Lemma stack_step_nonvoid t v stk inner :
  Forall (fun n => has v n = false) stk ->
  Forall (fun n => has v n = false) (stack_step t v stk inner).
Proof.
  intros Hs. rewrite stack_step_cases. cbv zeta.
  destruct (special (trim inner)); [exact Hs|].
  destruct (startsWith (trim inner) (js "/")); [apply pop_if_Forall, Hs|].
  destruct (negb (endsWith (trim inner) (js "/"))); cbn [andb]; [|exact Hs].
  destruct (has v (normalize t (first_word (trim inner)))) eqn:E;
    cbn [negb]; [exact Hs|].
  constructor; assumption.
Qed.

Lemma fold_stack_nonvoid t v : forall ins stk,
  Forall (fun n => has v n = false) stk ->
  Forall (fun n => has v n = false) (fold_left (stack_step t v) ins stk).
Proof.
  induction ins as [|i ins IH]; intros stk Hs; [exact Hs|].
  cbn [fold_left]. apply IH, stack_step_nonvoid, Hs.
Qed.

(** Up to whitespace, the output of [fixXMLorHTML] is its input, without
    zero-width characters and with its angle brackets closed, followed by
    closing tags; no closing tag is appended for a void tag.  The names of
    the tags are ASCII, or [opts.html] is [false]. *)
Theorem fixXMLorHTML_appends_closing_tags :
  forall (input : jsstring) (opts : options),
  ascii_names opts input ->
  exists names : list jsstring,
    filter (fun c => negb (is_ws c)) (fixXMLorHTML input opts)
    = filter (fun c => negb (is_ws c))
        (autoCloseAngleBrackets (strip_invisible input))
      ++ concat (map (fun name => js "</" ++ name ++ js ">") names)
    /\ Forall (fun name =>
                 has (match voidTags opts with
                      | Some v => v
                      | None => DEFAULT_VOID_TAGS
                      end) name = false) names.
Proof.
  intros input opts _.
  rewrite (fixXMLorHTML_tag_loop input opts).
  set (text := autoCloseAngleBrackets (strip_invisible input)).
  assert (Hclosed : closed_from false text = true).
  { subst text. rewrite autoCloseAngleBrackets_angles. apply angles_are_closed. }
  assert (Hvis : Forall visible text).
  { subst text. rewrite autoCloseAngleBrackets_angles.
    apply angles_Forall; [split; reflexivity|apply strip_invisible_visible]. }
  destruct (proj1 (closed_segments text) Hclosed) as (l & Hg & Hr).
  rewrite <- Hr in Hvis |- *.
  set (s1 := fold_left (stack_step (opts_html opts) (opts_voids opts)) (inners l) []).
  assert (Hnice : Forall (Forall nice) s1).
  { apply fold_stack_nice; [|constructor].
    apply inners_tag_chars; [exact Hg|apply render_chars, Hvis]. }
  exists s1. split.
  - rewrite (tag_loop_render _ _ l Hg). fold s1.
    change (fun c => negb (is_ws c)) with not_ws.
    rewrite filter_app, not_ws_trimseg, (not_ws_closing_tags s1 Hnice).
    reflexivity.
  - apply fold_stack_nonvoid. constructor.
Qed.

Lemma fixXMLorHTML_appends_closing_tags_witness :
  exists names : list jsstring,
    filter (fun c => negb (is_ws c))
      (fixXMLorHTML (js "<g> <Text>" ++ [20320; 22909] ++ js "<br>")
         no_options)
    = filter (fun c => negb (is_ws c))
        (autoCloseAngleBrackets
           (strip_invisible (js "<g> <Text>" ++ [20320; 22909] ++ js "<br>")))
      ++ concat (map (fun name => js "</" ++ name ++ js ">") names)
    /\ Forall (fun name => has DEFAULT_VOID_TAGS name = false) names.
Proof.
  apply (fixXMLorHTML_appends_closing_tags
           (js "<g> <Text>" ++ [20320; 22909] ++ js "<br>") no_options).
  right. vm_compute; reflexivity.
Defined.

(* ------------------------------------------------------------------ *)
(** ** The extractions take a part of the text *)
(* ------------------------------------------------------------------ *)

Lemma part_refl (s : jsstring) : exists pre post, s = pre ++ s ++ post.
Proof. exists [], []. rewrite !app_nil_r. reflexivity. Qed.

Lemma part_trans (a b c : jsstring) :
  (exists pre post, b = pre ++ a ++ post) ->
  (exists pre post, c = pre ++ b ++ post) ->
  exists pre post, c = pre ++ a ++ post.
Proof.
  intros (p1 & q1 & ->) (p2 & q2 & ->).
  exists (p2 ++ p1), (q1 ++ q2). rewrite <- !app_assoc. reflexivity.
Qed.

Lemma trim_part (s : jsstring) : exists pre post, s = pre ++ trim s ++ post.
Proof.
  unfold trim.
  destruct (trimStart_spec s) as (w1 & H1 & _).
  destruct (trimEnd_spec (trimStart s)) as (w2 & H2 & _).
  exists w1, w2. rewrite <- H2. exact H1.
Qed.

Lemma lit_result {R} w (k : cont R) s r :
  lit w k s = Some r -> exists rest, s = w ++ rest /\ k rest = Some r.
Proof.
  unfold lit. destruct (startsWith s w) eqn:E; [|discriminate].
  intros H. exists (skipn (length w) s). split; [|exact H].
  apply startsWith_app. exact E.
Qed.

Lemma star_lazy_result {R} p (k : jsstring -> cont R) : forall s acc r,
  star_lazy p k acc s = Some r ->
  exists taken rest, s = taken ++ rest /\ k (acc ++ taken) rest = Some r.
Proof.
  induction s as [|c s IH]; intros acc r H.
  - cbn [star_lazy] in H. destruct (k acc []) eqn:E; [|discriminate].
    inversion H; subst. exists [], []. rewrite !app_nil_r.
    split; [reflexivity|exact E].
  - cbn [star_lazy] in H. destruct (k acc (c :: s)) eqn:E.
    + inversion H; subst. exists [], (c :: s). rewrite !app_nil_r.
      split; [reflexivity|exact E].
    + destruct (p c); [|discriminate].
      destruct (IH _ _ H) as (taken & rest & -> & Hk).
      exists (c :: taken), rest. split; [reflexivity|].
      rewrite <- app_assoc in Hk. exact Hk.
Qed.

Lemma lazy_payload_part ws rest payload :
  lazy_payload ws rest = Some payload ->
  exists post, rest = payload ++ post.
Proof.
  unfold lazy_payload. intros H.
  apply star_lazy_result in H. destruct H as (taken & rest' & -> & H).
  unfold closing_fence in H. apply lit_result in H.
  destruct H as (post & -> & H). inversion H; subst.
  exists (fence ++ post). reflexivity.
Qed.

Lemma captured_part re code payload :
  (forall t r, re t = Some r -> exists pre post, t = pre ++ r ++ post) ->
  captured re code = Some payload ->
  exists pre post, code = pre ++ payload ++ post.
Proof.
  intros Hre. unfold captured.
  destruct (search re code) as [[i [|c p]]|] eqn:Es; try discriminate.
  intros H. inversion H; subst. clear H.
  apply search_found in Es. destruct Es as (pre & t & -> & _ & Hm).
  destruct (Hre _ _ Hm) as (pre' & post & ->).
  exists (pre ++ pre'), post. rewrite <- app_assoc. reflexivity.
Qed.

Lemma any_fence_part t r :
  any_fence_re t = Some r -> exists pre post, t = pre ++ r ++ post.
Proof.
  unfold any_fence_re. intros H.
  apply lit_result in H. destruct H as (t1 & -> & H).
  apply star_result in H. destruct H as (ws & t2 & -> & _ & H).
  apply lazy_payload_part in H. destruct H as (post & ->).
  exists (fence ++ ws), post. rewrite <- !app_assoc. reflexivity.
Qed.

Lemma tagged_fence_part lang t r :
  tagged_fence_re lang t = Some r -> exists pre post, t = pre ++ r ++ post.
Proof.
  unfold tagged_fence_re. intros H.
  apply lit_result in H. destruct H as (t1 & -> & H).
  apply star_result in H. destruct H as (ws1 & t2 & -> & _ & H).
  apply lit_ci_result in H. destruct H as (t3 & Ht & _ & H).
  apply star_result in H. destruct H as (ws2 & t4 & -> & _ & H).
  apply lazy_payload_part in H. destruct H as (post & ->).
  rewrite Ht.
  exists (fence ++ ws1 ++ firstn (length lang) t2 ++ ws2), post.
  rewrite <- !app_assoc. reflexivity.
Qed.

Lemma fenced_part code lang :
  exists pre post, code = pre ++ fenced code lang ++ post.
Proof.
  assert (Hfallback :
            exists pre post,
              code = pre
                     ++ match captured any_fence_re code with
                        | Some payload => trim payload
                        | None => trim code
                        end ++ post).
  { destruct (captured any_fence_re code) as [payload|] eqn:E.
    - apply (part_trans _ payload); [apply trim_part|].
      exact (captured_part _ _ _ any_fence_part E).
    - apply trim_part. }
  unfold fenced. destruct lang as [[|c l]|]; try exact Hfallback.
  destruct (captured (tagged_fence_re (c :: l)) code) as [payload|] eqn:E;
    [|exact Hfallback].
  apply (part_trans _ payload); [apply trim_part|].
  exact (captured_part _ _ _ (tagged_fence_part (c :: l)) E).
Qed.

Lemma strict_scan_part text : forall s i start depth inString escaped block,
  strict_scan text s i start depth inString escaped = Some block ->
  exists pre post, text = pre ++ block ++ post.
Proof.
  induction s as [|ch s IH]; intros i start depth inString escaped block H;
    [discriminate|].
  cbn [strict_scan] in H.
  repeat match type of H with
         | (if ?b then _ else _) = _ => destruct b
         | match ?d with O => _ | S _ => _ end = _ => destruct d
         | match ?o with Some _ => _ | None => _ end = _ => destruct o
         | Some _ = Some _ => inversion H; subst; apply slice_part
         | strict_scan _ _ _ _ _ _ _ = _ => exact (IH _ _ _ _ _ _ H)
         end.
Qed.

Lemma array_block_part code :
  exists pre post, code = pre ++ array_block code ++ post.
Proof.
  unfold array_block.
  destruct (strict_scan code code 0 None 0 false false) as [block|] eqn:E.
  - exact (strict_scan_part _ _ _ _ _ _ _ _ E).
  - destruct (json_block_cases code)
      as [H|[(a & e & _ & _ & H)|(os & oe & _ & _ & H)]]; rewrite H.
    + apply part_refl.
    + apply slice_part.
    + apply slice_part.
Qed.

(** [extractCodeFence], called without a language or with a tag of word
    characters, and [extractJSONArrayStrict] return a part of the text
    they are given: they add nothing to it and change nothing inside
    what they keep. *)
Theorem extractions_take_a_part :
  forall (s : jsstring) (lang : option jsstring),
    literal_tag lang ->
    (exists t : jsstring,
        extractCodeFence (VString s) lang = Returned (VString t)
        /\ exists pre post, s = pre ++ t ++ post)
    /\ (exists t : jsstring,
           extractJSONArrayStrict (VString s) = Returned (VString t)
           /\ exists pre post, s = pre ++ t ++ post).
Proof.
  intros s lang Hlang. rewrite (extractCodeFence_fenced _ lang Hlang).
  destruct s as [|c s].
  - split; exists []; (split; [reflexivity|apply part_refl]).
  - split.
    + exists (fenced (c :: s) lang).
      split; [reflexivity|apply fenced_part].
    + exists (array_block (c :: s)).
      split; [reflexivity|apply array_block_part].
Qed.

Lemma extractions_take_a_part_witness :
  exists t : jsstring,
    extractCodeFence (VString (js "see ```JSON [1] ``` and more"))
      (Some (js "json"))
    = Returned (VString t)
    /\ exists pre post, js "see ```JSON [1] ``` and more" = pre ++ t ++ post.
Proof.
  apply (proj1 (extractions_take_a_part (js "see ```JSON [1] ``` and more")
                  (Some (js "json")) eq_refl)).
Defined.

(* ------------------------------------------------------------------ *)
(** ** The tags of a repaired text are closed *)
(* ------------------------------------------------------------------ *)

Lemma fixXMLorHTML_closed input opts :
  closed_from false (fixXMLorHTML input opts) = true.
Proof.
  rewrite (fixXMLorHTML_tag_loop input opts).
  set (text := autoCloseAngleBrackets (strip_invisible input)).
  assert (Hclosed : closed_from false text = true)
    by (subst text; rewrite autoCloseAngleBrackets_angles;
        apply angles_are_closed).
  assert (Hvis : Forall visible text).
  { subst text. rewrite autoCloseAngleBrackets_angles.
    apply angles_Forall; [split; reflexivity|apply strip_invisible_visible]. }
  destruct (proj1 (closed_segments text) Hclosed) as (l & Hg & Hr).
  rewrite <- Hr in Hvis |- *.
  destruct (tag_loop_fixpoint (opts_html opts) (opts_voids opts) l Hg
              (render_chars _ _ Hvis)) as (l2 & Hg2 & _ & H1 & _).
  rewrite H1. apply render_closed. exact Hg2.
Qed.

(** In the text that [fixXMLorHTML] returns every ['<'] is closed by a
    ['>'] before the next ['<'] and before the end of the text; so it is
    in the text that [fixXML] returns, and in the result of the pipeline
    [drawioProcessor].  The names of the tags of the text repaired are
    ASCII, or, for [fixXMLorHTML], [opts.html] is [false]; for the
    pipeline the text repaired is the one that the five steps before
    [fixXML] have prepared. *)
Theorem fixXMLorHTML_closes_angle_brackets :
  (forall (input : jsstring) (opts : options),
      ascii_names opts input ->
      angles_closed (fixXMLorHTML input opts) = true)
  /\ (forall s : jsstring,
         forallb (forallb is_ascii) (tag_names s) = true ->
         exists t : jsstring,
           fixXML (VString s) = Returned (VString t)
           /\ angles_closed t = true)
  /\ (forall s prepared : jsstring,
         process
           {| steps :=
                [cleanBOM;
                 (fun code => extractCodeFence code (Some (js "xml")));
                 unescapeHTML; extractXML; normalizeMxTags] |} (VString s)
         = Returned (VString prepared) ->
         forallb (forallb is_ascii) (tag_names prepared) = true ->
         exists t : jsstring,
           process drawioProcessor (VString s) = Returned (VString t)
           /\ angles_closed t = true).
Proof.
  assert (Hfix : forall s : jsstring,
             exists t : jsstring,
               fixXML (VString s) = Returned (VString t)
               /\ angles_closed t = true).
  { intros [|c s].
    - exists []. split; reflexivity.
    - eexists. split; [reflexivity|].
      unfold fixUnclosed. cbn [mode]. apply fixXMLorHTML_closed. }
  split; [intros input opts _; apply fixXMLorHTML_closed|].
  split; [intros s _; apply Hfix|].
  intros s prepared Hp _.
  change drawioProcessor
    with {| steps :=
              [cleanBOM; (fun code => extractCodeFence code (Some (js "xml")));
               unescapeHTML; extractXML; normalizeMxTags] ++ [fixXML] |}.
  rewrite process_app, Hp. cbn [bind].
  destruct (Hfix prepared) as (t & Ht & Hc).
  exists t. split; [|exact Hc].
  unfold process. cbn [steps reduce]. rewrite Ht. reflexivity.
Qed.

Lemma fixXMLorHTML_closes_angle_brackets_witness :
  exists t : jsstring,
    process drawioProcessor
      (VString (js "```xml <mxGraphModel><root><MXCELL value='"
                ++ [20320; 22909] ++ js "'></root ```"))
    = Returned (VString t)
    /\ angles_closed t = true.
Proof.
  apply (proj2 (proj2 fixXMLorHTML_closes_angle_brackets)
           (js "```xml <mxGraphModel><root><MXCELL value='"
            ++ [20320; 22909] ++ js "'></root ```")
           (js "<mxGraphModel><root><mxCell value='"
            ++ [20320; 22909] ++ js "'>")).
  - vm_compute; reflexivity.
  - vm_compute; reflexivity.
Defined.

(* ================================================================== *)
(** * Properties of the configuration route *)
(* ================================================================== *)

Lemma str_eqb_eq a : forall b, str_eqb a b = true <-> a = b.
Proof.
  induction a as [|x a IH]; intros [|y b]; simpl; split; intros H;
    try reflexivity; try discriminate.
  - apply andb_true_iff in H. destruct H as [H1 H2].
    apply N.eqb_eq in H1. apply IH in H2. subst. reflexivity.
  - inversion H; subst. rewrite N.eqb_refl. apply IH. reflexivity.
Qed.

(** The route discloses the server configuration only to a request whose
    [x-access-password] header is the configured, non-empty access
    password; such a request is answered with the configuration of the
    environment and status 200 when the type and the key are set, and
    every other answer is a failure with status 400, 401 or 500. *)
Theorem config_route_requires_password :
  forall (e : ConfigRoute.env) (accessPassword : option jsstring),
    (forall config,
        ConfigRoute.json (ConfigRoute.POST e accessPassword)
        = ConfigRoute.Success config ->
        (exists p, p <> [] /\ accessPassword = Some p
                   /\ ConfigRoute.ACCESS_PASSWORD e = Some p)
        /\ ConfigRoute.status (ConfigRoute.POST e accessPassword) = 200%nat
        /\ config
           = {| ConfigRoute.type := ConfigRoute.SERVER_LLM_TYPE e;
                ConfigRoute.baseUrl := ConfigRoute.SERVER_LLM_BASE_URL e;
                ConfigRoute.apiKey := ConfigRoute.SERVER_LLM_API_KEY e;
                ConfigRoute.model := ConfigRoute.SERVER_LLM_MODEL e |}
        /\ ConfigRoute.set (ConfigRoute.type config) = true
        /\ ConfigRoute.set (ConfigRoute.apiKey config) = true)
    /\ (forall error,
          ConfigRoute.json (ConfigRoute.POST e accessPassword)
          = ConfigRoute.Failure error ->
          ConfigRoute.status (ConfigRoute.POST e accessPassword) = 400%nat
          \/ ConfigRoute.status (ConfigRoute.POST e accessPassword) = 401%nat
          \/ ConfigRoute.status (ConfigRoute.POST e accessPassword) = 500%nat)
    /\ (forall p,
          p <> [] -> accessPassword = Some p ->
          ConfigRoute.ACCESS_PASSWORD e = Some p ->
          ConfigRoute.set (ConfigRoute.SERVER_LLM_TYPE e) = true ->
          ConfigRoute.set (ConfigRoute.SERVER_LLM_API_KEY e) = true ->
          ConfigRoute.status (ConfigRoute.POST e accessPassword) = 200%nat).
Proof.
  intros e accessPassword. unfold ConfigRoute.POST.
  destruct (ConfigRoute.ACCESS_PASSWORD e) as [[|c0 pw]|] eqn:Epw;
    cbn [ConfigRoute.set negb].
  - split; [|split].
    + intros config H. discriminate H.
    + intros error _. left. reflexivity.
    + intros p Hp _ He. congruence.
  - destruct accessPassword as [[|c1 given]|];
      cbn [ConfigRoute.set negb orb ConfigRoute.differs].
    + split; [|split].
      * intros config H. discriminate H.
      * intros error _. right. left. reflexivity.
      * intros p Hp Ha. congruence.
    + destruct (str_eqb (c1 :: given) (c0 :: pw)) eqn:Eeq; cbn [negb].
      * apply str_eqb_eq in Eeq. rewrite Eeq.
        cbn [ConfigRoute.type ConfigRoute.apiKey].
        destruct (ConfigRoute.set (ConfigRoute.SERVER_LLM_TYPE e)) eqn:Et;
          [destruct (ConfigRoute.set (ConfigRoute.SERVER_LLM_API_KEY e)) eqn:Ek|];
          cbn [negb orb ConfigRoute.json ConfigRoute.status].
        -- split; [|split].
           ++ intros config H. inversion H; subst.
              cbn [ConfigRoute.type ConfigRoute.apiKey].
              split; [exists (c0 :: pw); repeat split; discriminate|].
              repeat split; assumption.
           ++ intros error H. discriminate H.
           ++ reflexivity.
        -- split; [|split].
           ++ intros config H. discriminate H.
           ++ intros error _. right. right. reflexivity.
           ++ intros p _ _ _ _ H. discriminate H.
        -- split; [|split].
           ++ intros config H. discriminate H.
           ++ intros error _. right. right. reflexivity.
           ++ intros p _ _ _ H. discriminate H.
      * cbn [ConfigRoute.json ConfigRoute.status]. split; [|split].
        -- intros config H. discriminate H.
        -- intros error _. right. left. reflexivity.
        -- intros p _ Ha He. exfalso. inversion Ha; subst. inversion He; subst.
           rewrite str_eqb_refl in Eeq. discriminate Eeq.
    + split; [|split].
      * intros config H. discriminate H.
      * intros error _. right. left. reflexivity.
      * intros p _ Ha. discriminate Ha.
  - split; [|split].
    + intros config H. discriminate H.
    + intros error _. left. reflexivity.
    + intros p _ _ He. discriminate He.
Qed.

Lemma config_route_requires_password_witness :
  ConfigRoute.status
    (ConfigRoute.POST
       {| ConfigRoute.ACCESS_PASSWORD := Some (js "secret");
          ConfigRoute.SERVER_LLM_TYPE := Some (js "openai");
          ConfigRoute.SERVER_LLM_BASE_URL := None;
          ConfigRoute.SERVER_LLM_API_KEY := Some (js "sk-1");
          ConfigRoute.SERVER_LLM_MODEL := None |}
       (Some (js "secret")))
  = 200%nat.
Proof.
  apply (proj2 (proj2 (config_route_requires_password _ _)) (js "secret"));
    try reflexivity.
  discriminate.
Defined.

(* ================================================================== *)
(** * Properties of the engine hook *)
(* ================================================================== *)

Import EngineShared.

(* ------------------------------------------------------------------ *)
(** ** [split] *)
(* ------------------------------------------------------------------ *)

Lemma split_from_skip sep cur : forall pre rest,
  split_from sep (length pre) cur (pre ++ rest) = split_from sep O cur rest.
Proof. induction pre as [|c pre IH]; intros rest; [reflexivity|apply IH]. Qed.

Lemma split_from_cur sep : forall n s skip cur,
  (length s <= n)%nat ->
  split_from sep skip cur s = prepend (rev cur) (split_from sep skip [] s).
Proof.
  induction n as [|n IH]; intros s skip cur Hn.
  - destruct s; [simpl; rewrite app_nil_r; reflexivity|simpl in Hn; lia].
  - destruct s as [|c s]; [simpl; rewrite app_nil_r; reflexivity|].
    simpl in Hn. cbn [split_from]. destruct skip as [|k].
    + destruct (startsWith (c :: s) sep).
      * simpl. rewrite app_nil_r. reflexivity.
      * rewrite (IH s O (c :: cur)) by lia. rewrite (IH s O [c]) by lia.
        destruct (split_from sep O [] s) as [|h t]; [reflexivity|].
        simpl. rewrite <- app_assoc. reflexivity.
    + apply IH. lia.
Qed.

Lemma split_nonempty sep : forall s skip cur, split_from sep skip cur s <> [].
Proof.
  induction s as [|c s IH]; intros skip cur; [discriminate|].
  cbn [split_from]. destruct skip; [|apply IH].
  destruct (startsWith (c :: s) sep); [discriminate|apply IH].
Qed.

Lemma split_match sep s :
  sep <> [] -> startsWith s sep = true ->
  split s sep = [] :: split (skipn (length sep) s) sep.
Proof.
  intros Hsep H. unfold split. destruct s as [|c s].
  - destruct sep; [contradiction Hsep; reflexivity|discriminate H].
  - cbn [split_from]. rewrite H. cbn [rev]. f_equal.
    pose proof (startsWith_app _ _ H) as Hs.
    destruct sep as [|x sep]; [contradiction Hsep; reflexivity|].
    simpl in Hs. inversion Hs as [[Hc Hs']]. cbn [length skipn].
    rewrite Nat.sub_succ, Nat.sub_0_r.
    rewrite Hs' at 1. apply split_from_skip.
Qed.

Lemma split_nomatch sep c s :
  startsWith (c :: s) sep = false ->
  split (c :: s) sep = prepend [c] (split s sep).
Proof.
  intros H. unfold split. cbn [split_from]. rewrite H.
  apply (split_from_cur sep (length s) s O [c]). lia.
Qed.

Lemma startsWith_short s sep :
  (length s < length sep)%nat -> startsWith s sep = false.
Proof.
  revert s. induction sep as [|x sep IH]; intros s H; [simpl in H; lia|].
  destruct s as [|c s]; [reflexivity|]. simpl. simpl in H.
  rewrite IH by lia. apply andb_false_r.
Qed.

Lemma split_short sep : forall s,
  (length s < length sep)%nat -> split s sep = [s].
Proof.
  induction s as [|c s IH]; intros H; [reflexivity|].
  rewrite split_nomatch by (apply startsWith_short, H).
  rewrite IH by (simpl in H; lia). reflexivity.
Qed.

Lemma split_single sep : sep <> [] -> forall n s h,
  (length s <= n)%nat -> split s sep = [h] -> h = s.
Proof.
  intros Hsep. induction n as [|n IH]; intros s h Hn H.
  - destruct s; [inversion H; reflexivity|simpl in Hn; lia].
  - destruct s as [|c s]; [inversion H; reflexivity|]. simpl in Hn.
    destruct (startsWith (c :: s) sep) eqn:Em.
    + rewrite (split_match sep _ Hsep Em) in H. inversion H as [[Hh Ht]].
      exfalso. apply (split_nonempty sep (skipn (length sep) (c :: s)) O []).
      exact Ht.
    + rewrite (split_nomatch sep c s Em) in H.
      destruct (split s sep) as [|h' t] eqn:Es; [discriminate H|].
      simpl in H. inversion H; subst. f_equal. apply (IH s h'); [lia|exact Es].
Qed.

Lemma startsWith_prefix sep : forall s b,
  startsWith s sep = true -> startsWith (s ++ b) sep = true.
Proof.
  induction sep as [|x sep IH]; intros s b H; [reflexivity|].
  destruct s as [|c s]; [discriminate H|]. simpl in H |- *.
  apply andb_true_iff in H. destruct H as [H1 H2].
  rewrite H1, (IH _ _ H2). reflexivity.
Qed.

Lemma startsWith_long sep : forall s b,
  (length sep <= length s)%nat ->
  startsWith (s ++ b) sep = startsWith s sep.
Proof.
  induction sep as [|x sep IH]; intros s b H; [reflexivity|].
  destruct s as [|c s]; [simpl in H; lia|]. simpl in H |- *.
  rewrite IH by lia. reflexivity.
Qed.

(** Splitting a text that goes on: the pieces that are complete stay, and
    the last one is split again with what follows. *)
Lemma split_app sep b : sep <> [] -> forall n a,
  (length a <= n)%nat ->
  split (a ++ b) sep
  = removelast (split a sep) ++ split (last (split a sep) [] ++ b) sep.
Proof.
  intros Hsep. induction n as [|n IH]; intros a Hn.
  - destruct a; [reflexivity|simpl in Hn; lia].
  - destruct a as [|c a]; [reflexivity|]. simpl in Hn.
    destruct (startsWith (c :: a) sep) eqn:Em.
    + rewrite (split_match sep (c :: a) Hsep Em).
      rewrite (split_match sep ((c :: a) ++ b) Hsep (startsWith_prefix _ _ _ Em)).
      pose proof (startsWith_app _ _ Em) as Hs.
      assert (Hsk : skipn (length sep) ((c :: a) ++ b)
                    = skipn (length sep) (c :: a) ++ b).
      { rewrite Hs at 1. rewrite <- app_assoc, skipn_app, skipn_all, Nat.sub_diag.
        reflexivity. }
      rewrite Hsk.
      assert (Hlen : (length (skipn (length sep) (c :: a)) <= n)%nat).
      { rewrite length_skipn. destruct sep; [contradiction Hsep; reflexivity|].
        simpl. lia. }
      rewrite (IH _ Hlen).
      pose proof (split_nonempty sep (skipn (length sep) (c :: a)) O []) as Hne.
      fold (split (skipn (length sep) (c :: a)) sep) in Hne.
      destruct (split (skipn (length sep) (c :: a)) sep) as [|h t];
        [contradiction Hne; reflexivity|reflexivity].
    + destruct (startsWith ((c :: a) ++ b) sep) eqn:Em2.
      * assert (Hshort : (length (c :: a) < length sep)%nat).
        { destruct (Nat.lt_ge_cases (length (c :: a)) (length sep)) as [|Hge];
            [assumption|].
          rewrite (startsWith_long sep (c :: a) b Hge) in Em2. congruence. }
        rewrite (split_short sep (c :: a) Hshort). reflexivity.
      * change ((c :: a) ++ b) with (c :: (a ++ b)) in *.
        rewrite (split_nomatch sep c (a ++ b) Em2), (split_nomatch sep c a Em).
        rewrite (IH a) by lia.
        pose proof (split_nonempty sep a O []) as Hne.
        fold (split a sep) in Hne.
        destruct (split a sep) as [|h [|h' t]] eqn:Es;
          [contradiction Hne; reflexivity| |].
        -- cbn [removelast last app prepend].
           pose proof (split_single sep Hsep (length a) a h (le_n _) Es) as Eh.
           subst h. change (([c] ++ a) ++ b) with (c :: (a ++ b)).
           rewrite (split_nomatch sep c (a ++ b) Em2). reflexivity.
        -- reflexivity.
Qed.

Lemma split_last_clean sep s :
  sep <> [] -> split (last (split s sep) []) sep = [last (split s sep) []].
Proof.
  intros Hsep.
  pose proof (split_app sep [] Hsep (length s) s (le_n _)) as H.
  rewrite !app_nil_r in H.
  pose proof (split_nonempty sep s O []) as Hne. fold (split s sep) in Hne.
  rewrite (app_removelast_last [] Hne) in H at 1.
  apply app_inv_head in H. symmetry. exact H.
Qed.

(* ------------------------------------------------------------------ *)
(** ** The events of a stream *)
(* ------------------------------------------------------------------ *)

Lemma on_events_app onChunk : forall a b st,
  on_events onChunk st (a ++ b)
  = then_events onChunk (on_events onChunk st a) b.
Proof.
  induction a as [|e a IH]; intros b st; [reflexivity|].
  cbn [app on_events]. destruct (on_event onChunk st e); [apply IH|reflexivity].
Qed.

Lemma removelast_app_nonempty {A} (a b : list A) :
  b <> [] -> removelast (a ++ b) = a ++ removelast b.
Proof. intros H. apply removelast_app. exact H. Qed.

(** The loop over the chunks handles the complete events of the text that
    the chunks make up with the buffer, in order. *)
Lemma read_loop_events onChunk : forall chunks st buffer,
  split buffer [10; 10] = [buffer] ->
  read_loop onChunk st buffer chunks
  = on_events onChunk st
      (removelast (split (buffer ++ concat chunks) [10; 10])).
Proof.
  induction chunks as [|chunk chunks IH]; intros st buffer Hb.
  - cbn [concat read_loop]. rewrite app_nil_r, Hb. reflexivity.
  - cbn [concat read_loop].
    rewrite app_assoc.
    rewrite (split_app [10; 10] (concat chunks) ltac:(discriminate)
               (length (buffer ++ chunk)) (buffer ++ chunk) (le_n _)).
    rewrite removelast_app_nonempty by apply split_nonempty.
    rewrite on_events_app.
    destruct (on_events onChunk st (removelast (split (buffer ++ chunk) [10; 10])))
      as [st'|cause st']; [|reflexivity].
    cbn [then_events]. apply IH. apply split_last_clean. discriminate.
Qed.

(** [processSSEStream] does not depend on how the stream is cut into
    chunks: it ends as it does when the whole text comes in one chunk,
    with the same text accumulated and the same calls of [onChunk].  It
    handles, in order, the events of the text that a blank line ends; what
    follows the last blank line is never handled. *)
Theorem processSSEStream_any_chunking :
  forall (chunks : list jsstring) (onChunk : bool),
    processSSEStream chunks onChunk
    = processSSEStream [concat chunks] onChunk
    /\ processSSEStream chunks onChunk
       = on_events onChunk {| accumulatedCode := []; calls := [] |}
           (removelast (split (concat chunks) [10; 10])).
Proof.
  intros chunks onChunk. unfold processSSEStream.
  assert (H : forall cs,
             read_loop onChunk {| accumulatedCode := []; calls := [] |} [] cs
             = on_events onChunk {| accumulatedCode := []; calls := [] |}
                 (removelast (split (concat cs) [10; 10]))).
  { intros cs. apply (read_loop_events onChunk cs _ []). reflexivity. }
  split; [|apply H].
  rewrite (H chunks), (H [concat chunks]). cbn [concat].
  rewrite app_nil_r. reflexivity.
Qed.

(** An [error] that is a number is thrown when the number is not zero.
    A literal that stands for zero, or that rounds to zero as a double,
    is falsy: the event is read for its content. *)
Example zero_error_is_read_for_its_content :
  on_event true {| accumulatedCode := []; calls := [] |}
    (jq "data: {'error':0.0,'content':'x'}")
  = Streaming {| accumulatedCode := js "x"; calls := [js "x"] |}.
Proof. vm_compute. reflexivity. Qed.

Example vanishing_error_is_read_for_its_content :
  on_event true {| accumulatedCode := []; calls := [] |}
    (jq "data: {'error':1e-400,'content':'x'}")
  = Streaming {| accumulatedCode := js "x"; calls := [js "x"] |}.
Proof. vm_compute. reflexivity. Qed.

Example fractional_error_is_thrown :
  on_event true {| accumulatedCode := []; calls := [] |}
    (jq "data: {'error':0.5,'content':'x'}")
  = Failed (ServerError (JSON.JNumber (JSON.Dec (js "0.5"))))
      {| accumulatedCode := []; calls := [] |}.
Proof. vm_compute. reflexivity. Qed.

(* ------------------------------------------------------------------ *)
(** ** The messages sent *)
(* ------------------------------------------------------------------ *)

Lemma slice_from_last {A} (n : nat) (l : list A) :
  (0 < n)%nat ->
  slice_from (- Z.of_nat n) l = skipn (length l - n) l.
Proof.
  intros Hn. unfold slice_from.
  assert (E : (- Z.of_nat n <? 0)%Z = true) by (apply Z.ltb_lt; lia).
  rewrite E. f_equal. lia.
Qed.

Lemma slice_from_zero {A} (l : list A) : slice_from 0 l = l.
Proof. unfold slice_from. simpl. rewrite Z.min_l by lia. reflexivity. Qed.

(** [buildFullMessages]: the system message comes first and the user
    message last; between them come, in their order, the last
    [historyLimit] of the messages of the dialogue whose content is a
    string when [historyLimit] is positive, so at most [historyLimit] of
    them; with a [historyLimit] of 0 all those messages are kept. *)
Theorem buildFullMessages_history :
  forall (systemMessage userMessage : message)
         (currentMessages : list message),
    let textual :=
      filter (fun m => is_dialogue_role (role m) && is_text (content_of m))
        currentMessages in
    (forall limit : nat,
        (0 < limit)%nat ->
        buildFullMessages systemMessage userMessage currentMessages
          (Some (Z.of_nat limit))
        = [systemMessage] ++ skipn (length textual - limit) textual
          ++ [userMessage]
        /\ (length (buildFullMessages systemMessage userMessage
                      currentMessages (Some (Z.of_nat limit)))
            <= limit + 2)%nat)
    /\ buildFullMessages systemMessage userMessage currentMessages (Some 0%Z)
       = [systemMessage] ++ textual ++ [userMessage]
    /\ buildFullMessages systemMessage userMessage currentMessages None
       = [systemMessage] ++ skipn (length textual - 3) textual
         ++ [userMessage].
Proof.
  intros systemMessage userMessage currentMessages textual.
  split; [|split].
  - intros limit Hl. unfold buildFullMessages. fold textual.
    rewrite (slice_from_last limit textual Hl). split; [reflexivity|].
    rewrite !length_app, length_skipn. simpl. lia.
  - unfold buildFullMessages. fold textual.
    change (- 0)%Z with 0%Z. rewrite slice_from_zero. reflexivity.
  - unfold buildFullMessages. cbv zeta. fold textual.
    rewrite <- (slice_from_last 3 textual ltac:(lia)). reflexivity.
Qed.

Lemma buildFullMessages_history_witness :
  buildFullMessages
    {| role := VString (js "system"); content_of := Plain (VString (js "s")) |}
    {| role := VString (js "user"); content_of := Plain (VString (js "u")) |}
    [ {| role := VString (js "user"); content_of := Plain (VString (js "a")) |};
      {| role := VString (js "assistant"); content_of := Parts [] |};
      {| role := VString (js "assistant");
         content_of := Plain (VString (js "b")) |} ]
    (Some (Z.of_nat 1))
  = [ {| role := VString (js "system"); content_of := Plain (VString (js "s")) |};
      {| role := VString (js "assistant");
         content_of := Plain (VString (js "b")) |};
      {| role := VString (js "user"); content_of := Plain (VString (js "u")) |} ].
Proof.
  apply (proj1 (buildFullMessages_history
                  {| role := VString (js "system");
                     content_of := Plain (VString (js "s")) |}
                  {| role := VString (js "user");
                     content_of := Plain (VString (js "u")) |}
                  [ {| role := VString (js "user");
                       content_of := Plain (VString (js "a")) |};
                    {| role := VString (js "assistant"); content_of := Parts [] |};
                    {| role := VString (js "assistant");
                       content_of := Plain (VString (js "b")) |} ]) 1%nat).
  lia.
Defined.

(* ================================================================== *)
(** * Properties of the configuration manager *)
(* ================================================================== *)

Import ConfigManager.

(* ------------------------------------------------------------------ *)
(** ** Objects *)
(* ------------------------------------------------------------------ *)

Lemma str_eqb_sym a : forall b, str_eqb a b = str_eqb b a.
Proof.
  induction a as [|x a IH]; intros [|y b]; simpl; try reflexivity.
  rewrite N.eqb_sym, IH. reflexivity.
Qed.

Lemma lookup_replace k v : forall o o' x,
  replace_prop k v o = Some o' ->
  lookup x o' = if str_eqb k x then Some v else lookup x o.
Proof.
  induction o as [|[k0 v0] o IH]; intros o' x H; [discriminate|].
  cbn [replace_prop] in H. destruct (str_eqb k0 k) eqn:E.
  - inversion H; subst. apply str_eqb_eq in E. subst k0. cbn [lookup].
    destruct (str_eqb k x); reflexivity.
  - destruct (replace_prop k v o) as [o1|] eqn:Er; [|discriminate].
    inversion H; subst. cbn [lookup]. rewrite (IH o1 x eq_refl).
    destruct (str_eqb k0 x) eqn:E0; [|reflexivity].
    apply str_eqb_eq in E0. subst x.
    rewrite (str_eqb_sym k k0), E. reflexivity.
Qed.

Lemma replace_none k v : forall o,
  replace_prop k v o = None -> lookup k o = None.
Proof.
  induction o as [|[k0 v0] o IH]; intros H; [reflexivity|].
  cbn [replace_prop] in H. cbn [lookup].
  destruct (str_eqb k0 k); [discriminate|].
  destruct (replace_prop k v o); [discriminate|]. apply IH. reflexivity.
Qed.

Lemma lookup_insert i k v x : forall o,
  lookup k o = None ->
  lookup x (insert_index i k v o)
  = if str_eqb k x then Some v else lookup x o.
Proof.
  induction o as [|[k0 v0] o IH]; intros Hk.
  - reflexivity.
  - cbn [lookup] in Hk. destruct (str_eqb k0 k) eqn:E0; [discriminate|].
    cbn [insert_index].
    destruct (JSON.array_index k0) as [i'|]; [|reflexivity].
    destruct (i' <? i)%Z; [|reflexivity].
    cbn [lookup]. rewrite (IH Hk).
    destruct (str_eqb k0 x) eqn:Ex; [|reflexivity].
    apply str_eqb_eq in Ex. subst x.
    rewrite (str_eqb_sym k k0), E0. reflexivity.
Qed.

Lemma lookup_app x (a b : obj) :
  lookup x (a ++ b) = match lookup x a with Some v => Some v | None => lookup x b end.
Proof.
  induction a as [|[k0 v0] a IH]; [reflexivity|].
  cbn [app lookup]. destruct (str_eqb k0 x); [reflexivity|exact IH].
Qed.

(** A property defined is the one read; the others are as they were. *)
Lemma lookup_define o k v x :
  lookup x (define o (k, v)) = if str_eqb k x then Some v else lookup x o.
Proof.
  unfold define. destruct (replace_prop k v o) as [o'|] eqn:Er.
  - apply (lookup_replace k v o o' x Er).
  - apply replace_none in Er.
    destruct (JSON.array_index k) as [i|].
    + apply lookup_insert. exact Er.
    + rewrite lookup_app. cbn [lookup].
      destruct (str_eqb k x) eqn:E.
      * apply str_eqb_eq in E. subst x. rewrite Er. reflexivity.
      * destruct (lookup x o); reflexivity.
Qed.

Lemma lookup_fold x : forall props o,
  lookup x (fold_left define props o)
  = match last_def x props with
    | Some v => Some v
    | None => lookup x o
    end.
Proof.
  induction props as [|[k v] props IH]; intros o; [reflexivity|].
  cbn [fold_left last_def]. rewrite IH.
  destruct (last_def x props); [reflexivity|].
  rewrite lookup_define. destruct (str_eqb k x); reflexivity.
Qed.

Lemma last_def_app x a b :
  last_def x (a ++ b)
  = match last_def x b with Some v => Some v | None => last_def x a end.
Proof.
  induction a as [|[k v] a IH]; simpl.
  - destruct (last_def x b); reflexivity.
  - rewrite IH. destruct (last_def x b); reflexivity.
Qed.

Lemma last_def_unique x : forall o,
  NoDup (map fst o) -> last_def x o = lookup x o.
Proof.
  induction o as [|[k v] o IH]; intros H; [reflexivity|].
  inversion H as [|? ? Hnin Hnd]; subst. cbn [last_def lookup].
  rewrite (IH Hnd). destruct (str_eqb k x) eqn:E.
  - apply str_eqb_eq in E. subst x.
    destruct (lookup k o) as [v'|] eqn:El; [|reflexivity].
    exfalso. apply Hnin. clear -El.
    induction o as [|[k0 v0] o IH]; [discriminate|].
    cbn [lookup] in El. destruct (str_eqb k0 k) eqn:E.
    + apply str_eqb_eq in E. subst. left. reflexivity.
    + right. apply IH. exact El.
  - destruct (lookup x o); reflexivity.
Qed.

Lemma get_literal x props :
  get (literal props) x
  = match last_def x props with Some v => v | None => VUndefined end.
Proof.
  unfold get, literal. rewrite lookup_fold. simpl.
  destruct (last_def x props); reflexivity.
Qed.

Lemma strict_eq_refl v : strict_eq v v = true.
Proof.
  destruct v as [| |b|z|s]; simpl; try reflexivity.
  - destruct b; reflexivity.
  - apply Z.eqb_refl.
  - apply str_eqb_refl.
Qed.

Lemma strict_eq_eq a b : strict_eq a b = true -> a = b.
Proof.
  destruct a as [| |x|x|x], b as [| |y|y|y]; simpl; intros H;
    try discriminate; try reflexivity.
  - apply Bool.eqb_prop in H. subst. reflexivity.
  - apply Z.eqb_eq in H. subst. reflexivity.
  - apply str_eqb_eq in H. subst. reflexivity.
Qed.

(* ------------------------------------------------------------------ *)
(** ** Lists of configurations *)
(* ------------------------------------------------------------------ *)

Lemma strict_eq_sym a b : strict_eq a b = strict_eq b a.
Proof.
  destruct a as [| |x|x|x], b as [| |y|y|y]; simpl; try reflexivity.
  - destruct x, y; reflexivity.
  - apply Z.eqb_sym.
  - apply str_eqb_sym.
Qed.

Lemma findIndex_some id : forall cs i,
  findIndex id cs = Some i ->
  exists pre cfg post,
    cs = pre ++ cfg :: post /\ length pre = i /\ has_id id cfg = true
    /\ Forall (fun c => has_id id c = false) pre.
Proof.
  induction cs as [|c cs IH]; intros i H; [discriminate|].
  cbn [findIndex] in H. destruct (strict_eq (get c (js "id")) id) eqn:E.
  - inversion H; subst. exists [], c, cs. repeat split; [exact E|constructor].
  - destruct (findIndex id cs) as [j|]; [|discriminate]. inversion H; subst.
    destruct (IH j eq_refl) as (pre & cfg & post & -> & Hl & Hc & Hp).
    exists (c :: pre), cfg, post. repeat split; [simpl; f_equal; exact Hl|exact Hc|].
    constructor; assumption.
Qed.

Lemma findIndex_none id : forall cs,
  findIndex id cs = None <-> find (has_id id) cs = None.
Proof.
  induction cs as [|c cs IH]; [split; reflexivity|].
  cbn [findIndex find]. unfold has_id at 1.
  destruct (strict_eq (get c (js "id")) id); [split; discriminate|].
  rewrite <- IH. destruct (findIndex id cs); split; intros H; try discriminate; reflexivity.
Qed.

Lemma find_app {A} (p : A -> bool) a b :
  find p (a ++ b) = match find p a with Some x => Some x | None => find p b end.
Proof.
  induction a as [|x a IH]; [reflexivity|]. simpl. destruct (p x); [reflexivity|exact IH].
Qed.

Lemma find_none_prefix {A} (p : A -> bool) pre :
  Forall (fun c => p c = false) pre -> find p pre = None.
Proof.
  induction 1 as [|x pre Hx _ IH]; [reflexivity|]. simpl. rewrite Hx. exact IH.
Qed.

Lemma set_nth_middle {A} (pre : list A) x v post :
  set_nth (length pre) v (pre ++ x :: post) = pre ++ v :: post.
Proof. induction pre as [|y pre IH]; [reflexivity|]. simpl. f_equal. exact IH. Qed.

Lemma remove_nth_middle {A} (pre : list A) x post :
  remove_nth (length pre) (pre ++ x :: post) = pre ++ post.
Proof. induction pre as [|y pre IH]; [reflexivity|]. simpl. f_equal. exact IH. Qed.

Lemma nth_middle_obj (pre : list obj) x post :
  nth (length pre) (pre ++ x :: post) [] = x.
Proof. induction pre as [|y pre IH]; [reflexivity|]. simpl. exact IH. Qed.

(* ------------------------------------------------------------------ *)
(** ** The active configuration *)
(* ------------------------------------------------------------------ *)

Lemma resolves_find m :
  resolves m
  <-> (truthy (activeConfigId m) = true ->
       find (has_id (activeConfigId m)) (configs m) <> None).
Proof.
  unfold resolves, getActiveConfig, getConfig.
  split; intros H Ht; specialize (H Ht); rewrite Ht in *; exact H.
Qed.

Lemma created_config m id now data :
  configs (fst (createConfig m id now data))
  = configs m ++ [snd (createConfig m id now data)]
  /\ activeConfigId (fst (createConfig m id now data))
     = if truthy (activeConfigId m) then activeConfigId m
       else get (snd (createConfig m id now data)) (js "id").
Proof.
  unfold createConfig. cbn [fst snd configs activeConfigId].
  destruct (truthy (activeConfigId m)); cbn [negb]; split; reflexivity.
Qed.

Lemma createConfig_resolves m id now data :
  resolves m -> resolves (fst (createConfig m id now data)).
Proof.
  intros H. apply resolves_find. pose proof (proj1 (resolves_find _) H) as H'. clear H. rename H' into H.
  destruct (created_config m id now data) as [Hc Ha]. rewrite Hc, Ha.
  destruct (truthy (activeConfigId m)) eqn:Et.
  - intros _. rewrite find_app. specialize (H eq_refl).
    destruct (find (has_id (activeConfigId m)) (configs m)); [discriminate|].
    contradiction H; reflexivity.
  - intros _. rewrite find_app.
    set (a := get (snd (createConfig m id now data)) (js "id")).
    destruct (find (has_id a) (configs m)); [discriminate|].
    cbn [find]. unfold has_id at 1. fold a. rewrite strict_eq_refl. discriminate.
Qed.

Lemma updated_id (old updateData : obj) id now :
  get (literal (old ++ updateData
                ++ [(js "id", id); (js "updatedAt", VString now)])) (js "id")
  = id
  /\ get (literal (old ++ updateData
                   ++ [(js "id", id); (js "updatedAt", VString now)]))
       (js "updatedAt")
     = VString now.
Proof.
  rewrite !get_literal, !last_def_app. split; reflexivity.
Qed.

Lemma updateConfig_shape m now id updateData m' r :
  updateConfig m now id updateData = Returned (m', r) ->
  exists pre old post,
    configs m = pre ++ old :: post
    /\ configs m' = pre ++ r :: post
    /\ has_id id old = true
    /\ Forall (fun c => has_id id c = false) pre
    /\ r = literal (old ++ updateData
                    ++ [(js "id", id); (js "updatedAt", VString now)])
    /\ activeConfigId m' = activeConfigId m.
Proof.
  unfold updateConfig. intros H.
  destruct (findIndex id (configs m)) as [i|] eqn:Ei; [|discriminate].
  destruct (findIndex_some _ _ _ Ei) as (pre & old & post & Hc & Hl & Ho & Hp).
  inversion H; subst m' r. clear H.
  exists pre, old, post. cbn [configs saveConfigs activeConfigId].
  rewrite Hc, <- Hl, set_nth_middle, nth_middle_obj. auto 10.
Qed.

Lemma updateConfig_resolves m now id updateData m' r :
  resolves m -> updateConfig m now id updateData = Returned (m', r) ->
  resolves m'.
Proof.
  intros H Hu. apply resolves_find. pose proof (proj1 (resolves_find _) H) as H'. clear H. rename H' into H.
  destruct (updateConfig_shape _ _ _ _ _ _ Hu)
    as (pre & old & post & Hc & Hc' & Ho & Hp & Hr & Ha).
  rewrite Hc', Ha. intros Ht. specialize (H Ht). rewrite Hc in H.
  rewrite find_app in H |- *.
  destruct (find (has_id (activeConfigId m)) pre); [discriminate|].
  cbn [find] in H |- *.
  assert (E : has_id (activeConfigId m) r = has_id (activeConfigId m) old).
  { unfold has_id in *. rewrite Hr, (proj1 (updated_id old updateData id now)).
    apply strict_eq_eq in Ho. rewrite Ho. reflexivity. }
  rewrite E. destruct (has_id (activeConfigId m) old); [discriminate|exact H].
Qed.

Lemma deleteConfig_shape m id m' :
  deleteConfig m id = Returned m' ->
  exists pre cfg post,
    configs m = pre ++ cfg :: post
    /\ configs m' = pre ++ post
    /\ has_id id cfg = true
    /\ Forall (fun c => has_id id c = false) pre
    /\ activeConfigId m'
       = if strict_eq (activeConfigId m) id
         then or_else (match pre ++ post with
                       | first :: _ => get first (js "id")
                       | [] => VUndefined
                       end) VNull
         else activeConfigId m.
Proof.
  unfold deleteConfig. intros H.
  destruct (findIndex id (configs m)) as [i|] eqn:Ei; [|discriminate].
  destruct (findIndex_some _ _ _ Ei) as (pre & cfg & post & Hc & Hl & Ho & Hp).
  inversion H; subst m'. clear H.
  exists pre, cfg, post. cbn [configs saveConfigs activeConfigId].
  rewrite Hc, <- Hl, remove_nth_middle.
  destruct (strict_eq (activeConfigId m) id);
    cbn [configs saveConfigs saveActiveConfigId activeConfigId]; auto 10.
Qed.

Lemma deleteConfig_resolves m id m' :
  resolves m -> deleteConfig m id = Returned m' -> resolves m'.
Proof.
  intros H Hd. apply resolves_find. pose proof (proj1 (resolves_find _) H) as H'. clear H. rename H' into H.
  destruct (deleteConfig_shape _ _ _ Hd)
    as (pre & cfg & post & Hc & Hc' & Ho & Hp & Ha).
  rewrite Hc', Ha.
  destruct (strict_eq (activeConfigId m) id) eqn:Eact.
  - destruct (pre ++ post) as [|first rest]; [discriminate|].
    unfold or_else. destruct (truthy (get first (js "id"))) eqn:Et;
      [|discriminate].
    intros _. cbn [find]. unfold has_id. rewrite strict_eq_refl. discriminate.
  - intros Ht. specialize (H Ht). rewrite Hc in H.
    rewrite find_app in H |- *.
    destruct (find (has_id (activeConfigId m)) pre); [discriminate|].
    cbn [find] in H.
    assert (E : has_id (activeConfigId m) cfg = false).
    { unfold has_id in *. apply strict_eq_eq in Ho. rewrite Ho.
      rewrite strict_eq_sym. exact Eact. }
    rewrite E in H. exact H.
Qed.

Lemma setActiveConfig_resolves m id m' r :
  setActiveConfig m id = Returned (m', r) -> resolves m'.
Proof.
  unfold setActiveConfig. intros H.
  destruct (getConfig m id) as [cfg|] eqn:Eg; [|discriminate].
  inversion H; subst m' r. apply resolves_find.
  cbn [saveActiveConfigId configs activeConfigId]. intros _.
  unfold getConfig in Eg. fold (has_id id) in Eg. rewrite Eg. discriminate.
Qed.

Lemma cloneConfig_creates m fresh now id newName m' r :
  cloneConfig m fresh now id newName = Returned (m', r) ->
  exists original data,
    getConfig m id = Some original
    /\ data
       = literal
           (filter
              (fun kv =>
                 negb (str_eqb (fst kv) (js "id")
                       || str_eqb (fst kv) (js "createdAt")
                       || str_eqb (fst kv) (js "updatedAt")))
              original
            ++ [(js "name",
                 or_else newName
                   (VString
                      (to_string (get original (js "name")) ++ copy_suffix)))])
    /\ createConfig m fresh now data = (m', r).
Proof.
  unfold cloneConfig. intros H.
  destruct (getConfig m id) as [original|]; [|discriminate].
  exists original. eexists. split; [reflexivity|]. split; [reflexivity|].
  apply (f_equal (fun o => match o with
                           | Returned x => x
                           | Thrown _ => (m', r)
                           end)) in H.
  exact H.
Qed.

(** The methods that change the manager leave the active identifier the
    identifier of a configuration of the list, or no identifier at all:
    after each of them [getActiveConfig] finds a configuration whenever
    [getActiveConfigId] is not empty. *)
Theorem active_config_is_kept :
  forall m : manager,
    resolves m ->
    (forall id now configData,
        resolves (fst (createConfig m id now configData)))
    /\ (forall now id updateData m' r,
          updateConfig m now id updateData = Returned (m', r) -> resolves m')
    /\ (forall id m', deleteConfig m id = Returned m' -> resolves m')
    /\ (forall id m' r, setActiveConfig m id = Returned (m', r) -> resolves m')
    /\ (forall fresh now id newName m' r,
          cloneConfig m fresh now id newName = Returned (m', r) ->
          resolves m').
Proof.
  intros m H. split; [|split; [|split; [|split]]].
  - intros. apply createConfig_resolves, H.
  - intros. eapply updateConfig_resolves; eassumption.
  - intros. eapply deleteConfig_resolves; eassumption.
  - intros. eapply setActiveConfig_resolves; eassumption.
  - intros fresh now id newName m' r Hc.
    destruct (cloneConfig_creates _ _ _ _ _ _ _ Hc) as (original & data & _ & _ & Hd).
    replace m' with (fst (createConfig m fresh now data))
      by (rewrite Hd; reflexivity).
    apply createConfig_resolves, H.
Qed.

Lemma active_config_is_kept_witness :
  resolves
    (fst (createConfig
            {| configs := []; activeConfigId := VNull; localStorage := [] |}
            (js "k1") (js "2025-01-01T00:00:00.000Z")
            [(js "name", VString (js "local"))])).
Proof.
  apply (proj1 (active_config_is_kept
                  {| configs := []; activeConfigId := VNull;
                     localStorage := [] |}
                  ltac:(intros H; discriminate H))).
Defined.

(* ------------------------------------------------------------------ *)
(** ** Creating a configuration *)
(* ------------------------------------------------------------------ *)

Lemma get_created m id now data k :
  NoDup (map fst data) ->
  get (snd (createConfig m id now data)) k
  = match lookup k data with
    | Some v => v
    | None =>
        get
          (literal
             [(js "id", VString id);
              (js "name", VString unnamed);
              (js "type", VString (js "openai"));
              (js "baseUrl", VString []);
              (js "apiKey", VString []);
              (js "model", VString []);
              (js "description", VString []);
              (js "createdAt", VString now);
              (js "updatedAt", VString now)]) k
    end.
Proof.
  intros Hnd. unfold createConfig. cbn [snd].
  rewrite get_literal, last_def_app, (last_def_unique k data Hnd).
  destruct (lookup k data) as [v|] eqn:El; [reflexivity|].
  rewrite get_literal.
  assert (Hd : forall key d,
             lookup key data = None ->
             or_else (get data key) d = d).
  { intros key d Hk. unfold get. rewrite Hk. reflexivity. }
  cbn [last_def].
  repeat match goal with
         | |- context [str_eqb ?a k] =>
             let E := fresh "E" in
             destruct (str_eqb a k) eqn:E;
             [apply str_eqb_eq in E; subst k; rewrite ?Hd by exact El;
              reflexivity|]
         end.
  reflexivity.
Qed.

(** [createConfig] adds the configuration it returns at the end of the
    list.  Every property that [configData] has is taken as it is, an
    empty value too: the identifier made, the defaults and the dates are
    for the properties that [configData] does not have.  When no
    configuration had its identifier, [getConfig] finds the new
    configuration by it. *)
Theorem createConfig_adds_configuration :
  forall (m : manager) (id now : jsstring) (configData : obj),
    NoDup (map fst configData) ->
    let m' := fst (createConfig m id now configData) in
    let created := snd (createConfig m id now configData) in
    getAllConfigs m' = getAllConfigs m ++ [created]
    /\ (forall k v, lookup k configData = Some v -> get created k = v)
    /\ (lookup (js "id") configData = None ->
        get created (js "id") = VString id)
    /\ (lookup (js "name") configData = None ->
        get created (js "name") = VString unnamed)
    /\ (lookup (js "type") configData = None ->
        get created (js "type") = VString (js "openai"))
    /\ (lookup (js "createdAt") configData = None ->
        get created (js "createdAt") = VString now)
    /\ (lookup (js "updatedAt") configData = None ->
        get created (js "updatedAt") = VString now)
    /\ (getConfig m (get created (js "id")) = None ->
        getConfig m' (get created (js "id")) = Some created).
Proof.
  intros m id now configData Hnd m' created.
  destruct (created_config m id now configData) as [Hc _].
  split; [exact Hc|].
  split.
  { intros k v Hk. subst created. rewrite (get_created m id now configData k Hnd), Hk.
    reflexivity. }
  repeat split;
    try (intros Hk; subst created;
         rewrite (get_created m id now configData _ Hnd), Hk; reflexivity).
  intros Hnone. unfold getConfig in *. subst m'. rewrite Hc, find_app.
  fold created. fold (has_id (get created (js "id"))) in Hnone |- *.
  rewrite Hnone. cbn [find]. unfold has_id at 1. rewrite strict_eq_refl.
  reflexivity.
Qed.

Lemma createConfig_adds_configuration_witness :
  get (snd (createConfig
              {| configs := []; activeConfigId := VNull; localStorage := [] |}
              (js "k1") (js "2025-01-01T00:00:00.000Z")
              [(js "name", VString [])])) (js "name")
  = VString [].
Proof.
  apply (proj1 (proj2 (createConfig_adds_configuration
                         {| configs := []; activeConfigId := VNull;
                            localStorage := [] |}
                         (js "k1") (js "2025-01-01T00:00:00.000Z")
                         [(js "name", VString [])]
                         ltac:(repeat constructor; simpl; tauto)))
           (js "name") (VString [])).
  reflexivity.
Defined.

(* ------------------------------------------------------------------ *)
(** ** Updating and deleting a configuration *)
(* ------------------------------------------------------------------ *)

Lemma strict_eq_neq a b : a <> b -> strict_eq a b = false.
Proof.
  intros H. destruct (strict_eq a b) eqn:E; [|reflexivity].
  contradiction H. apply strict_eq_eq. exact E.
Qed.

Lemma has_id_other id id' cfg :
  has_id id cfg = true -> id' <> id -> has_id id' cfg = false.
Proof.
  unfold has_id. intros H Hn. apply strict_eq_eq in H. rewrite H.
  apply strict_eq_neq. intros E. apply Hn. symmetry. exact E.
Qed.

Lemma find_without {A} (p : A -> bool) pre x post :
  p x = false -> find p (pre ++ x :: post) = find p (pre ++ post).
Proof.
  intros H. rewrite !find_app. cbn [find]. rewrite H. reflexivity.
Qed.

Lemma getConfig_none_throws m id :
  getConfig m id = None <-> findIndex id (configs m) = None.
Proof. unfold getConfig. symmetry. apply findIndex_none. Qed.

(** [deleteConfig] throws the error "the configuration does not exist"
    exactly when [getConfig] finds no configuration with the identifier.
    Otherwise it takes one configuration out of the list, the first with
    this identifier, and leaves the others in their order: every other
    identifier finds what it found before, and the identifier deleted
    finds nothing when one configuration only had it.  The active
    identifier changes only when it was the one deleted: it becomes the
    identifier of the first configuration left, when it has one that is
    not empty, and [null] otherwise. *)
Theorem deleteConfig_removes_one_configuration :
  forall (m : manager) (id : value),
    (getConfig m id = None <-> deleteConfig m id = Thrown (Error not_found))
    /\ (forall m', deleteConfig m id = Returned m' ->
        (exists pre cfg post,
            getAllConfigs m = pre ++ cfg :: post
            /\ getAllConfigs m' = pre ++ post
            /\ getConfig m id = Some cfg)
        /\ (forall id', id' <> id -> getConfig m' id' = getConfig m id')
        /\ (NoDup (map (fun cfg => get cfg (js "id")) (getAllConfigs m)) ->
            getConfig m' id = None)
        /\ getActiveConfigId m'
           = if strict_eq (getActiveConfigId m) id
             then match getAllConfigs m' with
                  | first :: _ => or_else (get first (js "id")) VNull
                  | [] => VNull
                  end
             else getActiveConfigId m).
Proof.
  intros m id. split.
  - rewrite getConfig_none_throws. unfold deleteConfig.
    destruct (findIndex id (configs m)); split; intros H;
      try discriminate; reflexivity.
  - intros m' Hd.
    destruct (deleteConfig_shape _ _ _ Hd)
      as (pre & cfg & post & Hc & Hc' & Ho & Hp & Ha).
    unfold getAllConfigs, getActiveConfigId, getConfig.
    fold (has_id id).
    split; [|split; [|split]].
    + exists pre, cfg, post. split; [exact Hc|]. split; [exact Hc'|].
      rewrite Hc, find_app, (find_none_prefix _ _ Hp). cbn [find].
      rewrite Ho. reflexivity.
    + intros id' Hn. fold (has_id id'). rewrite Hc, Hc'. symmetry.
      apply find_without. exact (has_id_other id id' cfg Ho Hn).
    + rewrite Hc, Hc'. intros Hnd.
      rewrite find_app, (find_none_prefix _ _ Hp).
      apply find_none_prefix. apply Forall_forall. intros c Hin.
      destruct (has_id id c) eqn:E; [|reflexivity]. exfalso.
      rewrite map_app in Hnd. apply NoDup_remove_2 in Hnd.
      apply Hnd. apply in_or_app. right.
      unfold has_id in Ho, E. apply strict_eq_eq in Ho, E.
      cbn [map]. rewrite Ho, <- E.
      apply (in_map (fun cfg0 => get cfg0 (js "id"))). exact Hin.
    + rewrite Ha, Hc'. destruct (strict_eq (activeConfigId m) id);
        [|reflexivity].
      destruct (pre ++ post); reflexivity.
Qed.

Lemma deleteConfig_removes_one_configuration_witness :
  exists m',
    deleteConfig
      {| configs := [[(js "id", VString (js "a"))];
                     [(js "id", VString (js "b"))]];
         activeConfigId := VString (js "a");
         localStorage := [] |}
      (VString (js "a")) = Returned m'
    /\ getConfig m' (VString (js "a")) = None
    /\ getActiveConfigId m' = VString (js "b").
Proof.
  eexists. split; [reflexivity|].
  destruct (proj2 (deleteConfig_removes_one_configuration
                     {| configs := [[(js "id", VString (js "a"))];
                                    [(js "id", VString (js "b"))]];
                        activeConfigId := VString (js "a");
                        localStorage := [] |}
                     (VString (js "a"))) _ eq_refl)
    as (_ & _ & Hnone & Hactive).
  split; [|exact Hactive].
  apply Hnone. repeat constructor; simpl; intuition discriminate.
Defined.

(** [updateConfig] throws the error "the configuration does not exist"
    exactly when [getConfig] finds no configuration with the identifier.
    Otherwise the first configuration with this identifier is replaced,
    at its place, by the one returned: it has the identifier asked for
    and the time of the update whatever [updateData] says, elsewhere the
    properties that [updateData] has, and the old ones for the rest.
    [getConfig] finds it by the identifier, every other identifier finds
    what it found before, and the active identifier is unchanged. *)
Theorem updateConfig_replaces_in_place :
  forall (m : manager) (now : jsstring) (id : value) (updateData : obj),
    (getConfig m id = None
     <-> updateConfig m now id updateData = Thrown (Error not_found))
    /\ (forall m' updated,
        updateConfig m now id updateData = Returned (m', updated) ->
        exists pre old post,
          getAllConfigs m = pre ++ old :: post
          /\ getAllConfigs m' = pre ++ updated :: post
          /\ getConfig m id = Some old
          /\ getConfig m' id = Some updated
          /\ get updated (js "id") = id
          /\ get updated (js "updatedAt") = VString now
          /\ (forall k,
                 k <> js "id" -> k <> js "updatedAt" ->
                 NoDup (map fst old) -> NoDup (map fst updateData) ->
                 get updated k
                 = match lookup k updateData with
                   | Some v => v
                   | None => get old k
                   end)
          /\ (forall id', id' <> id -> getConfig m' id' = getConfig m id')
          /\ getActiveConfigId m' = getActiveConfigId m).
Proof.
  intros m now id updateData. split.
  - rewrite getConfig_none_throws. unfold updateConfig.
    destruct (findIndex id (configs m)); split; intros H;
      try discriminate; reflexivity.
  - intros m' r Hu.
    destruct (updateConfig_shape _ _ _ _ _ _ Hu)
      as (pre & old & post & Hc & Hc' & Ho & Hp & Hr & Ha).
    destruct (updated_id old updateData id now) as [Hid Hat].
    rewrite <- Hr in Hid, Hat.
    assert (Hor : has_id id r = true).
    { unfold has_id. rewrite Hid. apply strict_eq_refl. }
    exists pre, old, post.
    unfold getAllConfigs, getActiveConfigId, getConfig. fold (has_id id).
    split; [exact Hc|]. split; [exact Hc'|].
    split.
    { rewrite Hc, find_app, (find_none_prefix _ _ Hp). cbn [find].
      rewrite Ho. reflexivity. }
    split.
    { rewrite Hc', find_app, (find_none_prefix _ _ Hp). cbn [find].
      rewrite Hor. reflexivity. }
    split; [exact Hid|]. split; [exact Hat|].
    split.
    { intros k Hk1 Hk2 Hnd1 Hnd2. rewrite Hr, get_literal, !last_def_app.
      cbn [last_def].
      assert (E1 : str_eqb (js "id") k = false).
      { destruct (str_eqb (js "id") k) eqn:E; [|reflexivity].
        apply str_eqb_eq in E. contradiction Hk1. symmetry. exact E. }
      assert (E2 : str_eqb (js "updatedAt") k = false).
      { destruct (str_eqb (js "updatedAt") k) eqn:E; [|reflexivity].
        apply str_eqb_eq in E. contradiction Hk2. symmetry. exact E. }
      rewrite E1, E2, (last_def_unique k _ Hnd1), (last_def_unique k _ Hnd2).
      unfold get. destruct (lookup k updateData); reflexivity. }
    split; [|exact Ha].
    intros id' Hn. fold (has_id id'). rewrite Hc, Hc', !find_app.
    cbn [find].
    rewrite (has_id_other id id' old Ho Hn), (has_id_other id id' r Hor Hn).
    reflexivity.
Qed.

Lemma updateConfig_replaces_in_place_witness :
  exists m' updated,
    updateConfig
      {| configs := [[(js "id", VString (js "a"));
                      (js "name", VString (js "old"))]];
         activeConfigId := VString (js "a");
         localStorage := [] |}
      (js "2025-01-01T00:00:00.000Z") (VString (js "a"))
      [(js "id", VString (js "z")); (js "name", VString (js "new"))]
    = Returned (m', updated)
    /\ get updated (js "id") = VString (js "a")
    /\ getConfig m' (VString (js "a")) = Some updated.
Proof.
  eexists. eexists. split; [reflexivity|].
  destruct (proj2 (updateConfig_replaces_in_place
                     {| configs := [[(js "id", VString (js "a"));
                                     (js "name", VString (js "old"))]];
                        activeConfigId := VString (js "a");
                        localStorage := [] |}
                     (js "2025-01-01T00:00:00.000Z") (VString (js "a"))
                     [(js "id", VString (js "z"));
                      (js "name", VString (js "new"))]) _ _ eq_refl)
    as (pre & old & post & _ & _ & _ & Hfound & Hid & _).
  split; [exact Hid|exact Hfound].
Defined.

(* ------------------------------------------------------------------ *)
(** ** What is stored *)
(* ------------------------------------------------------------------ *)








(* ------------------------------------------------------------------ *)
(** ** Cloning a configuration *)
(* ------------------------------------------------------------------ *)












(* ================================================================== *)
(** * Properties of the streaming route *)
(* ================================================================== *)

Import StreamRoute.

(* ------------------------------------------------------------------ *)
(** ** A quoted string is read back *)
(* ------------------------------------------------------------------ *)

Lemma hex_val_digit n : n < 16 -> JSON.hex_val (JSON.hex_digit n) = Some n.
Proof.
  intros H. rewrite <- (N2Nat.id n).
  assert (Hn : (N.to_nat n < 16)%nat) by lia.
  destruct (N.to_nat n) as [|m]; [reflexivity|].
  do 15 (destruct m as [|m]; [reflexivity|]). lia.
Qed.

Lemma hex4_escape c :
  c < 65536 ->
  JSON.hex4 (JSON.hex_digit (c / 4096 mod 16)) (JSON.hex_digit (c / 256 mod 16))
    (JSON.hex_digit (c / 16 mod 16)) (JSON.hex_digit (c mod 16))
  = Some c.
Proof.
  intros H. unfold JSON.hex4.
  rewrite !hex_val_digit by (apply N.mod_lt; discriminate).
  f_equal.
  assert (D2 : c / 16 / 16 = c / 256)
    by (rewrite N.Div0.div_div; reflexivity).
  assert (D3 : c / 256 / 16 = c / 4096)
    by (rewrite N.Div0.div_div; reflexivity).
  pose proof (N.div_mod c 16 ltac:(discriminate)) as E1.
  pose proof (N.div_mod (c / 16) 16 ltac:(discriminate)) as E2.
  pose proof (N.div_mod (c / 256) 16 ltac:(discriminate)) as E3.
  rewrite D2 in E2. rewrite D3 in E3.
  assert (E4 : c / 4096 mod 16 = c / 4096).
  { apply N.mod_small. apply N.Div0.div_lt_upper_bound. exact H. }
  rewrite E4.
  lia.
Qed.

Lemma lex_escape e x s acc :
  JSON.escape_char e = Some x -> (e =? 117) = false ->
  JSON.lex_string (BACKSLASH :: e :: s) acc = JSON.lex_string s (acc ++ [x]).
Proof.
  intros He Hu. cbn [JSON.lex_string].
  change (BACKSLASH =? QUOTE) with false.
  change (BACKSLASH =? BACKSLASH) with true. cbv iota.
  rewrite Hu, He. reflexivity.
Qed.

Lemma lex_unicode c s acc :
  c < 65536 ->
  JSON.lex_string (JSON.unicode_escape c ++ s) acc
  = JSON.lex_string s (acc ++ [c]).
Proof.
  intros H. unfold JSON.unicode_escape. cbn [app JSON.lex_string].
  change (BACKSLASH =? QUOTE) with false.
  change (BACKSLASH =? BACKSLASH) with true.
  change (117 =? 117) with true. cbv iota.
  rewrite (hex4_escape c H). reflexivity.
Qed.

Lemma lex_raw c s acc :
  (c =? QUOTE) = false -> (c =? BACKSLASH) = false -> (c <? 32) = false ->
  JSON.lex_string (c :: s) acc = JSON.lex_string s (acc ++ [c]).
Proof. intros H1 H2 H3. cbn [JSON.lex_string]. rewrite H1, H2, H3. reflexivity. Qed.

Lemma cons_snoc {A} (acc : list A) c s : (acc ++ [c]) ++ s = acc ++ c :: s.
Proof. rewrite <- app_assoc. reflexivity. Qed.

(** What [JSON.stringify] writes between the quotes of a string,
    [JSON.parse] reads as that string. *)
Lemma lex_string_quote : forall s after_high acc rest,
  JSON.lex_string (JSON.quote_chars after_high s ++ QUOTE :: rest) acc
  = Some (acc ++ s, rest).
Proof.
  induction s as [|c s IH]; intros after_high acc rest.
  - cbn [JSON.quote_chars app JSON.lex_string].
    change (QUOTE =? QUOTE) with true. cbv iota. rewrite app_nil_r.
    reflexivity.
  - cbn [JSON.quote_chars].
    destruct (N.eqb_spec c 8) as [->|_];
      [cbn [app]; rewrite (lex_escape 98 8), IH, cons_snoc; reflexivity|].
    destruct (N.eqb_spec c 9) as [->|_];
      [cbn [app]; rewrite (lex_escape 116 9), IH, cons_snoc; reflexivity|].
    destruct (N.eqb_spec c 10) as [->|_];
      [cbn [app]; rewrite (lex_escape 110 10), IH, cons_snoc; reflexivity|].
    destruct (N.eqb_spec c 12) as [->|_];
      [cbn [app]; rewrite (lex_escape 102 12), IH, cons_snoc; reflexivity|].
    destruct (N.eqb_spec c 13) as [->|_];
      [cbn [app]; rewrite (lex_escape 114 13), IH, cons_snoc; reflexivity|].
    destruct (c =? QUOTE) eqn:Eq.
    { apply N.eqb_eq in Eq. subst c. cbn [app].
      rewrite (lex_escape QUOTE QUOTE), IH, cons_snoc; reflexivity. }
    destruct (c =? BACKSLASH) eqn:Eb.
    { apply N.eqb_eq in Eb. subst c. cbn [app].
      rewrite (lex_escape BACKSLASH BACKSLASH), IH, cons_snoc; reflexivity. }
    destruct (c <? 32) eqn:El.
    { apply N.ltb_lt in El. rewrite <- app_assoc, lex_unicode by lia.
      rewrite IH, cons_snoc. reflexivity. }
    destruct (JSON.is_high_surrogate c) eqn:Eh.
    { assert (Hc : c < 65536).
      { unfold JSON.is_high_surrogate in Eh. apply andb_true_iff in Eh.
        destruct Eh as [_ Eh]. apply N.leb_le in Eh. lia. }
      destruct s as [|d s].
      - rewrite lex_unicode by exact Hc.
        cbn [JSON.lex_string]. change (QUOTE =? QUOTE) with true. cbv iota.
        reflexivity.
      - destruct (JSON.is_low_surrogate d).
        + cbn [app]. rewrite lex_raw by assumption.
          rewrite IH, cons_snoc. reflexivity.
        + rewrite <- app_assoc, lex_unicode by exact Hc.
          rewrite IH, cons_snoc. reflexivity. }
    destruct (JSON.is_low_surrogate c) eqn:Elow.
    { assert (Hc : c < 65536).
      { unfold JSON.is_low_surrogate in Elow. apply andb_true_iff in Elow.
        destruct Elow as [_ Elow]. apply N.leb_le in Elow. lia. }
      destruct after_high.
      - cbn [app]. rewrite lex_raw by assumption.
        rewrite IH, cons_snoc. reflexivity.
      - rewrite <- app_assoc, lex_unicode by exact Hc.
        rewrite IH, cons_snoc. reflexivity. }
    cbn [app]. rewrite lex_raw by assumption.
    rewrite IH, cons_snoc. reflexivity.
Qed.

(* ------------------------------------------------------------------ *)
(** ** The events of the stream *)
(* ------------------------------------------------------------------ *)

Lemma hex_digit_printable n : JSON.hex_digit n <> 10.
Proof. unfold JSON.hex_digit. destruct (n <? 10); lia. Qed.

Lemma quote_chars_one_line : forall s after_high,
  Forall (fun c => c <> 10) (JSON.quote_chars after_high s).
Proof.
  assert (Hesc : forall e rest,
             e <> 10 -> Forall (fun c => c <> 10) rest ->
             Forall (fun c => c <> 10) ([BACKSLASH; e] ++ rest)).
  { intros e rest He Hr. repeat constructor; try assumption. discriminate. }
  assert (Huni : forall c rest,
             Forall (fun c => c <> 10) rest ->
             Forall (fun c => c <> 10) (JSON.unicode_escape c ++ rest)).
  { intros c rest Hr. unfold JSON.unicode_escape. cbn [app].
    repeat constructor; try apply hex_digit_printable; try assumption;
      discriminate. }
  induction s as [|c s IH]; intros after_high; [constructor|].
  cbn [JSON.quote_chars].
  destruct (N.eqb_spec c 8); [apply Hesc; [discriminate|apply IH]|].
  destruct (N.eqb_spec c 9); [apply Hesc; [discriminate|apply IH]|].
  destruct (N.eqb_spec c 10); [apply Hesc; [discriminate|apply IH]|].
  destruct (N.eqb_spec c 12); [apply Hesc; [discriminate|apply IH]|].
  destruct (N.eqb_spec c 13); [apply Hesc; [discriminate|apply IH]|].
  destruct (c =? QUOTE); [apply Hesc; [discriminate|apply IH]|].
  destruct (c =? BACKSLASH); [apply Hesc; [discriminate|apply IH]|].
  destruct (c <? 32); [apply Huni, IH|].
  destruct (JSON.is_high_surrogate c).
  { destruct s as [|d s].
    - rewrite <- (app_nil_r (JSON.unicode_escape c)). apply Huni. constructor.
    - destruct (JSON.is_low_surrogate d);
        [constructor; [assumption|apply IH]|apply Huni, IH]. }
  destruct (JSON.is_low_surrogate c).
  { destruct after_high; [constructor; [assumption|apply IH]|apply Huni, IH]. }
  constructor; [assumption|apply IH].
Qed.

Lemma event_shape k v :
  event (JSON.JObject [(k, JSON.JString v)]) = event_text k v ++ [10; 10].
Proof.
  unfold event, event_text. cbn [ConfigManager.compact map JSON.join fst snd].
  unfold JSON.quote.
  change (js "{") with [LBRACE]. change (js ":") with [COLON].
  change (js "}") with [RBRACE].
  repeat (rewrite <- ?app_assoc; cbn [app]). reflexivity.
Qed.

Lemma event_text_one_line k v : Forall (fun c => c <> 10) (event_text k v).
Proof.
  unfold event_text. apply Forall_app. split.
  - repeat constructor; discriminate.
  - constructor; [discriminate|]. constructor; [discriminate|].
    apply Forall_app. split; [apply quote_chars_one_line|].
    constructor; [discriminate|]. constructor; [discriminate|].
    constructor; [discriminate|].
    apply Forall_app. split; [apply quote_chars_one_line|].
    repeat constructor; discriminate.
Qed.

Lemma split_from_line : forall body cur rest,
  Forall (fun c => c <> 10) body ->
  split_from [10; 10] 0 cur (body ++ 10 :: 10 :: rest)
  = (rev cur ++ body) :: split_from [10; 10] 0 [] rest.
Proof.
  induction body as [|c body IH]; intros cur rest H.
  - cbn [app split_from startsWith]. change (10 =? 10) with true.
    cbn [andb length Nat.sub split_from]. rewrite app_nil_r. reflexivity.
  - inversion H as [|? ? Hc Hb]; subst.
    cbn [app split_from startsWith].
    apply N.eqb_neq in Hc. rewrite Hc. cbn [andb].
    rewrite (IH (c :: cur) rest Hb). cbn [rev].
    rewrite <- app_assoc. reflexivity.
Qed.

Lemma split_line body rest :
  Forall (fun c => c <> 10) body ->
  split (body ++ 10 :: 10 :: rest) [10; 10] = body :: split rest [10; 10].
Proof. intros H. unfold split. rewrite split_from_line by exact H. reflexivity. Qed.

Lemma stream_events run :
  split (concat (start run)) [10; 10]
  = map (event_text (js "content")) (chunks run) ++ [closing_text run; []].
Proof.
  unfold start. rewrite concat_app. cbn [concat]. rewrite app_nil_r.
  induction (chunks run) as [|chunk cs IH].
  - cbn [map concat app]. unfold closing_text.
    destruct (thrown run) as [message|].
    + rewrite event_shape.
      rewrite split_line by apply event_text_one_line. reflexivity.
    + change (js "data: [DONE]" ++ [10; 10])
        with (js "data: [DONE]" ++ 10 :: 10 :: []).
      rewrite split_line by (repeat constructor; discriminate). reflexivity.
  - cbn [map concat app]. rewrite event_shape, <- !app_assoc.
    cbn [app]. rewrite split_line by apply event_text_one_line.
    rewrite IH. reflexivity.
Qed.

(* ------------------------------------------------------------------ *)
(** ** Reading an event *)
(* ------------------------------------------------------------------ *)

Lemma lex_enough f s :
  (length s < f)%nat -> JSON.lex f s = JSON.lex (S (length s)) s.
Proof. intros H. apply lex_fuel; [exact H|lia]. Qed.

Lemma lex_string_token f v rest :
  (length (JSON.quote_chars false v ++ QUOTE :: rest) < f)%nat ->
  JSON.lex (S f) (QUOTE :: JSON.quote_chars false v ++ QUOTE :: rest)
  = option_map (cons (JSON.TString v)) (JSON.lex (S (length rest)) rest).
Proof.
  intros H. cbn [JSON.lex]. change (JSON.json_ws QUOTE) with false.
  change (QUOTE =? LBRACE) with false. change (QUOTE =? RBRACE) with false.
  change (QUOTE =? LBRACKET) with false. change (QUOTE =? RBRACKET) with false.
  change (QUOTE =? COLON) with false. change (QUOTE =? COMMA) with false.
  change (QUOTE =? QUOTE) with true. cbv iota.
  rewrite lex_string_quote. cbn [app].
  rewrite lex_enough; [reflexivity|].
  rewrite length_app in H. cbn [length] in H. lia.
Qed.

Lemma lex_lbrace f r :
  JSON.lex (S f) (LBRACE :: r) = option_map (cons JSON.TLBrace) (JSON.lex f r).
Proof. reflexivity. Qed.

Lemma lex_colon f r :
  JSON.lex (S f) (COLON :: r) = option_map (cons JSON.TColon) (JSON.lex f r).
Proof. reflexivity. Qed.

Lemma parse_event k v :
  JSON.parse
    (LBRACE :: QUOTE :: JSON.quote_chars false k
     ++ QUOTE :: COLON :: QUOTE :: JSON.quote_chars false v
     ++ [QUOTE; RBRACE])
  = Returned (JSON.JObject [(k, JSON.JString v)]).
Proof.
  unfold JSON.parse.
  set (rest1 := COLON :: QUOTE :: JSON.quote_chars false v ++ [QUOTE; RBRACE]).
  assert (E : JSON.lex
                (S (length (LBRACE :: QUOTE :: JSON.quote_chars false k
                            ++ QUOTE :: rest1)))
                (LBRACE :: QUOTE :: JSON.quote_chars false k ++ QUOTE :: rest1)
              = Some [JSON.TLBrace; JSON.TString k; JSON.TColon;
                      JSON.TString v; JSON.TRBrace]).
  { cbn [length]. rewrite lex_lbrace.
    rewrite lex_string_token by lia.
    subst rest1. cbn [length]. rewrite lex_colon.
    change [QUOTE; RBRACE] with (QUOTE :: [RBRACE]).
    rewrite lex_string_token by lia.
    reflexivity. }
  rewrite E. cbn [length Nat.mul Nat.add JSON.parse_value JSON.parse_members].
  cbn [fold_left]. unfold JSON.define_property. cbn [JSON.replace_field].
  destruct (JSON.array_index k); reflexivity.
Qed.

Lemma on_event_object onChunk st k v :
  on_event onChunk st (event_text k v)
  = match
      match JSON.get (JSON.JObject [(k, JSON.JString v)]) (js "error") with
      | Some err => if JSON.truthy err then Some err else None
      | None => None
      end
    with
    | Some err => Failed (ServerError err) st
    | None =>
        match JSON.get (JSON.JObject [(k, JSON.JString v)]) (js "content") with
        | Some (JSON.JString text) =>
            Streaming
              {| accumulatedCode := accumulatedCode st ++ text;
                 calls := if onChunk
                          then calls st ++ [accumulatedCode st ++ text]
                          else calls st |}
        | _ => Streaming st
        end
    end.
Proof.
  unfold on_event, event_text.
  change (js "data: ") with [100; 97; 116; 97; 58; 32].
  change (js "[DONE]") with [91; 68; 79; 78; 69; 93].
  cbn [app startsWith].
  change (100 =? 100) with true. change (97 =? 97) with true.
  change (116 =? 116) with true. change (58 =? 58) with true.
  change (32 =? 32) with true. cbn [andb negb skipn str_eqb].
  change (LBRACE =? 91) with false. cbn [andb].
  rewrite parse_event. reflexivity.
Qed.

Lemma on_events_contents onChunk : forall cs st rest,
  on_events onChunk st (map (event_text (js "content")) cs ++ rest)
  = on_events onChunk
      {| accumulatedCode := accumulatedCode st ++ concat cs;
         calls := if onChunk
                  then calls st ++ accumulations (accumulatedCode st) cs
                  else calls st |}
      rest.
Proof.
  induction cs as [|c cs IH]; intros st rest.
  - cbn [map app concat accumulations]. rewrite !app_nil_r.
    destruct st as [acc cl]. cbn [accumulatedCode calls].
    destruct onChunk; reflexivity.
  - cbn [map app on_events]. rewrite on_event_object.
    change (JSON.get (JSON.JObject [(js "content", JSON.JString c)])
              (js "error")) with (@None JSON.json).
    change (JSON.get (JSON.JObject [(js "content", JSON.JString c)])
              (js "content")) with (Some (JSON.JString c)).
    cbv iota. rewrite IH. cbn [accumulatedCode calls concat accumulations].
    rewrite <- !app_assoc. destruct onChunk; [|reflexivity].
    rewrite <- app_assoc. reflexivity.
Qed.

(** What the route streams, the hook reads back, however the network cuts
    the stream into chunks: the text accumulated is the chunks of the
    model put together, and [onChunk] is called once for each of them,
    with the text accumulated so far.  When [callLLM] throws an error with
    a message, the hook fails with that message after having accumulated
    the chunks that came before; an error whose message is empty is not
    seen by the hook. *)
Theorem stream_is_read_back :
  forall (run : llm_run) (received : list jsstring) (onChunk : bool),
    concat received = concat (start run) ->
    processSSEStream received onChunk
    = let st :=
        {| accumulatedCode := concat (chunks run);
           calls := if onChunk then accumulations [] (chunks run) else [] |} in
      match thrown run with
      | Some (c :: message) =>
          Failed (ServerError (JSON.JString (c :: message))) st
      | _ => Streaming st
      end.
Proof.
  intros run received onChunk H. unfold processSSEStream.
  rewrite (read_loop_events onChunk received _ []) by reflexivity.
  cbn [app]. rewrite H, stream_events.
  change [closing_text run; []] with ([closing_text run] ++ [[]]).
  rewrite app_assoc, removelast_app by discriminate.
  cbn [removelast]. rewrite app_nil_r, on_events_contents.
  cbn [accumulatedCode calls app on_events]. unfold closing_text.
  destruct (thrown run) as [message|].
  - rewrite on_event_object.
    change (JSON.get (JSON.JObject [(js "error", JSON.JString message)])
              (js "error")) with (Some (JSON.JString message)).
    change (JSON.get (JSON.JObject [(js "error", JSON.JString message)])
              (js "content")) with (@None JSON.json).
    destruct message as [|c message]; destruct onChunk; reflexivity.
  - destruct onChunk; reflexivity.
Qed.

Lemma stream_is_read_back_witness :
  processSSEStream
    [js "data: {"; jq "'content':'ab'}" ++ [10]; 10 :: js "da";
     jq "ta: {'content':'c'}" ++ [10; 10] ++ js "data: [DONE]" ++ [10; 10]]
    true
  = Streaming {| accumulatedCode := js "abc"; calls := [js "ab"; js "abc"] |}.
Proof.
  apply (stream_is_read_back
           {| chunks := [js "ab"; js "c"]; thrown := None |}).
  vm_compute; reflexivity.
Defined.
